(** * SecureChat: the relay (server.js) and the encryption engine (E2EE)

    A shallow embedding of the session registry and the socket handlers of
    [server.js], and of the [E2EE] class of the browser module, followed by
    the properties of the specification that they satisfy.

    Conventions.
    - A [Date] is the number of milliseconds since the epoch, in [Z]; every
      [new Date()] of the source is a separate clock reading, passed to the
      function that makes it.
    - [crypto.randomBytes] and [crypto.getRandomValues] are inputs: the
      value drawn is an argument of the function that draws it.
    - The [sessions] Map is a [gmap]; a [Set] of socket ids is a [gset].
    - socket.io keeps, per room, the set of sockets that joined it;
      [socket.to(room).emit] reaches the sockets of the room other than
      the sender. *)

From Stdlib Require Import ZArith List String Ascii Lia ZifyNat.
From Stdlib.Strings Require Import Byte.
From Stdlib Require QArith_base.
From stdpp Require Import base gmap sets list strings.

Local Open Scope Z_scope.
Local Open Scope string_scope.

(* ===================================================================== *)
(** * Part I.  The relay: server.js                                       *)
(* ===================================================================== *)

Module Relay.

(** Values of untyped event payloads, forwarded as they are. *)
Inductive Value :=
| VUndefined
| VNull
| VBool (b : bool)
| VNum (n : Z)
| VStr (s : string).

(** sessionId -> { users: Set, createdAt: Date, lastActivity: Date, maxUsers } *)
Record Session := mkSession {
  users : gset string;
  createdAt : Z;
  lastActivity : Z;
  maxUsers : nat
}.

(** Configuration *)
Definition SESSION_EXPIRY_HOURS : Z := 24.
Definition SESSION_ID_LENGTH : Z := 32.

Record Env := mkEnv {
  PORT : string;                (* process.env.PORT || 3000 *)
  BASE_URL : option string      (* process.env.BASE_URL || null *)
}.

(** The part of [socket.request] that the handlers read. *)
Record Request := mkRequest {
  x_forwarded_proto : option string;
  secure : bool;
  host : option string
}.

(** Events sent by the server. *)
Inductive Packet :=
| UserJoined (userId : option string)
| KeyExchange (publicKey : Value)
| EncryptedMessage (encryptedData iv tag : Value) (timestamp : Z)
| UserTyping (userId : option string) (isTyping : Value)
| UserLeft (userId : option string)
| ErrorMsg (message : string).

Record Delivery := mkDelivery {
  recipients : gset string;
  packet : Packet
}.

(** Process-wide state: the [sessions] Map, the rooms of socket.io and the
    packets emitted so far (oldest first). *)
Record Server := mkServer {
  sessions : gmap string Session;
  rooms : gmap string (gset string);
  outbox : list Delivery
}.

(** The variables closed over by the handlers of one connection. *)
Record Closure := mkClosure {
  currentSessionId : option string;
  userId : option string
}.

(** ** State passing *)

Definition M (A : Type) : Type := Server -> A * Server.

Definition ret {A} (a : A) : M A := fun st => (a, st).

Definition bind {A B} (m : M A) (k : A -> M B) : M B :=
  fun st => let (a, st') := m st in k a st'.

Notation "'do' x <- c1 ; c2" := (bind c1 (fun x => c2))
  (at level 10, x name, c1 at level 100, c2 at level 200).
Notation "'exec' c1 ; c2" := (bind c1 (fun _ => c2))
  (at level 10, c1 at level 100, c2 at level 200).

Definition sessions_get (sessionId : string) : M (option Session) :=
  fun st => (sessions st !! sessionId, st).

Definition sessions_has (sessionId : string) : M bool :=
  fun st => (bool_decide (is_Some (sessions st !! sessionId)), st).

Definition sessions_set (sessionId : string) (s : Session) : M unit :=
  fun st => (tt, mkServer (<[sessionId := s]> (sessions st)) (rooms st) (outbox st)).

Definition sessions_delete (sessionId : string) : M unit :=
  fun st => (tt, mkServer (delete sessionId (sessions st)) (rooms st) (outbox st)).

(** A session object is shared between the Map and the handler that holds
    it: a mutation through the handler's reference is a mutation of the
    entry. *)
Definition session_mutate (sessionId : string) (f : Session -> Session) : M unit :=
  fun st => (tt, mkServer (alter f sessionId (sessions st)) (rooms st) (outbox st)).

Definition users_add (socketId : string) (s : Session) : Session :=
  mkSession ({[socketId]} ∪ users s) (createdAt s) (lastActivity s) (maxUsers s).

Definition users_delete (socketId : string) (s : Session) : Session :=
  mkSession (users s ∖ {[socketId]}) (createdAt s) (lastActivity s) (maxUsers s).

Definition set_lastActivity (now : Z) (s : Session) : Session :=
  mkSession (users s) (createdAt s) now (maxUsers s).

(** socket.join(room) *)
Definition socket_join (socketId room : string) : M unit :=
  fun st =>
    (tt, mkServer (sessions st)
           (<[room := {[socketId]} ∪ default ∅ (rooms st !! room)]> (rooms st))
           (outbox st)).

Definition room_members (st : Server) (room : string) : gset string :=
  default ∅ (rooms st !! room).

(** socket.to(room).emit(...) : every socket of the room but the sender *)
Definition socket_to_emit (socketId room : string) (p : Packet) : M unit :=
  fun st =>
    (tt, mkServer (sessions st) (rooms st)
           (outbox st ++ [mkDelivery (room_members st room ∖ {[socketId]}) p])).

(** socket.emit(...) : the sender alone *)
Definition socket_emit (socketId : string) (p : Packet) : M unit :=
  fun st =>
    (tt, mkServer (sessions st) (rooms st)
           (outbox st ++ [mkDelivery {[socketId]} p])).

(** ** Session ids *)

(** The character class [A-Za-z0-9_-]. *)
Definition is_base64url_char (a : ascii) : bool :=
  let n := nat_of_ascii a in
  ((65 <=? n) && (n <=? 90) || (97 <=? n) && (n <=? 122) ||
   (48 <=? n) && (n <=? 57) || (n =? 95) || (n =? 45))%nat.

(** /^[A-Za-z0-9_-]{43}$/.test(sessionId) *)
Definition isValidSessionId (sessionId : string) : bool :=
  (String.length sessionId =? 43)%nat &&
  forallb is_base64url_char (list_ascii_of_string sessionId).

(** ** The registry *)

(** (now - session.createdAt) / (1000 * 60 * 60), as a rational.  The
    source divides in double precision; both operands are integers below
    2^53 and the quotient is compared with the integer 24, which rounding
    cannot cross. *)
Definition hoursSinceCreation (now : Z) (s : Session) : QArith_base.Q :=
  QArith_base.Qmake (now - createdAt s) (Z.to_pos (1000 * 60 * 60)).

(** hoursSinceCreation >= SESSION_EXPIRY_HOURS *)
Definition expired (now : Z) (s : Session) : bool :=
  QArith_base.Qle_bool (QArith_base.inject_Z SESSION_EXPIRY_HOURS)
                       (hoursSinceCreation now s).

(** createSession(): [sessionId] is the value of generateSessionId(),
    [now] the value of new Date().  The timer set here is [session_timer]
    below, run by the event loop when it fires. *)
Definition createSession (sessionId : string) (now : Z) : M string :=
  exec sessions_set sessionId (mkSession ∅ now now 2);
  ret sessionId.

(** The callback given to setTimeout in createSession. *)
Definition session_timer (sessionId : string) (now : Z) : M unit :=
  do has <- sessions_has sessionId;
  if has then
    do session <- sessions_get sessionId;
    match session with
    | Some s => if expired now s then sessions_delete sessionId else ret tt
    | None => ret tt
    end
  else ret tt.

Definition canJoinSession (sessionId : string) (now : Z) : M bool :=
  do session <- sessions_get sessionId;
  match session with
  | None => ret false
  | Some s =>
      if expired now s then
        exec sessions_delete sessionId; ret false
      else if (maxUsers s <=? size (users s))%nat then
        ret false
      else ret true
  end.

Definition isSessionValidForMessaging (sessionId : string) (now : Z) : M bool :=
  do session <- sessions_get sessionId;
  match session with
  | None => ret false
  | Some s =>
      if expired now s then
        exec sessions_delete sessionId; ret false
      else ret true
  end.

Definition updateSessionActivity (sessionId : string) (now : Z) : M unit :=
  do session <- sessions_get sessionId;
  match session with
  | Some _ => session_mutate sessionId (set_lastActivity now)
  | None => ret tt
  end.

(** The callback given to setInterval: every expired session is deleted. *)
Definition cleanup_interval (now : Z) : M unit :=
  fun st =>
    (tt, mkServer (filter (fun kv => expired now kv.2 = false) (sessions st))
           (rooms st) (outbox st)).

(** ** Helpers of the handlers *)

(** The test [if (!currentSessionId)]: null and the empty string are falsy. *)
Definition truthy_id (v : option string) : option string :=
  match v with
  | Some s => if String.eqb s "" then None else Some s
  | None => None
  end.

(** a || b, on strings that may be absent *)
Definition or_else (a : option string) (b : string) : string :=
  match truthy_id a with
  | Some s => s
  | None => b
  end.

(** The link sent to the party that is alone in the session. *)
Definition shareLink (env : Env) (req : Request) (sessionId : string) : string :=
  match truthy_id (BASE_URL env) with
  | Some base => base ++ "/chat/" ++ sessionId
  | None =>
      let protocol :=
        or_else (x_forwarded_proto req) (if secure req then "https" else "http") in
      let host := or_else (host req) ("localhost:" ++ PORT env) in
      protocol ++ "://" ++ host ++ "/chat/" ++ sessionId
  end.

Record CreateReply := mkCreateReply {
  cr_sessionId : string;
  cr_userId : string;
  cr_link : string
}.

Inductive JoinReply :=
| JoinError (error : string)
| JoinSuccess (userId : string) (isInitiator : bool) (link : option string).

(** ** The handlers of one connection

    [socketId] is socket.id, [req] socket.request, [c] the closure
    variables before the event; a handler returns them as it leaves them. *)

(** app.get('/chat/new') *)
Definition get_chat_new (sessionId : string) (now : Z) : M string :=
  createSession sessionId now.

(** socket.on('create-session') *)
Definition on_create_session (env : Env) (req : Request) (socketId : string)
    (newSessionId newUserId : string) (t_create t_touch : Z)
    (c : Closure) : M (Closure * CreateReply) :=
  do sessionId <- createSession newSessionId t_create;
  let c' := mkClosure (Some sessionId) (Some newUserId) in
  exec session_mutate sessionId (users_add socketId);
  exec socket_join socketId sessionId;
  exec updateSessionActivity sessionId t_touch;
  ret (c', mkCreateReply sessionId newUserId (shareLink env req sessionId)).

(** socket.on('join-session').  After canJoinSession the entry exists; the
    handler holds the session object [s] and reads its size after the
    insertion. *)
Definition on_join_session (env : Env) (req : Request) (socketId : string)
    (sessionId : string) (newUserId : string) (t_check t_touch : Z)
    (c : Closure) : M (Closure * JoinReply) :=
  if negb (isValidSessionId sessionId) then
    ret (c, JoinError "Invalid session ID")
  else
    do ok <- canJoinSession sessionId t_check;
    if negb ok then
      ret (c, JoinError "Session not available or expired")
    else
      let c' := mkClosure (Some sessionId) (Some newUserId) in
      do session <- sessions_get sessionId;
      exec session_mutate sessionId (users_add socketId);
      exec socket_join socketId sessionId;
      exec updateSessionActivity sessionId t_touch;
      exec socket_to_emit socketId sessionId (UserJoined (Some newUserId));
      let isInitiator :=
        match session with
        | Some s => (size (users (users_add socketId s)) =? 1)%nat
        | None => false
        end in
      let link := if isInitiator then Some (shareLink env req sessionId) else None in
      ret (c', JoinSuccess newUserId isInitiator link).

(** socket.on('key-exchange') *)
Definition on_key_exchange (socketId : string) (publicKey : Value)
    (c : Closure) : M unit :=
  match truthy_id (currentSessionId c) with
  | None => ret tt
  | Some sid => socket_to_emit socketId sid (KeyExchange publicKey)
  end.

(** socket.on('encrypted-message') *)
Definition on_encrypted_message (socketId : string)
    (encryptedData iv tag publicKey : Value) (t_check t_touch t_stamp : Z)
    (c : Closure) : M unit :=
  match truthy_id (currentSessionId c) with
  | None => socket_emit socketId (ErrorMsg "Session expired or invalid")
  | Some sid =>
      do valid <- isSessionValidForMessaging sid t_check;
      if negb valid then
        socket_emit socketId (ErrorMsg "Session expired or invalid")
      else
        do session <- sessions_get sid;
        match session with
        | Some s =>
            if bool_decide (socketId ∈ users s) then
              exec updateSessionActivity sid t_touch;
              socket_to_emit socketId sid
                (EncryptedMessage encryptedData iv tag t_stamp)
            else
              socket_emit socketId (ErrorMsg "Not a member of this session")
        | None =>
            socket_emit socketId (ErrorMsg "Not a member of this session")
        end
  end.

(** socket.on('typing') *)
Definition on_typing (socketId : string) (isTyping : Value)
    (c : Closure) : M unit :=
  match truthy_id (currentSessionId c) with
  | None => ret tt
  | Some sid => socket_to_emit socketId sid (UserTyping (userId c) isTyping)
  end.

(** socket.on('disconnect') *)
Definition on_disconnect (socketId : string) (c : Closure) : M unit :=
  match truthy_id (currentSessionId c) with
  | None => ret tt
  | Some sid =>
      do session <- sessions_get sid;
      match session with
      | Some s =>
          exec session_mutate sid (users_delete socketId);
          exec socket_to_emit socketId sid (UserLeft (userId c));
          if (size (users (users_delete socketId s)) =? 0)%nat then
            sessions_delete sid
          else ret tt
      | None => ret tt
      end
  end.

(** ** The event loop *)

(** socket.io takes a disconnected socket out of its rooms before the
    'disconnect' handler runs. *)
Definition leave_all (socketId : string) : M unit :=
  fun st =>
    (tt, mkServer (sessions st) ((fun r => r ∖ {[socketId]}) <$> rooms st)
           (outbox st)).

Record World := mkWorld {
  server : Server;
  conns : gmap string (Request * Closure)
}.

Definition initial : World := mkWorld (mkServer ∅ ∅ []) ∅.

Inductive Event :=
| HttpChatNew (newSessionId : string) (now : Z)
| TimerFires (sessionId : string) (now : Z)
| IntervalFires (now : Z)
| Connection (socketId : string) (req : Request)
| CreateSession (socketId newSessionId newUserId : string) (t_create t_touch : Z)
| JoinSession (socketId sessionId newUserId : string) (t_check t_touch : Z)
| KeyExchangeEv (socketId : string) (publicKey : Value)
| EncryptedMessageEv (socketId : string) (encryptedData iv tag publicKey : Value)
    (t_check t_touch t_stamp : Z)
| Typing (socketId : string) (isTyping : Value)
| Disconnect (socketId : string).

(** Run the handler [h] of the connection [socketId], if it is open. *)
Definition with_conn {A} (socketId : string)
    (h : Request -> Closure -> M (Closure * A)) (w : World) : World :=
  match conns w !! socketId with
  | None => w
  | Some (req, c) =>
      let '(c', _, st') := h req c (server w) in
      mkWorld st' (<[socketId := (req, c')]> (conns w))
  end.

Definition keep {A} (c : Closure) (m : M A) : M (Closure * A) :=
  do a <- m; ret (c, a).

Definition step (env : Env) (ev : Event) (w : World) : World :=
  match ev with
  | HttpChatNew sid now =>
      mkWorld (get_chat_new sid now (server w)).2 (conns w)
  | TimerFires sid now =>
      mkWorld (session_timer sid now (server w)).2 (conns w)
  | IntervalFires now =>
      mkWorld (cleanup_interval now (server w)).2 (conns w)
  | Connection socketId req =>
      match conns w !! socketId with
      | Some _ => w
      | None =>
          mkWorld (server w) (<[socketId := (req, mkClosure None None)]> (conns w))
      end
  | CreateSession socketId sid uid t1 t2 =>
      with_conn socketId
        (fun req c => on_create_session env req socketId sid uid t1 t2 c) w
  | JoinSession socketId sid uid t1 t2 =>
      with_conn socketId
        (fun req c => on_join_session env req socketId sid uid t1 t2 c) w
  | KeyExchangeEv socketId pk =>
      with_conn socketId (fun _ c => keep c (on_key_exchange socketId pk c)) w
  | EncryptedMessageEv socketId ed iv tag pk t1 t2 t3 =>
      with_conn socketId
        (fun _ c => keep c (on_encrypted_message socketId ed iv tag pk t1 t2 t3 c)) w
  | Typing socketId isTyping =>
      with_conn socketId (fun _ c => keep c (on_typing socketId isTyping c)) w
  | Disconnect socketId =>
      match conns w !! socketId with
      | None => w
      | Some (_, c) =>
          mkWorld ((exec leave_all socketId; on_disconnect socketId c) (server w)).2
                  (delete socketId (conns w))
      end
  end.

Definition run (env : Env) (evs : list Event) (w : World) : World :=
  foldl (fun w ev => step env ev w) w evs.

(** The events that arrive on a socket or from a timer: all but the HTTP
    route. *)
Definition is_http (ev : Event) : bool :=
  match ev with
  | HttpChatNew _ _ => true
  | _ => false
  end.

(** ** Vocabulary of the statements about the relay *)

(** The delay of the timer of createSession: the age at which a session
    expires, in milliseconds. *)
Definition expiryHorizon : Z := SESSION_EXPIRY_HOURS * 60 * 60 * 1000.

(** The registry after a sequence of updateSessionActivity calls. *)
Definition touches (ts : list (string * Z)) (st : Server) : Server :=
  foldl (fun st t => (updateSessionActivity t.1 t.2 st).2) st ts.

(** The state [st] after one more packet. *)
Definition emitted (st : Server) (to : gset string) (p : Packet) : Server :=
  mkServer (sessions st) (rooms st) (outbox st ++ [mkDelivery to p]).

(** C6, as the specification states it: a typing notice is forwarded only
    when an envelope would be; when the sender's session fails
    isSessionValidForMessaging, or the sender is not among its users, no
    packet leaves. *)
Definition typing_checked_like_envelopes : Prop :=
  forall env (evs : list Event) (socketId sid : string) (isTyping : Value)
         (req : Request) (c : Closure) (now : Z),
    let w := run env evs initial in
    conns w !! socketId = Some (req, c) ->
    truthy_id (currentSessionId c) = Some sid ->
    (isSessionValidForMessaging sid now (server w)).1 = false \/
    (forall s, sessions (server w) !! sid = Some s -> socketId ∉ users s) ->
    outbox (server (step env (Typing socketId isTyping) w)) = outbox (server w).

(** Data of the examples: a session id, a configuration, a request. *)
Definition an_id : string := "AAAAAAAAAAAAAAAAAAAAAAAAAAAAAAAAAAAAAAAAAAA".
Definition an_env : Env := mkEnv "3000" None.
Definition a_request : Request := mkRequest None false (Some "chat.example").

(** A session made by GET /chat/new at time 0 and joined by two
    connections. *)
Definition two_parties : list Event :=
  [HttpChatNew an_id 0;
   Connection "a" a_request; Connection "b" a_request;
   JoinSession "a" an_id "ua" 1000 1000;
   JoinSession "b" an_id "ub" 2000 2000].

(** The same, and at the expiry horizon the interval callback removes the
    session. *)
Definition expired_session : list Event :=
  two_parties ++ [IntervalFires expiryHorizon].

(** The refusal of canJoinSession, as 'join-session' reports it. *)
Definition not_available : JoinReply :=
  JoinError "Session not available or expired".

(** The registry [m] holds under [sid] a session without participants. *)
Definition zero_participants (m : gmap string Session) (sid : string) : Prop :=
  exists s, m !! sid = Some s /\ users s = ∅.

(** C4, as the specification states it: in no reachable state does the
    registry hold a session without participants. *)
Definition no_session_is_empty : Prop :=
  forall env (evs : list Event) (sid : string),
    ~ zero_participants (sessions (server (run env evs initial))) sid.

(** [m'] has no session without participants that [m] did not have. *)
Definition no_new_empty (m m' : gmap string Session) : Prop :=
  forall sid, zero_participants m' sid -> zero_participants m sid.

(** A session made by 'create-session', joined by a second connection
    that receives an envelope and leaves. *)
Definition a_conversation : list Event :=
  [Connection "a" a_request;
   CreateSession "a" an_id "ua" 0 0;
   Connection "b" a_request;
   JoinSession "b" an_id "ub" 1000 1000;
   EncryptedMessageEv "a" (VStr "c") (VStr "n") (VStr "t") VUndefined 2000 2000 2000;
   Disconnect "b"].

(** Every session has capacity 2 and at most 2 participants. *)
Definition capacity_kept (m : gmap string Session) : Prop :=
  forall sid s, m !! sid = Some s ->
    maxUsers s = 2%nat /\ (size (users s) <= 2)%nat.

(** The sockets of the room of a session are among its participants. *)
Definition rooms_within_users (st : Server) : Prop :=
  forall sid s, sessions st !! sid = Some s -> room_members st sid ⊆ users s.

(** The id that generateSessionId returns for the event is new: no session
    and no room has it. *)
Definition fresh_id (ev : Event) (w : World) : Prop :=
  match ev with
  | HttpChatNew sid _ | CreateSession _ sid _ _ _ =>
      rooms (server w) !! sid = None /\ sessions (server w) !! sid = None
  | _ => True
  end.

Fixpoint fresh_ids (env : Env) (evs : list Event) (w : World) : Prop :=
  match evs with
  | [] => True
  | ev :: rest => fresh_id ev w /\ fresh_ids env rest (step env ev w)
  end.

(** No connection of [w] has [sid] as its current session. *)
Definition no_connection_holds (sid : string) (w : World) : Prop :=
  forall socketId req c,
    conns w !! socketId = Some (req, c) -> currentSessionId c <> Some sid.

(** The event does not join the session [sid] made at [made], does not
    create it again, and is not a timer that fires when it has reached
    the horizon. *)
Definition leaves_alone (sid : string) (made : Z) (ev : Event) : Prop :=
  match ev with
  | HttpChatNew sid' _ | CreateSession _ sid' _ _ _ | JoinSession _ sid' _ _ _ =>
      sid' <> sid
  | TimerFires sid' t => sid' = sid -> t - made < expiryHorizon
  | IntervalFires t => t - made < expiryHorizon
  | _ => True
  end.

(** A second id, and a run that leaves the session [an_id] alone: another
    session is made, used and left, and the timers fire before the
    horizon. *)
Definition another_id : string := "BBBBBBBBBBBBBBBBBBBBBBBBBBBBBBBBBBBBBBBBBBB".

Definition a_quiet_run : list Event :=
  [Connection "a" a_request;
   CreateSession "a" another_id "ua" 10 10;
   Typing "a" (VBool true);
   EncryptedMessageEv "a" (VStr "c") (VStr "n") (VStr "t") VUndefined 20 20 20;
   TimerFires an_id 1000;
   IntervalFires 2000;
   Disconnect "a"].

End Relay.

(* ===================================================================== *)
(** * Part II.  The encryption engine: class E2EE                         *)
(* ===================================================================== *)

(** The class runs on three services of the browser: the text codecs
    (TextEncoder, TextDecoder), base64 (btoa, atob) and Web Crypto
    (crypto.subtle).  The first two are given here as their standards
    define them (WHATWG Encoding, UTF-8 with replacement; HTML, forgiving
    base64); the third is an interface.

    An ArrayBuffer or Uint8Array is a [list byte].  A string that holds
    text is the list of its UTF-16 code units; a binary string, all of
    whose code units are below 256, is a [string]. *)

Module Engine.

Local Open Scope N_scope.

Definition DOMString : Type := list N.

(** A store into a Uint8Array keeps the value modulo 256. *)
Definition byte_of_N (n : N) : byte :=
  default Byte.x00 (Byte.of_N (n mod 256)).

(** The code units of a string literal of the source (all below 256). *)
Definition units_of (s : string) : DOMString :=
  map N_of_ascii (list_ascii_of_string s).

(** ** base64: btoa and atob *)

Definition b64_char (n : N) : ascii :=
  if n <? 26 then ascii_of_N (65 + n)
  else if n <? 52 then ascii_of_N (97 + (n - 26))
  else if n <? 62 then ascii_of_N (48 + (n - 52))
  else if n =? 62 then "+"%char
  else "/"%char.

Definition b64_index (a : ascii) : option N :=
  let n := N_of_ascii a in
  if (65 <=? n) && (n <=? 90) then Some (n - 65)
  else if (97 <=? n) && (n <=? 122) then Some (n - 97 + 26)
  else if (48 <=? n) && (n <=? 57) then Some (n - 48 + 52)
  else if n =? 43 then Some 62
  else if n =? 47 then Some 63
  else None.

(** Three bytes give four sextets; a last group of one or two bytes is
    completed with zero bits. *)
Fixpoint b64_sextets (l : list N) : list N :=
  match l with
  | [] => []
  | [a] => [a / 4; (a mod 4) * 16]
  | [a; b] => [a / 4; (a mod 4) * 16 + b / 16; (b mod 16) * 4]
  | a :: b :: c :: rest =>
      a / 4 :: (a mod 4) * 16 + b / 16 :: (b mod 16) * 4 + c / 64 :: c mod 64
        :: b64_sextets rest
  end.

Definition b64_padding (len : nat) : list ascii :=
  match (len mod 3)%nat with
  | 1%nat => ["="%char; "="%char]
  | 2%nat => ["="%char]
  | _ => []
  end.

Definition btoa (binary : string) : string :=
  let bytes := map N_of_ascii (list_ascii_of_string binary) in
  string_of_list_ascii
    (map b64_char (b64_sextets bytes) ++ b64_padding (length bytes)).

(** TAB, LF, FF, CR, SPACE *)
Definition is_ascii_whitespace (a : ascii) : bool :=
  let n := N_of_ascii a in
  (n =? 9) || (n =? 10) || (n =? 12) || (n =? 13) || (n =? 32).

(** If the length is a multiple of four, one or two final [=] go. *)
Definition strip_padding (data : list ascii) : list ascii :=
  if (length data mod 4 =? 0)%nat then
    match rev data with
    | a :: r =>
        if Ascii.eqb a "=" then
          match r with
          | b :: r' => if Ascii.eqb b "=" then rev r' else rev r
          | [] => rev r
          end
        else data
    | [] => data
    end
  else data.

Fixpoint b64_indices (data : list ascii) : option (list N) :=
  match data with
  | [] => Some []
  | a :: rest =>
      match b64_index a, b64_indices rest with
      | Some i, Some r => Some (i :: r)
      | _, _ => None
      end
  end.

(** Four sextets give three bytes; of a last group of two or three
    sextets the bits that do not fill a byte are dropped. *)
Fixpoint b64_bytes (l : list N) : list N :=
  match l with
  | a :: b :: c :: d :: rest =>
      a * 4 + b / 16 :: (b mod 16) * 16 + c / 4 :: (c mod 4) * 64 + d
        :: b64_bytes rest
  | [a; b; c] => [a * 4 + b / 16; (b mod 16) * 16 + c / 4]
  | [a; b] => [a * 4 + b / 16]
  | _ => []
  end.

(** atob: [None] stands for the InvalidCharacterError it throws. *)
Definition atob (data : string) : option string :=
  let d := List.filter (fun a => negb (is_ascii_whitespace a))
                       (list_ascii_of_string data) in
  let d := strip_padding d in
  if (length d mod 4 =? 1)%nat then None
  else
    match b64_indices d with
    | None => None
    | Some idx => Some (string_of_list_ascii (map ascii_of_N (b64_bytes idx)))
    end.

(** ** UTF-8: TextEncoder and TextDecoder *)

Definition is_high_surrogate (u : N) : bool := (0xD800 <=? u) && (u <=? 0xDBFF).
Definition is_low_surrogate (u : N) : bool := (0xDC00 <=? u) && (u <=? 0xDFFF).

(** The scalar values of a string: a surrogate pair is one code point, a
    surrogate that is not part of a pair is replaced by U+FFFD. *)
Fixpoint to_scalar_values (s : DOMString) : list N :=
  match s with
  | [] => []
  | u :: rest =>
      if is_high_surrogate u then
        match rest with
        | v :: rest' =>
            if is_low_surrogate v then
              0x10000 + (u - 0xD800) * 0x400 + (v - 0xDC00)
                :: to_scalar_values rest'
            else 0xFFFD :: to_scalar_values rest
        | [] => [0xFFFD]
        end
      else if is_low_surrogate u then 0xFFFD :: to_scalar_values rest
      else u :: to_scalar_values rest
  end.

Definition utf8_encode_code_point (c : N) : list N :=
  if c <? 0x80 then [c]
  else if c <? 0x800 then [0xC0 + c / 64; 0x80 + c mod 64]
  else if c <? 0x10000 then
    [0xE0 + c / 4096; 0x80 + (c / 64) mod 64; 0x80 + c mod 64]
  else
    [0xF0 + c / 262144; 0x80 + (c / 4096) mod 64; 0x80 + (c / 64) mod 64;
     0x80 + c mod 64].

Definition utf8_encode (cps : list N) : list N :=
  concat (map utf8_encode_code_point cps).

(** The state of the UTF-8 decoder. *)
Record Utf8State := mkUtf8State {
  code_point : N;
  bytes_needed : N;
  bytes_seen : N;
  lower_boundary : N;
  upper_boundary : N
}.

Definition utf8_initial : Utf8State := mkUtf8State 0 0 0 0x80 0xBF.

(** A byte read when no sequence is open: the code points it yields and
    the state it leaves. *)
Definition utf8_lead (b : N) : list N * Utf8State :=
  if b <=? 0x7F then ([b], utf8_initial)
  else if (0xC2 <=? b) && (b <=? 0xDF) then
    ([], mkUtf8State (b - 0xC0) 1 0 0x80 0xBF)
  else if (0xE0 <=? b) && (b <=? 0xEF) then
    ([], mkUtf8State (b - 0xE0) 2 0
           (if b =? 0xE0 then 0xA0 else 0x80)
           (if b =? 0xED then 0x9F else 0xBF))
  else if (0xF0 <=? b) && (b <=? 0xF4) then
    ([], mkUtf8State (b - 0xF0) 3 0
           (if b =? 0xF0 then 0x90 else 0x80)
           (if b =? 0xF4 then 0x8F else 0xBF))
  else ([0xFFFD], utf8_initial).

(** The decoder, with replacement (fatal: false).  A byte that cannot
    continue the open sequence closes it with U+FFFD and is read again as
    a first byte. *)
Fixpoint utf8_decode (st : Utf8State) (bytes : list N) : list N :=
  match bytes with
  | [] => if bytes_needed st =? 0 then [] else [0xFFFD]
  | b :: rest =>
      if bytes_needed st =? 0 then
        let (out, st') := utf8_lead b in out ++ utf8_decode st' rest
      else if (b <? lower_boundary st) || (upper_boundary st <? b) then
        let (out, st') := utf8_lead b in
        0xFFFD :: out ++ utf8_decode st' rest
      else
        let cp := code_point st * 64 + (b - 0x80) in
        if bytes_seen st + 1 =? bytes_needed st then
          cp :: utf8_decode utf8_initial rest
        else
          utf8_decode
            (mkUtf8State cp (bytes_needed st) (bytes_seen st + 1) 0x80 0xBF)
            rest
  end.

(** ignoreBOM: false -- a leading byte order mark is not part of the
    output. *)
Definition strip_bom (bytes : list N) : list N :=
  match bytes with
  | b1 :: b2 :: b3 :: rest =>
      if (b1 =? 0xEF) && (b2 =? 0xBB) && (b3 =? 0xBF) then rest else bytes
  | _ => bytes
  end.

Definition utf16_units (c : N) : list N :=
  if c <? 0x10000 then [c]
  else [0xD800 + (c - 0x10000) / 0x400; 0xDC00 + (c - 0x10000) mod 0x400].

(** new TextEncoder().encode(str) *)
Definition TextEncoder_encode (str : DOMString) : list byte :=
  map byte_of_N (utf8_encode (to_scalar_values str)).

(** new TextDecoder().decode(buffer) *)
Definition TextDecoder_decode (buffer : list byte) : DOMString :=
  concat (map utf16_units
            (utf8_decode utf8_initial (strip_bom (map Byte.to_N buffer)))).

(** Text that the codecs carry unchanged: every code unit below 2^16 and
    every surrogate in a pair. *)
Fixpoint well_formed (s : DOMString) : bool :=
  match s with
  | [] => true
  | u :: rest =>
      if is_high_surrogate u then
        match rest with
        | v :: rest' => is_low_surrogate v && well_formed rest'
        | [] => false
        end
      else negb (is_low_surrogate u) && (u <? 0x10000) && well_formed rest
  end.

Definition starts_with_bom (s : DOMString) : bool :=
  match s with
  | u :: _ => u =? 0xFEFF
  | [] => false
  end.

(** ** ArrayBuffer.prototype.slice *)

Definition relative_index (len i : Z) : Z :=
  if (i <? 0)%Z then Z.max (len + i) 0 else Z.min i len.

Definition slice (buffer : list byte) (begin end_ : Z) : list byte :=
  let len := Z.of_nat (length buffer) in
  let first := relative_index len begin in
  let final := relative_index len end_ in
  take (Z.to_nat (Z.max (final - first) 0)) (drop (Z.to_nat first) buffer).

Definition slice_from (buffer : list byte) (begin : Z) : list byte :=
  slice buffer begin (Z.of_nat (length buffer)).

(** ** crypto.subtle

    A call whose promise is rejected gives [None].  The functions are
    those the class calls, with the parameters it passes. *)
Class SubtleCrypto := {
  PrivateKey : Type;
  PublicKey : Type;
  KeyMaterial : Type;
  AesKey : Type;
  (** generateKey({name: 'ECDH', namedCurve: 'P-256'}, ...) from the
      randomness it draws *)
  generateKey_ECDH : list byte -> option (PrivateKey * PublicKey);
  (** exportKey('raw', publicKey) *)
  exportKey_raw : PublicKey -> option (list byte);
  (** importKey('raw', buffer, {name: 'ECDH', namedCurve: 'P-256'}, ...) *)
  importKey_ECDH : list byte -> option PublicKey;
  (** deriveBits({name: 'ECDH', public}, privateKey, length) *)
  deriveBits_ECDH : PublicKey -> PrivateKey -> N -> option (list byte);
  (** importKey('raw', buffer, {name: 'PBKDF2'}, ...) *)
  importKey_PBKDF2 : list byte -> option KeyMaterial;
  (** deriveKey({name: 'PBKDF2', salt, iterations, hash}, keyMaterial,
      {name: 'AES-GCM', length}, ...) *)
  deriveKey_PBKDF2 :
    list byte -> N -> string -> KeyMaterial -> N -> option AesKey;
  (** encrypt({name: 'AES-GCM', iv, tagLength}, key, data) *)
  encrypt_AES_GCM : list byte -> N -> AesKey -> list byte -> option (list byte);
  (** decrypt({name: 'AES-GCM', iv, tagLength}, key, data) *)
  decrypt_AES_GCM : list byte -> N -> AesKey -> list byte -> option (list byte)
}.

(** What a call of the class throws. *)
Inductive Exn :=
| Error (message : string)
| Rejected.                       (* the error of the platform, rethrown *)

Inductive Result (A : Type) :=
| Ok (a : A)
| Throw (e : Exn).
Arguments Ok {A} a.
Arguments Throw {A} e.

Record Envelope := mkEnvelope {
  encryptedData : string;
  iv : string;
  tag : string
}.

Section E2EE.
Context {SC : SubtleCrypto}.

(** The fields that the methods assign ([algorithm] and [keyLength] are
    set once and never read). *)
Record E2EE := mkE2EE {
  keyPair : option (PrivateKey * PublicKey);
  sharedSecret : option (list byte);
  encryptionKey : option AesKey
}.

(** constructor() *)
Definition new_E2EE : E2EE := mkE2EE None None None.

Definition stringToArrayBuffer (str : DOMString) : list byte :=
  TextEncoder_encode str.

Definition arrayBufferToString (buffer : list byte) : DOMString :=
  TextDecoder_decode buffer.

Definition arrayBufferToBase64 (buffer : list byte) : string :=
  btoa (string_of_list_byte buffer).

Definition base64ToArrayBuffer (base64 : string) : option (list byte) :=
  option_map list_byte_of_string (atob base64).

(** initializeKeyExchange(); [seed] is the randomness of generateKey. *)
Definition initializeKeyExchange (seed : list byte) (e : E2EE)
    : Result string * E2EE :=
  match generateKey_ECDH seed with
  | None => (Throw Rejected, e)
  | Some kp =>
      let e' := mkE2EE (Some kp) (sharedSecret e) (encryptionKey e) in
      match exportKey_raw kp.2 with
      | None => (Throw Rejected, e')
      | Some publicKey => (Ok (arrayBufferToBase64 publicKey), e')
      end
  end.

(** computeSharedSecret(peerPublicKeyBase64): whatever is thrown inside is
    caught and the method returns false. *)
Definition computeSharedSecret (peerPublicKeyBase64 : string) (e : E2EE)
    : bool * E2EE :=
  match base64ToArrayBuffer peerPublicKeyBase64 with
  | None => (false, e)
  | Some peerPublicKeyBuffer =>
  match importKey_ECDH peerPublicKeyBuffer with
  | None => (false, e)
  | Some peerPublicKey =>
  match keyPair e with
  | None => (false, e)              (* this.keyPair.privateKey of null *)
  | Some kp =>
  match deriveBits_ECDH peerPublicKey kp.1 256 with
  | None => (false, e)
  | Some sharedSecretBits =>
      let e1 := mkE2EE (keyPair e) (Some sharedSecretBits) (encryptionKey e) in
      let salt := stringToArrayBuffer (units_of "SecureChat-E2EE-Salt") in
      match importKey_PBKDF2 sharedSecretBits with
      | None => (false, e1)
      | Some keyMaterial =>
      match deriveKey_PBKDF2 salt 100000 "SHA-256" keyMaterial 256 with
      | None => (false, e1)
      | Some key => (true, mkE2EE (keyPair e1) (sharedSecret e1) (Some key))
      end
      end
  end
  end
  end
  end.

Definition not_established : Exn :=
  Error "Encryption key not established. Perform key exchange first.".

(** encrypt(message); [nonce] is the value of
    crypto.getRandomValues(new Uint8Array(12)). *)
Definition encrypt (nonce : list byte) (message : DOMString) (e : E2EE)
    : Result Envelope :=
  match encryptionKey e with
  | None => Throw not_established
  | Some key =>
      let messageBuffer := stringToArrayBuffer message in
      match encrypt_AES_GCM nonce 128 key messageBuffer with
      | None => Throw Rejected
      | Some encrypted =>
          let byteLength := Z.of_nat (length encrypted) in
          let ciphertext := slice encrypted 0 (byteLength - 16) in
          let tag := slice_from encrypted (byteLength - 16) in
          Ok (mkEnvelope (arrayBufferToBase64 ciphertext)
                         (arrayBufferToBase64 nonce)
                         (arrayBufferToBase64 tag))
      end
  end.

Definition decrypt_failed : Exn :=
  Error "Failed to decrypt message. Possible tampering or wrong key.".

(** decrypt(encryptedData, ivBase64, tagBase64) *)
Definition decrypt (encryptedData ivBase64 tagBase64 : string) (e : E2EE)
    : Result DOMString :=
  match encryptionKey e with
  | None => Throw not_established
  | Some key =>
      match base64ToArrayBuffer ivBase64,
            base64ToArrayBuffer tagBase64,
            base64ToArrayBuffer encryptedData with
      | Some iv, Some tag, Some ciphertext =>
          let encrypted := (ciphertext ++ tag)%list in
          match decrypt_AES_GCM iv 128 key encrypted with
          | Some decrypted => Ok (arrayBufferToString decrypted)
          | None => Throw decrypt_failed
          end
      | _, _, _ => Throw decrypt_failed
      end
  end.

(** isReady() *)
Definition isReady (e : E2EE) : bool :=
  match encryptionKey e with
  | Some _ => true
  | None => false
  end.

(** reset() *)
Definition reset (e : E2EE) : E2EE := mkE2EE None None None.

(** A use of the engine: the calls made on one instance, in order. *)
Inductive Call :=
| InitializeKeyExchange (seed : list byte)
| ComputeSharedSecret (peerPublicKeyBase64 : string)
| Encrypt (nonce : list byte) (message : DOMString)
| Decrypt (encryptedData ivBase64 tagBase64 : string)
| IsReady
| Reset.

(** The instance after a call, and whether the call was a
    computeSharedSecret that returned true. *)
Definition call (c : Call) (e : E2EE) : bool * E2EE :=
  match c with
  | InitializeKeyExchange seed => (false, (initializeKeyExchange seed e).2)
  | ComputeSharedSecret peer => computeSharedSecret peer e
  | Encrypt _ _ | Decrypt _ _ _ | IsReady => (false, e)
  | Reset => (false, reset e)
  end.

Fixpoint calls (cs : list Call) (e : E2EE) : bool * E2EE :=
  match cs with
  | [] => (false, e)
  | c :: rest =>
      let (ok, e') := call c e in
      let (ok', e'') := calls rest e' in
      (ok || ok', e'')
  end.

End E2EE.

(** ** Vocabulary of the statements about the engine *)

Local Open Scope list_scope.

(** A Unicode scalar value: a code point that is not a surrogate. *)
Definition scalar (c : N) : Prop :=
  c < 0xD800 \/ 0xE000 <= c < 0x110000.

(** What the class relies on from AES-GCM with a 96-bit nonce and a
    128-bit tag: encryption succeeds, its output is the data followed by
    16 bytes of tag, and decryption of that output under the same key and
    nonce gives the data back. *)
Definition gcm_law (SC : SubtleCrypto) : Prop :=
  forall (key : AesKey) (nonce data : list byte),
    length nonce = 12%nat ->
    exists c,
      encrypt_AES_GCM nonce 128 key data = Some c /\
      length c = (length data + 16)%nat /\
      decrypt_AES_GCM nonce 128 key c = Some data.

(** An instance of the interface that keeps [gcm_law]: keys are byte
    strings, the tag is 16 zero bytes, and decryption refuses data that
    does not end with that tag.  It stands for the platform where a
    statement is evaluated on concrete data. *)
Definition plain_crypto : SubtleCrypto := {|
  PrivateKey := list byte;
  PublicKey := list byte;
  KeyMaterial := list byte;
  AesKey := list byte;
  generateKey_ECDH seed := Some (seed, seed);
  exportKey_raw pk := Some pk;
  importKey_ECDH raw := Some raw;
  deriveBits_ECDH pub priv len := Some (pub ++ priv);
  importKey_PBKDF2 raw := Some raw;
  deriveKey_PBKDF2 salt iterations hash km len := Some (salt ++ km);
  encrypt_AES_GCM nonce tagLength key data := Some (data ++ repeat Byte.x00 16);
  decrypt_AES_GCM nonce tagLength key data :=
    let t := drop (length data - 16) data in
    if (length t =? 16)%nat && forallb (Byte.eqb Byte.x00) t
    then Some (take (length data - 16) data)
    else None
|}.

(** Data of the examples: a nonce, the key of a peer in base64, and an
    instance after initializeKeyExchange. *)
Definition a_nonce : list byte := repeat Byte.x01 12.
Definition a_peer_key : string := "BAECAw==".
Definition a_started_engine : @E2EE plain_crypto :=
  (@initializeKeyExchange plain_crypto [Byte.x07] (@new_E2EE plain_crypto)).2.

(** C1, as the specification states it: whatever the plaintext, once
    computeSharedSecret has returned true, encrypt gives an envelope and
    decrypt of that envelope gives the plaintext. *)
Definition round_trip_for_every_plaintext : Prop :=
  forall (SC : SubtleCrypto), gcm_law SC ->
  forall (e0 e : E2EE) (peer : string) (nonce : list byte) (message : DOMString),
    computeSharedSecret peer e0 = (true, e) ->
    length nonce = 12%nat ->
    exists env,
      encrypt nonce message e = Ok env /\
      decrypt (encryptedData env) (iv env) (tag env) e = Ok message.

(** The instance after computeSharedSecret with the key of the peer. *)
Definition a_ready_engine : @E2EE plain_crypto :=
  (@computeSharedSecret plain_crypto a_peer_key a_started_engine).2.

(** "hello" *)
Definition a_message : DOMString := [104; 101; 108; 108; 111].

(** U+FEFF followed by "hi" *)
Definition a_marked_message : DOMString := [0xFEFF; 104; 105].

(** Calls of which no computeSharedSecret returns true: the first has no
    key pair, the second a key that is not base64. *)
Definition some_calls : list Call :=
  [ComputeSharedSecret a_peer_key;
   InitializeKeyExchange [Byte.x07];
   ComputeSharedSecret "!";
   IsReady;
   Reset].

End Engine.

(* ===================================================================== *)
(** * Part II, continued.  More of server.js                             *)
(* ===================================================================== *)

Module Tokens.
Import Relay Engine.

Local Open Scope N_scope.

(** The alphabet of the 'base64url' encoding of a Buffer. *)
Definition b64url_char (n : N) : ascii :=
  if n <? 26 then ascii_of_N (65 + n)
  else if n <? 52 then ascii_of_N (97 + (n - 26))
  else if n <? 62 then ascii_of_N (48 + (n - 52))
  else if n =? 62 then "-"%char
  else "_"%char.

(** buffer.toString('base64url'): the sextets of the bytes, no padding. *)
Definition toString_base64url (buffer : list byte) : string :=
  string_of_list_ascii (map b64url_char (b64_sextets (map Byte.to_N buffer))).

(** generateSessionId(); [randomBytes] is the value of
    crypto.randomBytes(SESSION_ID_LENGTH). *)
Definition generateSessionId (randomBytes : list byte) : string :=
  toString_base64url randomBytes.

(** The session id that an event gives to createSession, if it calls it. *)
Definition creates (ev : Event) : option string :=
  match ev with
  | HttpChatNew sid _ | CreateSession _ sid _ _ _ => Some sid
  | _ => None
  end.

(** The session under [sid] in [m'] is one that [m] had, with the same
    creation time and capacity. *)
Definition descends (sid : string) (m m' : gmap string Session) : Prop :=
  forall s', m' !! sid = Some s' ->
    exists s, m !! sid = Some s /\ createdAt s' = createdAt s /\
              maxUsers s' = maxUsers s.

(** A connection with a session id is in the room of that id and has a
    user id; one without has neither.  Every socket of a room is an open
    connection. *)
Definition closures_consistent (w : World) : Prop :=
  (forall socketId req c,
     conns w !! socketId = Some (req, c) ->
     match currentSessionId c with
     | Some sid =>
         socketId ∈ room_members (server w) sid /\ is_Some (userId c)
     | None => userId c = None
     end) /\
  (forall sid socketId,
     socketId ∈ room_members (server w) sid -> is_Some (conns w !! socketId)).

End Tokens.

(* ===================================================================== *)
(** * Part II, continued.  More of the engine, and its user chat.js       *)
(* ===================================================================== *)

Module Exchange.
Import Engine.

Local Open Scope N_scope.
Local Open Scope list_scope.

(** A string of the language: every code unit is below 2^16. *)
Definition code_units (s : DOMString) : Prop :=
  Forall (fun u => u < 0x10000) s.

(** The code points that the decoder hands on: all but a first U+FEFF. *)
Definition without_mark (cps : list N) : list N :=
  match cps with
  | c :: rest => if c =? 0xFEFF then rest else cps
  | [] => []
  end.

(** What the class relies on from ECDH when two parties exchange keys:
    the raw export of a generated public key imports as that key, and
    the bits that one party derives from its private key and the public
    key of the other are those that the other derives. *)
Definition ecdh_law (SC : SubtleCrypto) : Prop :=
  (forall seed priv pub,
     generateKey_ECDH seed = Some (priv, pub) ->
     exists raw, exportKey_raw pub = Some raw /\ importKey_ECDH raw = Some pub) /\
  (forall seedA seedB privA pubA privB pubB len,
     generateKey_ECDH seedA = Some (privA, pubA) ->
     generateKey_ECDH seedB = Some (privB, pubB) ->
     deriveBits_ECDH pubB privA len = deriveBits_ECDH pubA privB len).

(** An instance of the interface that keeps [ecdh_law] and [gcm_law]: a
    key pair is a number below 256, public and private alike, the shared
    bits are the product of the two numbers; the cipher is that of
    [plain_crypto]. *)
Definition product_crypto : SubtleCrypto := {|
  PrivateKey := N;
  PublicKey := N;
  KeyMaterial := list byte;
  AesKey := list byte;
  generateKey_ECDH seed :=
    let n := N.of_nat (length seed) mod 256 in Some (n, n);
  exportKey_raw pk := Some [byte_of_N pk];
  importKey_ECDH raw :=
    match raw with
    | [b] => Some (Byte.to_N b)
    | _ => None
    end;
  deriveBits_ECDH pub priv len := Some [byte_of_N (pub * priv)];
  importKey_PBKDF2 raw := Some raw;
  deriveKey_PBKDF2 salt iterations hash km len := Some (salt ++ km);
  encrypt_AES_GCM := @encrypt_AES_GCM plain_crypto;
  decrypt_AES_GCM := @decrypt_AES_GCM plain_crypto
|}.

End Exchange.

(** The parts of class SecureChat (chat.js) that send and receive
    messages and typing notices.  The page is kept as what it shows: the
    list of displayed messages and of system notices. *)
Module Client.
Import Engine.

Local Open Scope N_scope.
Local Open Scope list_scope.

(** WhiteSpace and LineTerminator of the language: what trim removes. *)
Definition is_white_space (u : N) : bool :=
  (u =? 0x09) || (u =? 0x0A) || (u =? 0x0B) || (u =? 0x0C) || (u =? 0x0D) ||
  (u =? 0x20) || (u =? 0xA0) || (u =? 0x1680) ||
  ((0x2000 <=? u) && (u <=? 0x200A)) ||
  (u =? 0x2028) || (u =? 0x2029) || (u =? 0x202F) || (u =? 0x205F) ||
  (u =? 0x3000) || (u =? 0xFEFF).

Fixpoint trimStart (s : DOMString) : DOMString :=
  match s with
  | u :: rest => if is_white_space u then trimStart rest else s
  | [] => []
  end.

(** String.prototype.trim *)
Definition trim (s : DOMString) : DOMString :=
  rev (trimStart (rev (trimStart s))).

(** What the client sends on its socket. *)
Inductive Emit :=
| EmitEncryptedMessage (env : Envelope)
| EmitTyping (isTyping : bool).

(** The system notices of the two methods, by their text:
    'Encryption not ready yet. Please wait...', 'Not connected to server',
    'Failed to send message', 'Failed to decrypt a message'. *)
Inductive Notice :=
| EncryptionNotReady
| NotConnected
| FailedToSend
| FailedToDecrypt.

(** displayMessage(text, timestamp, isOwn) *)
Record Shown := mkShown {
  shown_text : DOMString;
  shown_time : Z;
  shown_own : bool
}.

Section Client.
Context {SC : SubtleCrypto}.

Record Chat := mkChat {
  e2ee : E2EE;
  connected : bool;               (* this.socket && this.socket.connected *)
  input_value : DOMString;        (* this.elements.messageInput.value *)
  isTyping : bool;
  typingTimeout : bool;           (* a timeout of handleTyping is pending *)
  emitted : list Emit;            (* oldest first *)
  messages : list Shown;
  notices : list Notice
}.

Definition emit (x : Emit) (app : Chat) : Chat :=
  mkChat (e2ee app) (connected app) (input_value app) (isTyping app)
         (typingTimeout app) (emitted app ++ [x]) (messages app) (notices app).

Definition addSystemMessage (n : Notice) (app : Chat) : Chat :=
  mkChat (e2ee app) (connected app) (input_value app) (isTyping app)
         (typingTimeout app) (emitted app) (messages app) (notices app ++ [n]).

Definition displayMessage (text : DOMString) (timestamp : Z) (isOwn : bool)
    (app : Chat) : Chat :=
  mkChat (e2ee app) (connected app) (input_value app) (isTyping app)
         (typingTimeout app) (emitted app)
         (messages app ++ [mkShown text timestamp isOwn]) (notices app).

(** stopTyping() *)
Definition stopTyping (app : Chat) : Chat :=
  if isTyping app then
    emit (EmitTyping false)
      (mkChat (e2ee app) (connected app) (input_value app) false
              (typingTimeout app) (emitted app) (messages app) (notices app))
  else app.

(** handleTyping(): the pending timeout is cleared and a new one set. *)
Definition handleTyping (app : Chat) : Chat :=
  let app1 :=
    if isTyping app then app
    else
      emit (EmitTyping true)
        (mkChat (e2ee app) (connected app) (input_value app) true
                (typingTimeout app) (emitted app) (messages app) (notices app)) in
  mkChat (e2ee app1) (connected app1) (input_value app1) (isTyping app1)
         true (emitted app1) (messages app1) (notices app1).

(** The callback of the timeout of handleTyping, when it is pending. *)
Definition typing_timeout_fires (app : Chat) : Chat :=
  if typingTimeout app then
    stopTyping
      (mkChat (e2ee app) (connected app) (input_value app) (isTyping app)
              false (emitted app) (messages app) (notices app))
  else app.

(** sendMessage(); [nonce] is the randomness of encrypt, [now] the time of
    the display.  The method reads the input and the two flags before its
    one await and writes after it; it is taken here as one step, no other
    event being handled while encrypt is pending. *)
Definition sendMessage (nonce : list byte) (now : Z) (app : Chat) : Chat :=
  let message := trim (input_value app) in
  match message with
  | [] => app
  | _ :: _ =>
      if negb (isReady (e2ee app)) then addSystemMessage EncryptionNotReady app
      else if negb (connected app) then addSystemMessage NotConnected app
      else
        match encrypt nonce message (e2ee app) with
        | Ok env =>
            let app1 := emit (EmitEncryptedMessage env) app in
            let app2 := displayMessage message now true app1 in
            let app3 :=
              mkChat (e2ee app2) (connected app2) [] (isTyping app2)
                     (typingTimeout app2) (emitted app2) (messages app2)
                     (notices app2) in
            stopTyping app3
        | Throw _ => addSystemMessage FailedToSend app
        end
  end.

(** The handler of 'encrypted-message', on the fields of an envelope. *)
Definition on_encrypted_message (encryptedData iv tag : string)
    (timestamp : Z) (app : Chat) : Chat :=
  match decrypt encryptedData iv tag (e2ee app) with
  | Ok decrypted => displayMessage decrypted timestamp false app
  | Throw _ => addSystemMessage FailedToDecrypt app
  end.

(** What the user does and what the timer does. *)
Inductive Action :=
| Keypress                       (* a key other than Enter, or an input *)
| TimeoutFires
| Send (text : DOMString) (nonce : list byte) (now : Z).

Definition act (a : Action) (app : Chat) : Chat :=
  match a with
  | Keypress => handleTyping app
  | TimeoutFires => typing_timeout_fires app
  | Send text nonce now =>
      sendMessage nonce now
        (mkChat (e2ee app) (connected app) text (isTyping app)
                (typingTimeout app) (emitted app) (messages app) (notices app))
  end.

Definition acts (l : list Action) (app : Chat) : Chat :=
  fold_left (fun app a => act a app) l app.

(** A page that has emitted nothing and is not typing. *)
Definition quiet (e : E2EE) (connected : bool) : Chat :=
  mkChat e connected [] false false [] [] [].

(** The typing notices among what was emitted, in order. *)
Definition typing_notices (l : list Emit) : list bool :=
  flat_map (fun x => match x with EmitTyping b => [b] | _ => [] end) l.

End Client.

(** true, false, true, ... *)
Fixpoint alternates (expected : bool) (l : list bool) : bool :=
  match l with
  | [] => true
  | b :: rest => Bool.eqb b expected && alternates (negb expected) rest
  end.

(** ** Vocabulary of the statements about the page *)

(** The typing notices sent so far alternate, beginning with true; the
    page is typing exactly when the last of them is true, and then a
    timeout of handleTyping is pending. *)
Definition typing_consistent {SC : SubtleCrypto} (app : Chat) : Prop :=
  alternates true (typing_notices (emitted app)) = true /\
  isTyping app = Nat.odd (length (typing_notices (emitted app))) /\
  default false (last (typing_notices (emitted app))) = isTyping app /\
  (isTyping app = true -> typingTimeout app = true).

Definition is_typing_notice (x : Emit) : bool :=
  match x with
  | EmitTyping _ => true
  | EmitEncryptedMessage _ => false
  end.

(** Two parties with the same key: the page of the first, ready and
    connected, with " hello " in its input, and the page of the second. *)
Definition a_sender : @Chat plain_crypto :=
  @mkChat plain_crypto a_ready_engine true (32 :: a_message ++ [32])
          true true [EmitTyping true] [] [].

Definition a_receiver : @Chat plain_crypto :=
  @quiet plain_crypto a_ready_engine true.

Definition some_actions : list Action :=
  [Keypress; Keypress; TimeoutFires; Keypress;
   Send (32 :: a_message ++ [32]) a_nonce 0; TimeoutFires].

End Client.

(* ===================================================================== *)
(** * Part III.  Properties of the relay                                  *)
(* ===================================================================== *)

Module RelayFacts.
Import Relay.

(* set_solver clears names that its goals may not have *)
#[local] Set Warnings "-clear-no-such-hyp".

Ltac unfold_M :=
  unfold canJoinSession, isSessionValidForMessaging, updateSessionActivity,
    session_timer, createSession, get_chat_new,
    sessions_get, sessions_has, sessions_set, sessions_delete, session_mutate,
    socket_join, socket_to_emit, socket_emit, keep, bind, ret in *.

Lemma bind_run {A B} (m : M A) (k : A -> M B) (st : Server) :
  bind m k st = k (m st).1 (m st).2.
Proof. unfold bind. by destruct (m st). Qed.

Lemma expired_true now s :
  expired now s = true <-> expiryHorizon <= now - createdAt s.
Proof.
  unfold expired, hoursSinceCreation, QArith_base.Qle_bool, expiryHorizon,
    SESSION_EXPIRY_HOURS.
  cbn [QArith_base.Qnum QArith_base.Qden QArith_base.inject_Z].
  rewrite Z.leb_le. change (Z.pos (Z.to_pos (1000 * 60 * 60))) with 3600000.
  lia.
Qed.

Lemma expired_false now s :
  expired now s = false <-> now - createdAt s < expiryHorizon.
Proof.
  destruct (expired now s) eqn:E.
  - apply expired_true in E. split; [discriminate | lia].
  - split; [intros _ | reflexivity].
    destruct (Z.lt_ge_cases (now - createdAt s) expiryHorizon) as [|G]; [done|].
    apply expired_true in G. congruence.
Qed.

(** ** canRelay *)

Lemma valid_lookup sessionId now st :
  (isSessionValidForMessaging sessionId now st).1 =
  match sessions st !! sessionId with
  | Some s => bool_decide (now - createdAt s < expiryHorizon)
  | None => false
  end.
Proof.
  unfold_M. destruct (sessions st !! sessionId) as [s|] eqn:L; simpl; [|done].
  destruct (expired now s) eqn:E; simpl; symmetry.
  - apply expired_true in E. apply bool_decide_eq_false. lia.
  - apply expired_false in E. by apply bool_decide_eq_true.
Qed.

(** C5.  isSessionValidForMessaging answers true exactly when the session
    is in the registry and younger than the expiry horizon; for a session
    that is in the registry the answer is the comparison of its age with
    the horizon alone, whatever its participants: it is true for a session
    with two users that is younger, and false for every session whose age
    has reached the horizon. *)
Theorem isSessionValidForMessaging_iff (sessionId : string) (now : Z) (st : Server) :
  ((isSessionValidForMessaging sessionId now st).1 = true <->
     exists s, sessions st !! sessionId = Some s /\
               now - createdAt s < expiryHorizon) /\
  match sessions st !! sessionId with
  | Some s =>
      (isSessionValidForMessaging sessionId now st).1
        = bool_decide (now - createdAt s < expiryHorizon) /\
      ((isSessionValidForMessaging sessionId now st).1 = false <->
         expiryHorizon <= now - createdAt s)
  | None => (isSessionValidForMessaging sessionId now st).1 = false
  end.
Proof.
  rewrite valid_lookup.
  destruct (sessions st !! sessionId) as [s|] eqn:L.
  - rewrite bool_decide_eq_true, bool_decide_eq_false. repeat split.
    + intros H. by exists s.
    + by intros (s' & [= <-] & H).
    + lia.
    + lia.
  - split; [|done]. split; [discriminate|]. by intros (s' & ? & _).
Qed.

(** ** touch *)

Lemma updateSessionActivity_sessions sessionId now st :
  sessions (updateSessionActivity sessionId now st).2
    = alter (set_lastActivity now) sessionId (sessions st).
Proof.
  unfold_M. destruct (sessions st !! sessionId) eqn:L; simpl; [done|].
  symmetry. apply map_eq. intros i. rewrite lookup_alter.
  case_decide; subst; by rewrite ?L.
Qed.

Lemma updateSessionActivity_rest sessionId now st :
  rooms (updateSessionActivity sessionId now st).2 = rooms st /\
  outbox (updateSessionActivity sessionId now st).2 = outbox st.
Proof. unfold_M. by destruct (sessions st !! sessionId). Qed.

Lemma touch_lookup sessionId now st id :
  sessions (updateSessionActivity sessionId now st).2 !! id
    = (if decide (sessionId = id) then set_lastActivity now else (fun s => s))
        <$> sessions st !! id.
Proof.
  rewrite updateSessionActivity_sessions, lookup_alter.
  case_decide; [by subst|]. by destruct (sessions st !! id).
Qed.

Lemma touches_lookup ts : forall st id,
  exists f : Session -> Session,
    sessions (touches ts st) !! id = f <$> sessions st !! id /\
    forall s, users (f s) = users s /\ createdAt (f s) = createdAt s /\
              maxUsers (f s) = maxUsers s.
Proof.
  induction ts as [|[i t] ts IH]; intros st id.
  - exists (fun s => s). split; [|done]. simpl. by destruct (sessions st !! id).
  - destruct (IH (updateSessionActivity i t st).2 id) as (f & Hf & Hk).
    unfold touches in *. simpl. rewrite Hf, touch_lookup.
    exists (fun s => f ((if decide (i = id) then set_lastActivity t
                         else (fun s => s)) s)).
    split; [by destruct (sessions st !! id)|].
    intros s. destruct (Hk ((if decide (i = id) then set_lastActivity t
                             else (fun s => s)) s)) as (-> & -> & ->).
    by case_decide.
Qed.

Lemma validity_depends_on_createdAt sessionId now st st' :
  createdAt <$> sessions st' !! sessionId = createdAt <$> sessions st !! sessionId ->
  (isSessionValidForMessaging sessionId now st').1
    = (isSessionValidForMessaging sessionId now st).1.
Proof.
  intros H. rewrite !valid_lookup.
  destruct (sessions st !! sessionId) as [s|], (sessions st' !! sessionId) as [s'|];
    simpl in H; try discriminate; [|done].
  injection H as ->. done.
Qed.

(** C7.  After any sequence of updateSessionActivity calls every session
    of the registry has the participants, the creation time and the
    capacity it had, no session was added or removed, and the answers of
    isSessionValidForMessaging and of the expiry test are, at every time,
    what they were: the expiry of a session does not move. *)
Theorem touch_frame (ts : list (string * Z)) (st : Server) (sessionId : string) :
  users <$> sessions (touches ts st) !! sessionId
    = users <$> sessions st !! sessionId /\
  createdAt <$> sessions (touches ts st) !! sessionId
    = createdAt <$> sessions st !! sessionId /\
  maxUsers <$> sessions (touches ts st) !! sessionId
    = maxUsers <$> sessions st !! sessionId /\
  (forall now,
     expired now <$> sessions (touches ts st) !! sessionId
       = expired now <$> sessions st !! sessionId) /\
  (forall now,
     (isSessionValidForMessaging sessionId now (touches ts st)).1
       = (isSessionValidForMessaging sessionId now st).1).
Proof.
  destruct (touches_lookup ts st sessionId) as (f & Hf & Hk).
  assert (C : createdAt <$> sessions (touches ts st) !! sessionId
              = createdAt <$> sessions st !! sessionId).
  { rewrite Hf. destruct (sessions st !! sessionId) as [s|]; simpl; [|done].
    by destruct (Hk s) as (_ & -> & _). }
  repeat split.
  - rewrite Hf. destruct (sessions st !! sessionId) as [s|]; simpl; [|done].
    by destruct (Hk s) as (-> & _).
  - exact C.
  - rewrite Hf. destruct (sessions st !! sessionId) as [s|]; simpl; [|done].
    by destruct (Hk s) as (_ & _ & ->).
  - intros now. rewrite Hf.
    destruct (sessions st !! sessionId) as [s|]; simpl; [|done].
    f_equal. unfold expired, hoursSinceCreation.
    by destruct (Hk s) as (_ & -> & _).
  - intros now. by apply validity_depends_on_createdAt.
Qed.

(** ** Relay of envelopes *)

(** C3.  The 'encrypted-message' handler.  A connection without a session
    gets an error and nothing else happens (NoSession); so does one whose
    session fails isSessionValidForMessaging (SessionInvalid; the two share
    the text of the message, and an expired session is deleted by the
    test); a connection that is not among the users of the session gets
    the membership error (NotAMember); otherwise lastActivity becomes the
    time of the touch, the users, the creation time and the capacity of
    the session staying as they were, and one packet goes to the other
    sockets of the room of the session (participants, by
    [rooms_hold_participants] below), carrying encryptedData, iv and tag
    as received and the time of the relay.  The second part states the
    success alone: for a user of a session that has not expired, the
    session is afterwards the one before with lastActivity the time of
    the touch, and the packet is the one added to those sent. *)
Theorem on_encrypted_message_spec (socketId : string)
    (encryptedData iv tag publicKey : Value) (t_check t_touch t_stamp : Z)
    (c : Closure) (st : Server) :
  (on_encrypted_message socketId encryptedData iv tag publicKey
     t_check t_touch t_stamp c st).2 =
  match truthy_id (currentSessionId c) with
  | None => emitted st {[socketId]} (ErrorMsg "Session expired or invalid")
  | Some sid =>
      if (isSessionValidForMessaging sid t_check st).1 then
        match sessions st !! sid with
        | Some s =>
            if bool_decide (socketId ∈ users s) then
              emitted
                (mkServer
                   (<[sid := mkSession (users s) (createdAt s) t_touch
                                       (maxUsers s)]> (sessions st))
                   (rooms st) (outbox st))
                (room_members st sid ∖ {[socketId]})
                (EncryptedMessage encryptedData iv tag t_stamp)
            else
              emitted st {[socketId]} (ErrorMsg "Not a member of this session")
        | None =>
            emitted st {[socketId]} (ErrorMsg "Not a member of this session")
        end
      else
        emitted (isSessionValidForMessaging sid t_check st).2 {[socketId]}
          (ErrorMsg "Session expired or invalid")
  end /\
  (forall sid s,
     truthy_id (currentSessionId c) = Some sid ->
     sessions st !! sid = Some s ->
     t_check - createdAt s < expiryHorizon ->
     socketId ∈ users s ->
     exists s',
       sessions (on_encrypted_message socketId encryptedData iv tag publicKey
                   t_check t_touch t_stamp c st).2 !! sid = Some s' /\
       lastActivity s' = t_touch /\
       users s' = users s /\ createdAt s' = createdAt s /\
       maxUsers s' = maxUsers s /\
       outbox (on_encrypted_message socketId encryptedData iv tag publicKey
                 t_check t_touch t_stamp c st).2
       = (outbox st ++ [mkDelivery (room_members st sid ∖ {[socketId]})
                          (EncryptedMessage encryptedData iv tag t_stamp)])%list).
Proof.
  assert (H : (on_encrypted_message socketId encryptedData iv tag publicKey
                 t_check t_touch t_stamp c st).2 =
    match truthy_id (currentSessionId c) with
    | None => emitted st {[socketId]} (ErrorMsg "Session expired or invalid")
    | Some sid =>
        if (isSessionValidForMessaging sid t_check st).1 then
          match sessions st !! sid with
          | Some s =>
              if bool_decide (socketId ∈ users s) then
                emitted
                  (mkServer
                     (<[sid := mkSession (users s) (createdAt s) t_touch
                                         (maxUsers s)]> (sessions st))
                     (rooms st) (outbox st))
                  (room_members st sid ∖ {[socketId]})
                  (EncryptedMessage encryptedData iv tag t_stamp)
              else
                emitted st {[socketId]} (ErrorMsg "Not a member of this session")
          | None =>
              emitted st {[socketId]} (ErrorMsg "Not a member of this session")
          end
        else
          emitted (isSessionValidForMessaging sid t_check st).2 {[socketId]}
            (ErrorMsg "Session expired or invalid")
    end).
  { unfold on_encrypted_message.
    destruct (truthy_id (currentSessionId c)) as [sid|]; [|done].
    unfold_M. destruct (sessions st !! sid) as [s|] eqn:L; simpl; [|done].
    destruct (expired t_check s); simpl; [done|]. rewrite L.
    case_bool_decide; simpl; [|done]. rewrite L. simpl.
    unfold emitted, room_members. simpl. f_equal.
    apply map_eq. intros i. rewrite lookup_alter, lookup_insert.
    case_decide; subst; by rewrite ?L. }
  split; [exact H|].
  intros sid s Tc L X U. rewrite H, Tc, valid_lookup, L.
  rewrite bool_decide_eq_true_2 by done.
  rewrite bool_decide_eq_true_2 by done.
  unfold emitted. cbn [sessions outbox].
  eexists. split; [apply lookup_insert_eq|]. by repeat split.
Qed.

Lemma on_encrypted_message_spec_witness :
  let st := server (run an_env two_parties initial) in
  exists s',
    sessions (on_encrypted_message "a" (VStr "c") (VStr "n") (VStr "t")
                VUndefined 3000 4000 5000
                (mkClosure (Some an_id) (Some "ua")) st).2 !! an_id = Some s' /\
    lastActivity s' = 4000 /\
    users s' = {["b"]} ∪ ({["a"]} ∪ ∅) /\ createdAt s' = 0 /\
    maxUsers s' = 2%nat /\
    outbox (on_encrypted_message "a" (VStr "c") (VStr "n") (VStr "t")
              VUndefined 3000 4000 5000
              (mkClosure (Some an_id) (Some "ua")) st).2
    = (outbox st ++ [mkDelivery (room_members st an_id ∖ {["a"]})
                       (EncryptedMessage (VStr "c") (VStr "n") (VStr "t") 5000)])%list.
Proof.
  intros st.
  destruct (on_encrypted_message_spec "a" (VStr "c") (VStr "n") (VStr "t")
              VUndefined 3000 4000 5000 (mkClosure (Some an_id) (Some "ua")) st)
    as [_ H].
  specialize (H an_id (mkSession ({["b"]} ∪ ({["a"]} ∪ ∅)) 0 2000 2) eq_refl).
  cbn [users createdAt maxUsers] in H. apply H.
  - vm_compute. reflexivity.
  - unfold expiryHorizon, SESSION_EXPIRY_HOURS. lia.
  - set_solver.
Defined.

(** ** Relay of key material *)

(** C10.  The 'key-exchange' handler reads the closure variable
    currentSessionId and nothing of the registry.  With a session id it
    sends the key to the other sockets of that room; without one it does
    nothing.  Whatever the registry holds (no entry for the id, an expired
    entry, an entry without the sender), the packets and the rooms are the
    same and the registry is left as it was. *)
Theorem on_key_exchange_spec (socketId : string) (publicKey : Value)
    (c : Closure) (st : Server) :
  (on_key_exchange socketId publicKey c st).2 =
  match truthy_id (currentSessionId c) with
  | Some sid =>
      emitted st (room_members st sid ∖ {[socketId]}) (KeyExchange publicKey)
  | None => st
  end /\
  forall registry : gmap string Session,
    let st' := (on_key_exchange socketId publicKey c st).2 in
    (on_key_exchange socketId publicKey c
       (mkServer registry (rooms st) (outbox st))).2
    = mkServer registry (rooms st') (outbox st').
Proof.
  unfold on_key_exchange.
  by destruct (truthy_id (currentSessionId c)).
Qed.

(** ** Typing notices *)

(** C6, as the code has it.  The 'typing' handler tests the closure
    variable currentSessionId and nothing else.  With a session id it sends
    the notice to the other sockets of that room; without one it does
    nothing and signals nothing.  Whatever the registry holds, the packets
    and the rooms are the same and the registry is left as it was. *)
Theorem on_typing_spec (socketId : string) (isTyping : Value)
    (c : Closure) (st : Server) :
  (on_typing socketId isTyping c st).2 =
  match truthy_id (currentSessionId c) with
  | Some sid =>
      emitted st (room_members st sid ∖ {[socketId]})
        (UserTyping (userId c) isTyping)
  | None => st
  end /\
  forall registry : gmap string Session,
    let st' := (on_typing socketId isTyping c st).2 in
    (on_typing socketId isTyping c
       (mkServer registry (rooms st) (outbox st))).2
    = mkServer registry (rooms st') (outbox st').
Proof.
  unfold on_typing.
  by destruct (truthy_id (currentSessionId c)).
Qed.

(** C6 fails on the code: in the scenario the registry no longer has the
    session, an envelope of "a" would be refused, and the typing notice of
    "a" still reaches "b". *)
Lemma typing_not_checked : ~ typing_checked_like_envelopes.
Proof.
  intros H.
  pose proof (H an_env expired_session "a" an_id (VBool true) a_request
                (mkClosure (Some an_id) (Some "ua")) expiryHorizon) as H'.
  cbv zeta in H'.
  assert (L : length (outbox (server (step an_env (Typing "a" (VBool true))
                                         (run an_env expired_session initial))))
              = length (outbox (server (run an_env expired_session initial)))).
  { f_equal. apply H'.
    - vm_compute. reflexivity.
    - reflexivity.
    - left. vm_compute. reflexivity. }
  vm_compute in L. discriminate.
Qed.

Example typing_reaches_the_peer :
  last (outbox (server (step an_env (Typing "a" (VBool true))
                          (run an_env expired_session initial))))
  = Some (mkDelivery {["b"]} (UserTyping (Some "ua") (VBool true))) /\
  sessions (server (run an_env expired_session initial)) !! an_id = None.
Proof. split; vm_compute; reflexivity. Qed.

(** ** Admission *)

(** The 'join-session' handler on a session of capacity 2. *)
Lemma on_join_session_cases (env : Env) (req : Request)
    (socketId sessionId newUserId : string) (t_check t_touch : Z)
    (c : Closure) (st : Server) :
  isValidSessionId sessionId = true ->
  (forall s, sessions st !! sessionId = Some s -> maxUsers s = 2%nat) ->
  let r := on_join_session env req socketId sessionId newUserId
             t_check t_touch c st in
  match sessions st !! sessionId with
  | None => r = (c, not_available, st)
  | Some s =>
      if decide (expiryHorizon <= t_check - createdAt s) then
        r = (c, not_available,
             mkServer (delete sessionId (sessions st)) (rooms st) (outbox st))
      else if decide (2 <= size (users s))%nat then
        r = (c, not_available, st)
      else
        let s' := mkSession ({[socketId]} ∪ users s) (createdAt s) t_touch
                            (maxUsers s) in
        let isInitiator := bool_decide (size (users s') = 1%nat) in
        r.1.1 = mkClosure (Some sessionId) (Some newUserId) /\
        r.1.2 = JoinSuccess newUserId isInitiator
                  (if isInitiator then Some (shareLink env req sessionId)
                   else None) /\
        sessions r.2 = <[sessionId := s']> (sessions st) /\
        rooms r.2 = <[sessionId := {[socketId]} ∪ room_members st sessionId]>
                      (rooms st) /\
        outbox r.2 =
          (outbox st ++
           [mkDelivery (({[socketId]} ∪ room_members st sessionId) ∖ {[socketId]})
                       (UserJoined (Some newUserId))])%list
  end.
Proof.
  intros Hid Hcap r. subst r. unfold on_join_session. rewrite Hid. simpl.
  unfold_M. destruct (sessions st !! sessionId) as [s|] eqn:L; simpl; [|done].
  specialize (Hcap s eq_refl).
  destruct (expired t_check s) eqn:E; simpl.
  - apply expired_true in E. by rewrite decide_True.
  - apply expired_false in E. rewrite decide_False by lia. rewrite Hcap.
    destruct (2 <=? size (users s))%nat eqn:F; simpl.
    + apply Nat.leb_le in F. by rewrite decide_True.
    + apply Nat.leb_gt in F. rewrite decide_False by lia.
      rewrite L. simpl. rewrite lookup_alter, decide_True by done. rewrite L. simpl.
      assert (B : (size ({[socketId]} ∪ users s) =? 1)%nat
                  = bool_decide (size ({[socketId]} ∪ users s) = 1%nat)).
      { destruct (Nat.eqb_spec (size ({[socketId]} ∪ users s)) 1) as [e|n].
        - by rewrite bool_decide_eq_true_2.
        - by rewrite bool_decide_eq_false_2. }
      rewrite B. repeat split.
      * apply map_eq. intros i. rewrite !lookup_alter, lookup_insert.
        destruct (decide (sessionId = i)) as [<-|]; [|done].
        rewrite decide_True by done. rewrite L. simpl.
        unfold set_lastActivity, users_add. simpl. by rewrite Hcap.
      * unfold room_members. simpl. by rewrite lookup_insert_eq.
Qed.


(** ** Sessions without participants *)

Lemma nne_refl m : no_new_empty m m.
Proof. by intros sid. Qed.

Lemma nne_trans m1 m2 m3 :
  no_new_empty m1 m2 -> no_new_empty m2 m3 -> no_new_empty m1 m3.
Proof. intros A B sid H. by apply A, B. Qed.

Lemma nne_delete m i : no_new_empty m (delete i m).
Proof.
  intros sid (s & L & E). apply lookup_delete_Some in L as [_ L]. by exists s.
Qed.

Lemma nne_filter (P : string * Session -> Prop) `{!forall x, Decision (P x)} m :
  no_new_empty m (filter P m).
Proof.
  intros sid (s & L & E). apply map_lookup_filter_Some in L as [L _]. by exists s.
Qed.

Lemma nne_insert m i s : users s <> ∅ -> no_new_empty m (<[i := s]> m).
Proof.
  intros N sid (s' & L & E). apply lookup_insert_Some in L as [[-> ->]|[_ L]];
    [done | by exists s'].
Qed.

Lemma nne_alter_same_users m i f :
  (forall s, users (f s) = users s) -> no_new_empty m (alter f i m).
Proof.
  intros F sid (s' & L & E). rewrite lookup_alter in L.
  destruct (decide (i = sid)) as [->|]; [|by exists s'].
  destruct (m !! sid) as [s|] eqn:Ls; simpl in L; [|done].
  injection L as <-. exists s. by rewrite <- F.
Qed.

Lemma users_add_nonempty socketId s : users (users_add socketId s) <> ∅.
Proof. simpl. set_solver. Qed.

Lemma nne_alter_add m i socketId : no_new_empty m (alter (users_add socketId) i m).
Proof.
  intros sid (s' & L & E). rewrite lookup_alter in L.
  destruct (decide (i = sid)) as [->|]; [|by exists s'].
  destruct (m !! sid) as [s|] eqn:Ls; simpl in L; [|done].
  injection L as <-. by apply users_add_nonempty in E.
Qed.

(** The registry after each handler. *)

Lemma on_create_session_sessions env req socketId sid uid t1 t2 c st :
  sessions (on_create_session env req socketId sid uid t1 t2 c st).2
    = <[sid := mkSession ({[socketId]} ∪ ∅) t1 t2 2]> (sessions st).
Proof.
  unfold on_create_session. unfold_M. simpl.
  rewrite lookup_alter, decide_True, lookup_insert_eq by done. simpl.
  apply map_eq. intros i. rewrite !lookup_alter, !lookup_insert.
  destruct (decide (sid = i)) as [<-|]; [|done].
  by rewrite !decide_True by done.
Qed.

Lemma canJoinSession_sessions sid now st :
  sessions (canJoinSession sid now st).2 = sessions st \/
  sessions (canJoinSession sid now st).2 = delete sid (sessions st) /\
  (canJoinSession sid now st).1 = false.
Proof.
  unfold_M. destruct (sessions st !! sid) as [s|]; simpl; [|by left].
  destruct (expired now s); simpl; [by right|].
  destruct (maxUsers s <=? size (users s))%nat; by left.
Qed.

Lemma on_join_session_nne env req socketId sid uid t1 t2 c st :
  no_new_empty (sessions st)
    (sessions (on_join_session env req socketId sid uid t1 t2 c st).2).
Proof.
  unfold on_join_session.
  destruct (isValidSessionId sid); simpl; [|apply nne_refl].
  unfold bind at 1.
  destruct (canJoinSession sid t1 st) as [ok st1] eqn:J.
  assert (K : no_new_empty (sessions st) (sessions st1)).
  { destruct (canJoinSession_sessions sid t1 st) as [E|[E _]];
      rewrite J in E; simpl in E; rewrite E; [apply nne_refl | apply nne_delete]. }
  destruct ok; simpl; [|exact K].
  eapply nne_trans; [exact K|].
  rewrite !bind_run.
  unfold sessions_get, session_mutate, socket_join, socket_to_emit, ret.
  simpl. rewrite updateSessionActivity_sessions. simpl.
  eapply nne_trans; [apply nne_alter_add|]. by apply nne_alter_same_users.
Qed.

Lemma on_encrypted_message_nne socketId ed iv tag pk t1 t2 t3 c st :
  no_new_empty (sessions st)
    (sessions (on_encrypted_message socketId ed iv tag pk t1 t2 t3 c st).2).
Proof.
  unfold on_encrypted_message.
  destruct (truthy_id (currentSessionId c)) as [sid|]; [|apply nne_refl].
  unfold_M. destruct (sessions st !! sid) as [s|] eqn:L; simpl; [|apply nne_refl].
  destruct (expired t1 s); simpl; [apply nne_delete|]. rewrite L.
  case_bool_decide; simpl; [|apply nne_refl]. rewrite L. simpl.
  by apply nne_alter_same_users.
Qed.

Lemma on_disconnect_sessions socketId c st :
  sessions (on_disconnect socketId c st).2 =
  match truthy_id (currentSessionId c) with
  | Some sid =>
      match sessions st !! sid with
      | Some s =>
          if decide (users s ∖ {[socketId]} = ∅) then delete sid (sessions st)
          else <[sid := users_delete socketId s]> (sessions st)
      | None => sessions st
      end
  | None => sessions st
  end.
Proof.
  unfold on_disconnect.
  destruct (truthy_id (currentSessionId c)) as [sid|]; [|done].
  unfold_M. destruct (sessions st !! sid) as [s|] eqn:L; simpl; [|done].
  destruct (Nat.eqb_spec (size (users s ∖ {[socketId]})) 0) as [e|n]; simpl.
  - apply size_empty_inv in e. apply leibniz_equiv in e.
    rewrite decide_True by done.
    apply map_eq. intros i. rewrite !lookup_delete, lookup_alter.
    by destruct (decide (sid = i)).
  - rewrite decide_False by (intros e; rewrite e, size_empty in n; done).
    apply map_eq. intros i. rewrite lookup_alter, lookup_insert.
    destruct (decide (sid = i)) as [<-|]; [|done]. by rewrite L.
Qed.

Lemma on_disconnect_nne socketId c st :
  no_new_empty (sessions st) (sessions (on_disconnect socketId c st).2).
Proof.
  rewrite on_disconnect_sessions.
  destruct (truthy_id (currentSessionId c)) as [sid|]; [|apply nne_refl].
  destruct (sessions st !! sid) as [s|] eqn:L; [|apply nne_refl].
  case_decide; [apply nne_delete | by apply nne_insert].
Qed.

Lemma session_timer_nne sid now st :
  no_new_empty (sessions st) (sessions (session_timer sid now st).2).
Proof.
  unfold_M. simpl. case_bool_decide; simpl; [|apply nne_refl].
  destruct (sessions st !! sid) as [s|]; simpl; [|apply nne_refl].
  destruct (expired now s); simpl; [apply nne_delete | apply nne_refl].
Qed.

Lemma with_conn_nne {A} socketId (h : Request -> Closure -> M (Closure * A)) w :
  (forall req c st, no_new_empty (sessions st) (sessions (h req c st).2)) ->
  no_new_empty (sessions (server w)) (sessions (server (with_conn socketId h w))).
Proof.
  intros H. unfold with_conn.
  destruct (conns w !! socketId) as [[req c]|]; [|apply nne_refl].
  specialize (H req c (server w)).
  by destruct (h req c (server w)) as [[c' a] st'].
Qed.

Lemma step_nne env ev w :
  is_http ev = false ->
  no_new_empty (sessions (server w)) (sessions (server (step env ev w))).
Proof.
  intros N. destruct ev; try discriminate; simpl.
  - apply session_timer_nne.
  - by apply nne_filter.
  - destruct (conns w !! socketId); apply nne_refl.
  - apply with_conn_nne. intros req c st.
    rewrite on_create_session_sessions. apply nne_insert. set_solver.
  - apply with_conn_nne. intros req c st. apply on_join_session_nne.
  - apply with_conn_nne. intros req c st. unfold keep, bind, ret.
    unfold on_key_exchange.
    destruct (truthy_id (currentSessionId c)); apply nne_refl.
  - apply with_conn_nne. intros req c st. unfold keep, bind, ret.
    pose proof (on_encrypted_message_nne socketId encryptedData iv tag
                  publicKey t_check t_touch t_stamp c st) as H.
    by destruct (on_encrypted_message _ _ _ _ _ _ _ _ _ _).
  - apply with_conn_nne. intros req c st. unfold keep, bind, ret.
    unfold on_typing.
    destruct (truthy_id (currentSessionId c)); apply nne_refl.
  - destruct (conns w !! socketId) as [[req c]|]; [|apply nne_refl]. simpl.
    unfold bind, leave_all.
    apply (on_disconnect_nne socketId c
             (mkServer (sessions (server w)) _ (outbox (server w)))).
Qed.

Lemma run_nne env evs : forall w,
  forallb (fun ev => negb (is_http ev)) evs = true ->
  no_new_empty (sessions (server w)) (sessions (server (run env evs w))).
Proof.
  induction evs as [|ev evs IH]; intros w H; simpl in *; [apply nne_refl|].
  apply andb_true_iff in H as [H1 H2]. apply negb_true_iff in H1.
  eapply nne_trans; [by apply step_nne | by apply IH].
Qed.

(** C4 fails on the code: GET /chat/new leaves in the registry a session
    without participants. *)
Lemma chat_new_session_is_empty : ~ no_session_is_empty.
Proof.
  intros H. apply (H an_env [HttpChatNew an_id 0] an_id).
  exists (mkSession ∅ 0 0 2). split; vm_compute; reflexivity.
Qed.

(** ** Capacity *)

Lemma ck_delete m i : capacity_kept m -> capacity_kept (delete i m).
Proof. intros H sid s L. apply lookup_delete_Some in L as [_ L]. eauto. Qed.

Lemma ck_filter (P : string * Session -> Prop) `{!forall x, Decision (P x)} m :
  capacity_kept m -> capacity_kept (filter P m).
Proof. intros K sid s L. apply map_lookup_filter_Some in L as [L _]. eauto. Qed.

Lemma ck_insert m i s :
  maxUsers s = 2%nat -> (size (users s) <= 2)%nat ->
  capacity_kept m -> capacity_kept (<[i := s]> m).
Proof.
  intros A B H sid s' L.
  apply lookup_insert_Some in L as [[_ <-]|[_ L]]; eauto.
Qed.

Lemma ck_alter m i f :
  (forall s, maxUsers (f s) = maxUsers s /\
             (size (users (f s)) <= size (users s))%nat) ->
  capacity_kept m -> capacity_kept (alter f i m).
Proof.
  intros F H sid s' L. rewrite lookup_alter in L.
  destruct (decide (i = sid)) as [->|]; [|eauto].
  destruct (m !! sid) as [s|] eqn:Ls; simpl in L; [|done].
  injection L as <-. destruct (F s) as [-> B]. destruct (H sid s Ls). lia.
Qed.

Lemma size_add (socketId : string) (X : gset string) :
  (size ({[socketId]} ∪ X) <= 1 + size X)%nat.
Proof.
  rewrite size_union_alt, size_singleton.
  assert (size (X ∖ {[socketId]}) <= size X)%nat; [|lia].
  apply subseteq_size, subseteq_difference_l. done.
Qed.

Lemma on_join_session_sessions env req socketId sid uid t1 t2 c st :
  sessions (on_join_session env req socketId sid uid t1 t2 c st).2 =
  if isValidSessionId sid then
    match sessions st !! sid with
    | None => sessions st
    | Some s =>
        if expired t1 s then delete sid (sessions st)
        else if (maxUsers s <=? size (users s))%nat then sessions st
        else <[sid := mkSession ({[socketId]} ∪ users s) (createdAt s) t2
                                (maxUsers s)]> (sessions st)
    end
  else sessions st.
Proof.
  unfold on_join_session.
  destruct (isValidSessionId sid); simpl; [|done].
  unfold_M. destruct (sessions st !! sid) as [s|] eqn:L; simpl; [|done].
  destruct (expired t1 s); simpl; [done|].
  destruct (maxUsers s <=? size (users s))%nat; simpl; [done|].
  rewrite L. simpl. rewrite lookup_alter, decide_True by done. rewrite L. simpl.
  apply map_eq. intros i. rewrite !lookup_alter, lookup_insert.
  destruct (decide (sid = i)) as [<-|]; [|done].
  rewrite decide_True by done. by rewrite L.
Qed.

Lemma on_join_session_ck env req socketId sid uid t1 t2 c st :
  capacity_kept (sessions st) ->
  capacity_kept (sessions (on_join_session env req socketId sid uid t1 t2 c st).2).
Proof.
  intros H. rewrite on_join_session_sessions.
  destruct (isValidSessionId sid); [|done].
  destruct (sessions st !! sid) as [s|] eqn:L; [|done].
  destruct (expired t1 s); [by apply ck_delete|].
  destruct (Nat.leb_spec (maxUsers s) (size (users s))); [done|].
  destruct (H sid s L) as [Hm _].
  apply ck_insert; simpl; [done| |done].
  pose proof (size_add socketId (users s)). lia.
Qed.

Lemma on_encrypted_message_ck socketId ed iv tag pk t1 t2 t3 c st :
  capacity_kept (sessions st) ->
  capacity_kept (sessions (on_encrypted_message socketId ed iv tag pk t1 t2 t3 c st).2).
Proof.
  intros H. unfold on_encrypted_message.
  destruct (truthy_id (currentSessionId c)) as [sid|]; [|done].
  unfold_M. destruct (sessions st !! sid) as [s|] eqn:L; simpl; [|done].
  destruct (expired t1 s); simpl; [by apply ck_delete|]. rewrite L.
  case_bool_decide; simpl; [|done]. rewrite L. simpl.
  by apply ck_alter.
Qed.

Lemma on_disconnect_ck socketId c st :
  capacity_kept (sessions st) ->
  capacity_kept (sessions (on_disconnect socketId c st).2).
Proof.
  intros H. rewrite on_disconnect_sessions.
  destruct (truthy_id (currentSessionId c)) as [sid|]; [|done].
  destruct (sessions st !! sid) as [s|] eqn:L; [|done].
  destruct (H sid s L) as [Hm Hs].
  case_decide; [by apply ck_delete|].
  apply ck_insert; simpl; [done| |done].
  assert (size (users s ∖ {[socketId]}) <= size (users s))%nat; [|lia].
  apply subseteq_size, subseteq_difference_l. done.
Qed.

Lemma session_timer_ck sid now st :
  capacity_kept (sessions st) ->
  capacity_kept (sessions (session_timer sid now st).2).
Proof.
  intros H. unfold_M. simpl. case_bool_decide; simpl; [|done].
  destruct (sessions st !! sid) as [s|]; simpl; [|done].
  destruct (expired now s); simpl; [by apply ck_delete | done].
Qed.

Lemma with_conn_ck {A} socketId (h : Request -> Closure -> M (Closure * A)) w :
  (forall req c st, capacity_kept (sessions st) ->
                    capacity_kept (sessions (h req c st).2)) ->
  capacity_kept (sessions (server w)) ->
  capacity_kept (sessions (server (with_conn socketId h w))).
Proof.
  intros H K. unfold with_conn.
  destruct (conns w !! socketId) as [[req c]|]; [|done].
  specialize (H req c (server w) K).
  by destruct (h req c (server w)) as [[c' a] st'].
Qed.

Lemma step_ck env ev w :
  capacity_kept (sessions (server w)) ->
  capacity_kept (sessions (server (step env ev w))).
Proof.
  intros K. destruct ev; simpl.
  - apply ck_insert; [done| |done]. cbn [users]. rewrite size_empty. lia.
  - by apply session_timer_ck.
  - by apply ck_filter.
  - by destruct (conns w !! socketId).
  - apply with_conn_ck; [|done]. intros req c st H.
    rewrite on_create_session_sessions. apply ck_insert; [done| |done].
    cbn [users]. pose proof (size_add socketId ∅) as S.
    rewrite size_empty in S. lia.
  - apply with_conn_ck; [|done]. intros req c st. apply on_join_session_ck.
  - apply with_conn_ck; [|done]. intros req c st H. unfold keep, bind, ret.
    unfold on_key_exchange. by destruct (truthy_id (currentSessionId c)).
  - apply with_conn_ck; [|done]. intros req c st H. unfold keep, bind, ret.
    pose proof (on_encrypted_message_ck socketId encryptedData iv tag
                  publicKey t_check t_touch t_stamp c st H) as H'.
    by destruct (on_encrypted_message _ _ _ _ _ _ _ _ _ _).
  - apply with_conn_ck; [|done]. intros req c st H. unfold keep, bind, ret.
    unfold on_typing. by destruct (truthy_id (currentSessionId c)).
  - destruct (conns w !! socketId) as [[req c]|]; [|done]. simpl.
    unfold bind, leave_all.
    by apply (on_disconnect_ck socketId c
                (mkServer (sessions (server w)) _ (outbox (server w)))).
Qed.

(** In every state that the server reaches, a session has capacity 2 and
    at most 2 participants. *)
Lemma run_ck env evs : forall w,
  capacity_kept (sessions (server w)) ->
  capacity_kept (sessions (server (run env evs w))).
Proof.
  induction evs as [|ev evs IH]; intros w K; simpl; [done|].
  by apply IH, step_ck.
Qed.

Lemma reachable_capacity env evs :
  capacity_kept (sessions (server (run env evs initial))).
Proof. apply run_ck. intros sid s L. simpl in L. by rewrite lookup_empty in L. Qed.

(** C2.  The 'join-session' handler, in any state that the server reaches
    and for an id of the right shape.  An id that is not in the registry
    is refused and nothing changes (NotFound); a session whose age has
    reached the horizon is refused and deleted (Expired); a session that
    has 2 participants is refused and nothing changes (Full); the three
    refusals carry the same text.  Otherwise the socket is added to the
    users, lastActivity becomes the time of the touch, the closure points
    to the session, the others in the room are told, and isInitiator is
    true exactly when the users are then 1. *)
Theorem on_join_session_spec (env : Env) (evs : list Event) (req : Request)
    (socketId sessionId newUserId : string) (t_check t_touch : Z)
    (c : Closure) :
  isValidSessionId sessionId = true ->
  let st := server (run env evs initial) in
  let r := on_join_session env req socketId sessionId newUserId
             t_check t_touch c st in
  match sessions st !! sessionId with
  | None => r = (c, not_available, st)
  | Some s =>
      if decide (expiryHorizon <= t_check - createdAt s) then
        r = (c, not_available,
             mkServer (delete sessionId (sessions st)) (rooms st) (outbox st))
      else if decide (2 <= size (users s))%nat then
        r = (c, not_available, st)
      else
        let s' := mkSession ({[socketId]} ∪ users s) (createdAt s) t_touch
                            (maxUsers s) in
        let isInitiator := bool_decide (size (users s') = 1%nat) in
        r.1.1 = mkClosure (Some sessionId) (Some newUserId) /\
        r.1.2 = JoinSuccess newUserId isInitiator
                  (if isInitiator then Some (shareLink env req sessionId)
                   else None) /\
        sessions r.2 = <[sessionId := s']> (sessions st) /\
        rooms r.2 = <[sessionId := {[socketId]} ∪ room_members st sessionId]>
                      (rooms st) /\
        outbox r.2 =
          (outbox st ++
           [mkDelivery (({[socketId]} ∪ room_members st sessionId) ∖ {[socketId]})
                       (UserJoined (Some newUserId))])%list
  end.
Proof.
  intros Hid st. apply on_join_session_cases; [done|].
  intros s L. by destruct (reachable_capacity env evs sessionId s L).
Qed.

Lemma on_join_session_spec_witness :
  isValidSessionId an_id = true /\
  (on_join_session an_env a_request "a" an_id "ua" 1000 1000
     (mkClosure None None)
     (server (run an_env [HttpChatNew an_id 0] initial))).1.2
  = JoinSuccess "ua" true (Some (shareLink an_env a_request an_id)).
Proof.
  split; [reflexivity|].
  pose proof (on_join_session_spec an_env [HttpChatNew an_id 0] a_request
                "a" an_id "ua" 1000 1000 (mkClosure None None) eq_refl) as H.
  cbv zeta in H.
  assert (L : sessions (server (run an_env [HttpChatNew an_id 0] initial)) !! an_id
              = Some (mkSession ∅ 0 0 2)) by (vm_compute; reflexivity).
  rewrite L in H. cbn [createdAt users maxUsers] in H.
  rewrite decide_False in H by (unfold expiryHorizon, SESSION_EXPIRY_HOURS; lia).
  rewrite decide_False in H by (rewrite size_empty; lia).
  destruct H as (_ & H & _). rewrite H.
  assert (B : bool_decide (size ({["a"]} ∪ (∅ : gset string)) = 1%nat) = true).
  { vm_compute. reflexivity. }
  by rewrite B.
Defined.

(** ** Rooms and participants *)

Lemma room_members_eq st st' sid :
  rooms st' = rooms st -> room_members st' sid = room_members st sid.
Proof. unfold room_members. by intros ->. Qed.

Lemma rw_same_rooms st st' :
  rooms st' = rooms st ->
  (forall sid s', sessions st' !! sid = Some s' ->
     exists s, sessions st !! sid = Some s /\ users s ⊆ users s') ->
  rooms_within_users st -> rooms_within_users st'.
Proof.
  intros R S H sid s' L. destruct (S sid s' L) as (s & Ls & U).
  rewrite (room_members_eq st st' sid R). specialize (H sid s Ls). set_solver.
Qed.

Lemma rw_delete st i :
  rooms_within_users st ->
  rooms_within_users (mkServer (delete i (sessions st)) (rooms st) (outbox st)).
Proof.
  apply rw_same_rooms; [done|]. intros sid s' L. simpl in L.
  apply lookup_delete_Some in L as [_ L]. by exists s'.
Qed.

Lemma isSessionValidForMessaging_cases sid now st :
  (isSessionValidForMessaging sid now st).2 = st \/
  (isSessionValidForMessaging sid now st).2
    = mkServer (delete sid (sessions st)) (rooms st) (outbox st).
Proof.
  unfold_M. destruct (sessions st !! sid) as [s|]; simpl; [|by left].
  destruct (expired now s); simpl; [by right | by left].
Qed.

Lemma on_create_session_rooms env req socketId sid uid t1 t2 c st :
  rooms (on_create_session env req socketId sid uid t1 t2 c st).2
    = <[sid := {[socketId]} ∪ room_members st sid]> (rooms st).
Proof.
  unfold on_create_session. rewrite !bind_run.
  unfold createSession, ret. rewrite !bind_run.
  unfold ret. cbn [fst snd].
  by destruct (updateSessionActivity_rest sid t2
    (socket_join socketId sid
       (session_mutate sid (users_add socketId)
          (sessions_set sid (mkSession ∅ t1 t1 2) st).2).2).2) as [-> _].
Qed.

Lemma on_join_session_rooms env req socketId sid uid t1 t2 c st :
  rooms (on_join_session env req socketId sid uid t1 t2 c st).2 =
  if isValidSessionId sid && (canJoinSession sid t1 st).1
  then <[sid := {[socketId]} ∪ room_members st sid]> (rooms st)
  else rooms st.
Proof.
  unfold on_join_session.
  destruct (isValidSessionId sid); simpl; [|done].
  unfold_M. destruct (sessions st !! sid) as [s|] eqn:L; simpl; [|done].
  destruct (expired t1 s); simpl; [done|].
  destruct (maxUsers s <=? size (users s))%nat; simpl; [done|].
  rewrite L. simpl. rewrite lookup_alter, decide_True by done. by rewrite L.
Qed.

Lemma room_insert_lookup st sid X i :
  default ∅ (<[sid := X]> (rooms st) !! i)
    = if decide (sid = i) then X else room_members st i.
Proof.
  rewrite lookup_insert. by destruct (decide (sid = i)).
Qed.

Lemma step_rw env ev w :
  fresh_id ev w ->
  rooms_within_users (server w) ->
  rooms_within_users (server (step env ev w)).
Proof.
  intros F H. destruct ev; simpl in *.
  - destruct F as [Fr _]. intros sid s L.
    unfold get_chat_new, createSession, bind, sessions_set, ret in *.
    simpl in *. unfold room_members. simpl.
    apply lookup_insert_Some in L as [[<- <-]|[N L]].
    + by rewrite Fr.
    + by apply H.
  - intros sid s L.
    assert (R : rooms (session_timer sessionId now (server w)).2 = rooms (server w)).
    { unfold_M. simpl. case_bool_decide; simpl; [|done].
      destruct (sessions (server w) !! sessionId) as [s0|]; simpl; [|done].
      by destruct (expired now s0). }
    rewrite (room_members_eq _ _ sid R). apply H.
    revert L. unfold_M. simpl. case_bool_decide; simpl; [|done].
    destruct (sessions (server w) !! sessionId) as [s0|]; simpl; [|done].
    destruct (expired now s0); simpl; [|done].
    intros L. by apply lookup_delete_Some in L as [_ L].
  - intros sid s L. simpl in L. apply map_lookup_filter_Some in L as [L _].
    by apply H.
  - by destruct (conns w !! socketId).
  - destruct F as [Fr _]. unfold with_conn.
    destruct (conns w !! socketId) as [[req c]|]; [|done].
    destruct (on_create_session env req socketId newSessionId newUserId
                t_create t_touch c (server w)) as [[c' a] st'] eqn:E.
    pose proof (on_create_session_sessions env req socketId newSessionId
                  newUserId t_create t_touch c (server w)) as S.
    pose proof (on_create_session_rooms env req socketId newSessionId
                  newUserId t_create t_touch c (server w)) as R.
    rewrite E in S, R. simpl in *. intros sid s L. rewrite S in L.
    unfold room_members. rewrite R, room_insert_lookup.
    apply lookup_insert_Some in L as [[<- <-]|[N L]].
    + rewrite decide_True by done. unfold room_members. rewrite Fr. simpl.
      set_solver.
    + rewrite decide_False by done. by apply H.
  - unfold with_conn.
    destruct (conns w !! socketId) as [[req c]|]; [|done].
    destruct (on_join_session env req socketId sessionId newUserId
                t_check t_touch c (server w)) as [[c' a] st'] eqn:E.
    pose proof (on_join_session_sessions env req socketId sessionId
                  newUserId t_check t_touch c (server w)) as S.
    pose proof (on_join_session_rooms env req socketId sessionId
                  newUserId t_check t_touch c (server w)) as R.
    rewrite E in S, R. simpl in *. intros sid s L. rewrite S in L.
    unfold room_members. rewrite R. clear S R E.
    unfold canJoinSession, bind, sessions_get, sessions_delete, ret in *.
    destruct (isValidSessionId sessionId); simpl in *; [|by apply H].
    destruct (sessions (server w) !! sessionId) as [s0|] eqn:L0; simpl in *;
      [|by apply H].
    destruct (expired t_check s0); simpl in *.
    { apply lookup_delete_Some in L as [_ L]. by apply H. }
    destruct (maxUsers s0 <=? size (users s0))%nat; simpl in *; [by apply H|].
    rewrite room_insert_lookup.
    apply lookup_insert_Some in L as [[<- <-]|[N L]].
    + rewrite decide_True by done. simpl. specialize (H sessionId s0 L0).
      set_solver.
    + rewrite decide_False by done. by apply H.
  - unfold with_conn.
    destruct (conns w !! socketId) as [[req c]|]; [|done].
    unfold keep, bind, ret, on_key_exchange.
    destruct (truthy_id (currentSessionId c)); simpl; [|done].
    by apply (rw_same_rooms (server w)); [| intros sid s' L; exists s' |].
  - unfold with_conn.
    destruct (conns w !! socketId) as [[req c]|]; [|done].
    unfold keep. rewrite bind_run. unfold ret. cbn [fst snd].
    unfold on_encrypted_message.
    destruct (truthy_id (currentSessionId c)) as [sid0|].
    2:{ by apply (rw_same_rooms (server w)); [| intros sid s' L; exists s' |]. }
    rewrite bind_run.
    assert (V : rooms_within_users
                  (isSessionValidForMessaging sid0 t_check (server w)).2).
    { destruct (isSessionValidForMessaging_cases sid0 t_check (server w))
        as [-> | ->]; [done | by apply rw_delete]. }
    destruct (isSessionValidForMessaging sid0 t_check (server w)) as [ok st1].
    cbn [fst snd] in *. destruct ok; simpl.
    2:{ by apply (rw_same_rooms st1); [| intros sid s' L; exists s' |]. }
    unfold sessions_get, bind.
    destruct (sessions st1 !! sid0) as [s1|] eqn:L1.
    2:{ by apply (rw_same_rooms st1); [| intros sid s' L; exists s' |]. }
    case_bool_decide.
    2:{ by apply (rw_same_rooms st1); [| intros sid s' L; exists s' |]. }
    unfold updateSessionActivity, bind, sessions_get, session_mutate,
      socket_to_emit. rewrite L1. simpl.
    apply (rw_same_rooms st1); [done| |done].
    intros sid s' L. simpl in L. rewrite lookup_alter in L.
    destruct (decide (sid0 = sid)) as [<-|]; [|by exists s'].
    rewrite L1 in L. injection L as <-. by exists s1.
  - unfold with_conn.
    destruct (conns w !! socketId) as [[req c]|]; [|done].
    unfold keep, bind, ret, on_typing.
    destruct (truthy_id (currentSessionId c)); simpl; [|done].
    by apply (rw_same_rooms (server w)); [| intros sid s' L; exists s' |].
  - destruct (conns w !! socketId) as [[req c]|]; [|done]. simpl.
    rewrite bind_run. cbn [fst snd].
    set (st0 := (leave_all socketId (server w)).2).
    assert (H0 : forall sid s, sessions st0 !! sid = Some s ->
                   room_members st0 sid ⊆ users s ∖ {[socketId]}).
    { intros sid s L. specialize (H sid s L).
      unfold st0, leave_all, room_members in *. simpl. rewrite lookup_fmap.
      destruct (rooms (server w) !! sid); simpl in *; set_solver. }
    pose proof (on_disconnect_sessions socketId c st0) as S.
    assert (R : rooms (on_disconnect socketId c st0).2 = rooms st0).
    { unfold on_disconnect.
      destruct (truthy_id (currentSessionId c)); [|done].
      unfold_M. destruct (sessions st0 !! s); simpl; [|done].
      by destruct (size (users s0 ∖ {[socketId]}) =? 0)%nat. }
    intros sid s L. rewrite (room_members_eq _ _ sid R). rewrite S in L.
    destruct (truthy_id (currentSessionId c)) as [sid0|];
      [|specialize (H0 sid s L); set_solver].
    destruct (sessions st0 !! sid0) as [s0|] eqn:L0;
      [|specialize (H0 sid s L); set_solver].
    case_decide.
    + apply lookup_delete_Some in L as [_ L]. specialize (H0 sid s L). set_solver.
    + apply lookup_insert_Some in L as [[<- <-]|[N L]].
      * simpl. by apply H0.
      * specialize (H0 sid s L). set_solver.
Qed.

(** While every id that generateSessionId returns is new, the sockets of
    the room of a session are among its participants: a packet sent to the
    room with socket.to reaches participants other than the sender only. *)
Lemma rooms_hold_participants env evs : forall w,
  fresh_ids env evs w ->
  rooms_within_users (server w) ->
  rooms_within_users (server (run env evs w)).
Proof.
  induction evs as [|ev evs IH]; intros w F H; simpl in *; [done|].
  destruct F as [F1 F2]. apply IH; [done|]. by apply step_rw.
Qed.

Example envelope_reaches_the_peer :
  fresh_ids an_env a_conversation initial /\
  outbox (server (run an_env a_conversation initial)) =
    [mkDelivery {["a"]} (UserJoined (Some "ub"));
     mkDelivery {["b"]}
       (EncryptedMessage (VStr "c") (VStr "n") (VStr "t") 2000);
     mkDelivery {["a"]} (UserLeft (Some "ub"))].
Proof. split; [vm_compute; repeat split | vm_compute; reflexivity]. Qed.

Lemma cleanup_interval_lookup now st sid :
  sessions (cleanup_interval now st).2 !! sid =
  match sessions st !! sid with
  | Some s => if expired now s then None else Some s
  | None => None
  end.
Proof.
  unfold cleanup_interval. simpl.
  destruct (sessions st !! sid) as [s|] eqn:L.
  - destruct (expired now s) eqn:E.
    + apply map_lookup_filter_None. right. intros x Lx. simpl.
      rewrite L in Lx. injection Lx as <-. by rewrite E.
    + by apply map_lookup_filter_Some.
  - apply map_lookup_filter_None. by left.
Qed.

Lemma on_join_session_closure env req socketId sid uid t1 t2 c st :
  (on_join_session env req socketId sid uid t1 t2 c st).1.1 =
  if isValidSessionId sid && (canJoinSession sid t1 st).1
  then mkClosure (Some sid) (Some uid) else c.
Proof.
  unfold on_join_session.
  destruct (isValidSessionId sid); simpl; [|done].
  unfold_M. destruct (sessions st !! sid) as [s|] eqn:L; simpl; [|done].
  destruct (expired t1 s); simpl; [done|].
  destruct (maxUsers s <=? size (users s))%nat; simpl; [done|].
  rewrite L. simpl. rewrite lookup_alter, decide_True by done. by rewrite L.
Qed.

(** ** Sessions without participants *)

Lemma on_encrypted_message_other socketId ed iv tag pk t1 t2 t3 c st sid :
  truthy_id (currentSessionId c) <> Some sid ->
  sessions (on_encrypted_message socketId ed iv tag pk t1 t2 t3 c st).2 !! sid
  = sessions st !! sid.
Proof.
  intros N. unfold on_encrypted_message.
  destruct (truthy_id (currentSessionId c)) as [sid0|]; [|done].
  assert (sid0 <> sid) by congruence.
  unfold_M. destruct (sessions st !! sid0) as [s|] eqn:L; simpl; [|done].
  destruct (expired t1 s); simpl; [by apply lookup_delete_ne|]. rewrite L.
  case_bool_decide; simpl; [|done]. rewrite L. simpl.
  by apply lookup_alter_ne.
Qed.

Lemma truthy_id_holds c sid :
  currentSessionId c <> Some sid -> truthy_id (currentSessionId c) <> Some sid.
Proof.
  intros N T. apply N. unfold truthy_id in T.
  destruct (currentSessionId c) as [x|]; [|done].
  by destruct (String.eqb x "").
Qed.

Lemma with_conn_stays {A} socketId (h : Request -> Closure -> M (Closure * A))
    w sid s0 :
  no_connection_holds sid w ->
  sessions (server w) !! sid = Some s0 ->
  (forall req c st,
     currentSessionId c <> Some sid -> sessions st !! sid = Some s0 ->
     currentSessionId (h req c st).1.1 <> Some sid /\
     sessions (h req c st).2 !! sid = Some s0) ->
  no_connection_holds sid (with_conn socketId h w) /\
  sessions (server (with_conn socketId h w)) !! sid = Some s0.
Proof.
  intros NC L H. unfold with_conn.
  destruct (conns w !! socketId) as [[req c]|] eqn:Lc; [|done].
  destruct (H req c (server w) (NC _ _ _ Lc) L) as [H1 H2].
  destruct (h req c (server w)) as [[c' a] st']. simpl in *.
  split; [|exact H2].
  intros i req' c'' Li. simpl in Li.
  rewrite lookup_insert in Li. case_decide.
  - by injection Li as <- <-.
  - by apply (NC i req' c'').
Qed.

Lemma step_stays env ev w sid s0 :
  leaves_alone sid (createdAt s0) ev ->
  no_connection_holds sid w ->
  sessions (server w) !! sid = Some s0 ->
  no_connection_holds sid (step env ev w) /\
  sessions (server (step env ev w)) !! sid = Some s0.
Proof.
  intros LA NC L. destruct ev; simpl in *.
  - split; [exact NC|]. by rewrite lookup_insert_ne.
  - split; [exact NC|].
    unfold session_timer, bind, sessions_has, sessions_get, sessions_delete, ret.
    simpl. case_bool_decide; simpl; [|done].
    destruct (sessions (server w) !! sessionId) as [s1|] eqn:L1; simpl; [|done].
    destruct (expired now s1) eqn:X; simpl; [|done].
    rewrite lookup_delete_ne; [done|]. intros ->.
    rewrite L in L1. injection L1 as <-.
    apply expired_true in X. specialize (LA eq_refl). lia.
  - split; [exact NC|]. apply map_lookup_filter_Some. split; [exact L|].
    simpl. by apply expired_false.
  - destruct (conns w !! socketId) eqn:Lc; [done|]. simpl. split; [|done].
    intros i req' c' Li. simpl in Li. rewrite lookup_insert in Li.
    case_decide; [by injection Li as <- <- | by apply (NC i req' c')].
  - apply with_conn_stays; [done|done|]. intros req c st N Ls. split.
    + unfold on_create_session. unfold_M. simpl.
      rewrite lookup_alter, decide_True, lookup_insert_eq by done. simpl.
      congruence.
    + rewrite on_create_session_sessions. by rewrite lookup_insert_ne.
  - apply with_conn_stays; [done|done|]. intros req c st N Ls. split.
    + rewrite on_join_session_closure.
      destruct (isValidSessionId sessionId && _); [simpl; congruence | done].
    + rewrite on_join_session_sessions.
      destruct (isValidSessionId sessionId); [|done].
      destruct (sessions st !! sessionId) as [s1|]; [|done].
      destruct (expired t_check s1); [by rewrite lookup_delete_ne|].
      destruct (maxUsers s1 <=? size (users s1))%nat; [done|].
      by rewrite lookup_insert_ne.
  - apply with_conn_stays; [done|done|]. intros req c st N Ls.
    unfold keep, bind, ret, on_key_exchange.
    by destruct (truthy_id (currentSessionId c)).
  - apply with_conn_stays; [done|done|]. intros req c st N Ls.
    unfold keep. rewrite bind_run. unfold ret. cbn [fst snd]. split; [done|].
    rewrite on_encrypted_message_other; [done | by apply truthy_id_holds].
  - apply with_conn_stays; [done|done|]. intros req c st N Ls.
    unfold keep, bind, ret, on_typing.
    by destruct (truthy_id (currentSessionId c)).
  - destruct (conns w !! socketId) as [[req c]|] eqn:Lc; [|done]. simpl. split.
    + intros i req' c' Li. simpl in Li.
      apply lookup_delete_Some in Li as [_ Li]. by apply (NC i req' c').
    + rewrite bind_run. cbn [fst snd]. rewrite on_disconnect_sessions.
      unfold leave_all. simpl.
      pose proof (truthy_id_holds c sid (NC _ _ _ Lc)) as T.
      destruct (truthy_id (currentSessionId c)) as [sid0|]; [|done].
      assert (sid0 <> sid) by congruence.
      destruct (sessions (server w) !! sid0) as [s1|]; [|done].
      case_decide; [by rewrite lookup_delete_ne | by rewrite lookup_insert_ne].
Qed.

Lemma run_stays env evs sid s0 : forall w,
  Forall (leaves_alone sid (createdAt s0)) evs ->
  no_connection_holds sid w ->
  sessions (server w) !! sid = Some s0 ->
  sessions (server (run env evs w)) !! sid = Some s0.
Proof.
  induction evs as [|ev evs IH]; intros w F NC L; [done|].
  apply Forall_cons_1 in F as [F1 F2]. simpl.
  destruct (step_stays env ev w sid s0 F1 NC L) as [NC' L'].
  by apply IH.
Qed.

(** C4, as the code has it.  When the socket that disconnects is the last
    of the users of its session, the 'disconnect' handler deletes the
    session.  No event of a socket and no timer adds to the registry a
    session without participants: after any run of such events the
    sessions without participants are among those there were before, and
    from the initial state there is none.  The session that GET /chat/new
    makes has no participants and stays in the registry as it was made:
    in a state where no connection holds its id, after the request and
    then any run of events in which no connection joins the id, nothing
    creates it again and no timer fires when it has reached the horizon,
    the registry holds it still, with no users and the times of its
    creation. *)
Theorem empty_sessions_only_from_http (env : Env) (evs : list Event) :
  forallb (fun ev => negb (is_http ev)) evs = true ->
  (forall socketId c st sid s,
     truthy_id (currentSessionId c) = Some sid ->
     sessions st !! sid = Some s ->
     users s ∖ {[socketId]} = ∅ ->
     sessions (on_disconnect socketId c st).2 = delete sid (sessions st)) /\
  (forall w sid,
     zero_participants (sessions (server (run env evs w))) sid ->
     zero_participants (sessions (server w)) sid) /\
  (forall sid,
     ~ zero_participants (sessions (server (run env evs initial))) sid) /\
  (forall w sid now later,
     no_connection_holds sid w ->
     Forall (leaves_alone sid now) later ->
     sessions (server (run env later (step env (HttpChatNew sid now) w))) !! sid
     = Some (mkSession ∅ now now 2)).
Proof.
  intros H. split; [|split; [|split]].
  - intros socketId c st sid s T L E.
    rewrite on_disconnect_sessions, T, L. by rewrite decide_True.
  - intros w sid. by apply run_nne.
  - intros sid Z. apply (run_nne env evs initial H) in Z.
    destruct Z as (s & L & _). simpl in L. by rewrite lookup_empty in L.
  - intros w sid now later NC F.
    apply (run_stays env later sid (mkSession ∅ now now 2)); [exact F|exact NC|].
    simpl. apply lookup_insert_eq.
Qed.

Lemma empty_sessions_only_from_http_witness :
  forallb (fun ev => negb (is_http ev)) a_conversation = true /\
  (forall sid,
     ~ zero_participants
         (sessions (server (run an_env a_conversation initial))) sid) /\
  sessions (server (run an_env a_quiet_run
                      (step an_env (HttpChatNew an_id 0) initial))) !! an_id
  = Some (mkSession ∅ 0 0 2).
Proof.
  split; [reflexivity|].
  destruct (empty_sessions_only_from_http an_env a_conversation eq_refl)
    as (_ & _ & H3 & H4).
  split; [exact H3|].
  apply (H4 initial an_id 0 a_quiet_run).
  - intros i req c L. simpl in L. by rewrite lookup_empty in L.
  - unfold a_quiet_run, another_id, an_id.
    repeat constructor; simpl;
      try discriminate; unfold expiryHorizon, SESSION_EXPIRY_HOURS; lia.
Defined.

End RelayFacts.

(* ===================================================================== *)
(** * Part IV.  Properties of the encryption engine                       *)
(* ===================================================================== *)

Module EngineFacts.
Import Engine.

Local Open Scope N_scope.
Local Open Scope list_scope.

(** Linear arithmetic with division and remainder by constants. *)
Ltac nlia := zify; Z.to_euclidean_division_equations; lia.

(** ** Bytes *)

Lemma to_N_byte_of_N n : n < 256 -> Byte.to_N (byte_of_N n) = n.
Proof.
  intros H. unfold byte_of_N. rewrite N.mod_small by done.
  destruct (Byte.of_N n) as [b|] eqn:E.
  - by apply Byte.to_of_N.
  - apply Byte.of_N_None_iff in E. lia.
Qed.

Lemma map_to_N_byte_of_N l :
  Forall (fun n => n < 256) l -> map Byte.to_N (map byte_of_N l) = l.
Proof.
  induction 1 as [|n l H _ IH]; simpl; [done|].
  by rewrite to_N_byte_of_N, IH.
Qed.

Lemma list_ind3 {A} (P : list A -> Prop) :
  P [] -> (forall a, P [a]) -> (forall a b, P [a; b]) ->
  (forall a b c l, P l -> P (a :: b :: c :: l)) ->
  forall l, P l.
Proof.
  intros H0 H1 H2 H3. fix IH 1.
  intros [|a [|b [|c l]]];
    [exact H0 | apply H1 | apply H2 | apply H3, IH].
Qed.

(** ** base64 *)

Lemma b64_index_char n : n < 64 -> b64_index (b64_char n) = Some n.
Proof.
  intros H. unfold b64_char.
  destruct (N.ltb_spec n 26); [|destruct (N.ltb_spec n 52);
    [|destruct (N.ltb_spec n 62); [|destruct (N.eqb_spec n 62)]]].
  - unfold b64_index. rewrite N_ascii_embedding by lia.
    destruct (N.leb_spec 65 (65 + n)); [|lia].
    destruct (N.leb_spec (65 + n) 90); [|lia]. simpl. f_equal. lia.
  - unfold b64_index. rewrite N_ascii_embedding by lia.
    destruct (N.leb_spec 65 (97 + (n - 26))); [|lia].
    destruct (N.leb_spec (97 + (n - 26)) 90); [lia|].
    destruct (N.leb_spec 97 (97 + (n - 26))); [|lia].
    destruct (N.leb_spec (97 + (n - 26)) 122); [|lia]. simpl. f_equal. lia.
  - unfold b64_index. rewrite N_ascii_embedding by lia.
    destruct (N.leb_spec 65 (48 + (n - 52))); [lia|].
    destruct (N.leb_spec 97 (48 + (n - 52))); [lia|].
    destruct (N.leb_spec 48 (48 + (n - 52))); [|lia].
    destruct (N.leb_spec (48 + (n - 52)) 57); [|lia]. simpl. f_equal. lia.
  - by subst.
  - assert (n = 63) as -> by lia. done.
Qed.

Lemma b64_char_plain n :
  n < 64 ->
  is_ascii_whitespace (b64_char n) = false /\ Ascii.eqb (b64_char n) "=" = false.
Proof.
  intros H. pose proof (b64_index_char n H) as I.
  split.
  - destruct (is_ascii_whitespace (b64_char n)) eqn:W; [|done].
    unfold is_ascii_whitespace in W. unfold b64_index in I.
    repeat (apply orb_true_iff in W as [W|W]);
      apply N.eqb_eq in W; rewrite W in I; simpl in I; discriminate.
  - destruct (Ascii.eqb_spec (b64_char n) "="); [|done].
    rewrite e in I. discriminate.
Qed.

Lemma b64_indices_chars l :
  Forall (fun n => n < 64) l -> b64_indices (map b64_char l) = Some l.
Proof.
  induction 1 as [|n l H _ IH]; simpl; [done|].
  by rewrite b64_index_char, IH.
Qed.

Lemma b64_sextets_bound l :
  Forall (fun n => n < 256) l -> Forall (fun n => n < 64) (b64_sextets l).
Proof.
  induction l as [|a|a b|a b c l IH] using list_ind3; intros H; simpl.
  - constructor.
  - apply Forall_cons_1 in H as [Ha _].
    repeat constructor; nlia.
  - apply Forall_cons_1 in H as [Ha H]. apply Forall_cons_1 in H as [Hb _].
    repeat constructor; nlia.
  - apply Forall_cons_1 in H as [Ha H]. apply Forall_cons_1 in H as [Hb H].
    apply Forall_cons_1 in H as [Hc H].
    repeat (constructor; [nlia|]). by apply IH.
Qed.

Lemma b64_bytes_sextets l :
  Forall (fun n => n < 256) l -> b64_bytes (b64_sextets l) = l.
Proof.
  induction l as [|a|a b|a b c l IH] using list_ind3; intros H; simpl.
  - done.
  - apply Forall_cons_1 in H as [Ha _]. f_equal. nlia.
  - apply Forall_cons_1 in H as [Ha H]. apply Forall_cons_1 in H as [Hb _].
    f_equal; [nlia|]. f_equal. nlia.
  - apply Forall_cons_1 in H as [Ha H]. apply Forall_cons_1 in H as [Hb H].
    apply Forall_cons_1 in H as [Hc H].
    rewrite IH by done. f_equal; [nlia|]. f_equal; [nlia|]. f_equal. nlia.
Qed.

Lemma b64_sextets_length l :
  ((length (b64_sextets l) + length (b64_padding (length l))) mod 4 = 0)%nat /\
  (length (b64_sextets l) mod 4 <> 1)%nat.
Proof.
  induction l as [|a|a b|a b c l [IH1 IH2]] using list_ind3; try done.
  change (b64_sextets (a :: b :: c :: l)) with
    (a / 4 :: (a mod 4) * 16 + b / 16 :: (b mod 16) * 4 + c / 64 :: c mod 64
       :: b64_sextets l).
  assert (E : b64_padding (length (a :: b :: c :: l)) = b64_padding (length l)).
  { unfold b64_padding. simpl length.
    replace (S (S (S (length l))) mod 3)%nat with (length l mod 3)%nat; [done|].
    nlia. }
  rewrite E. simpl length. split; nlia.
Qed.

Lemma filter_plain (l : list ascii) :
  Forall (fun a => is_ascii_whitespace a = false) l ->
  List.filter (fun a => negb (is_ascii_whitespace a)) l = l.
Proof.
  induction 1 as [|a l H _ IH]; simpl; [done|]. by rewrite H, IH.
Qed.

Lemma hd_rev_chars sx :
  Forall (fun n => n < 64) sx ->
  match rev (map b64_char sx) with
  | a :: _ => Ascii.eqb a "=" = false
  | [] => True
  end.
Proof.
  intros H. rewrite <- map_rev.
  assert (R : Forall (fun n => n < 64) (rev sx)) by by apply Forall_rev.
  destruct R as [|n r Hn _]; simpl; [done|]. by apply b64_char_plain.
Qed.

Lemma strip_padding_chars sx pad :
  Forall (fun n => n < 64) sx ->
  pad = [] \/ pad = ["="%char] \/ pad = ["="%char; "="%char] ->
  (length (map b64_char sx ++ pad) mod 4)%nat = 0%nat ->
  strip_padding (map b64_char sx ++ pad) = map b64_char sx.
Proof.
  intros H P L. unfold strip_padding. rewrite L. simpl.
  pose proof (hd_rev_chars sx H) as Hd.
  rewrite rev_app_distr.
  destruct P as [->|[->| ->]]; simpl.
  - rewrite app_nil_r.
    destruct (rev (map b64_char sx)) as [|a r]; [done|]. by rewrite Hd.
  - destruct (rev (map b64_char sx)) as [|a r] eqn:R.
    + apply (f_equal (@rev ascii)) in R. by rewrite rev_involutive in R.
    + rewrite Hd, <- R. by rewrite rev_involutive.
  - by rewrite rev_involutive.
Qed.

Lemma atob_btoa (binary : string) : atob (btoa binary) = Some binary.
Proof.
  unfold atob, btoa.
  set (bytes := map N_of_ascii (list_ascii_of_string binary)).
  assert (B : Forall (fun n => n < 256) bytes).
  { apply Forall_map, Forall_forall. intros a _. apply N_ascii_bounded. }
  pose proof (b64_sextets_bound bytes B) as S.
  destruct (b64_sextets_length bytes) as [L1 L2].
  assert (P : b64_padding (length bytes) = []
              \/ b64_padding (length bytes) = ["="%char]
              \/ b64_padding (length bytes) = ["="%char; "="%char]).
  { unfold b64_padding. destruct (length bytes mod 3)%nat as [|[|[|k]]]; auto. }
  rewrite list_ascii_of_string_of_list_ascii.
  rewrite filter_plain.
  2:{ apply Forall_app. split.
      - apply Forall_map. eapply Forall_impl; [exact S|].
        intros n Hn. by apply b64_char_plain.
      - destruct P as [->|[->| ->]]; repeat constructor. }
  rewrite strip_padding_chars; [|done|done|by rewrite length_app, length_map].
  rewrite length_map.
  destruct (Nat.eqb_spec (length (b64_sextets bytes) mod 4) 1); [done|].
  rewrite b64_indices_chars, b64_bytes_sextets by done.
  unfold bytes. rewrite map_map.
  rewrite (map_ext _ (fun a => a)) by apply ascii_N_embedding.
  by rewrite map_id, string_of_list_ascii_of_string.
Qed.

Lemma base64_round_trip (buffer : list byte) :
  base64ToArrayBuffer (arrayBufferToBase64 buffer) = Some buffer.
Proof.
  unfold base64ToArrayBuffer, arrayBufferToBase64.
  rewrite atob_btoa. simpl. by rewrite list_byte_of_string_of_list_byte.
Qed.

(** ** slice *)

Lemma slice_split (buffer : list byte) (k : nat) :
  (k <= length buffer)%nat ->
  slice buffer 0 (Z.of_nat (length buffer) - Z.of_nat k)
    = take (length buffer - k) buffer /\
  slice_from buffer (Z.of_nat (length buffer) - Z.of_nat k)
    = drop (length buffer - k) buffer.
Proof.
  intros H. unfold slice_from, slice, relative_index.
  set (len := Z.of_nat (length buffer)).
  destruct (Z.ltb_spec 0 0); [lia|].
  destruct (Z.ltb_spec (len - Z.of_nat k) 0); [lia|].
  destruct (Z.ltb_spec len 0); [lia|].
  replace (Z.min 0 len) with 0%Z by lia.
  replace (Z.min (len - Z.of_nat k) len) with (len - Z.of_nat k)%Z by lia.
  replace (Z.min len len) with len by lia.
  replace (Z.to_nat (Z.max (len - Z.of_nat k - 0) 0))
    with (length buffer - k)%nat by lia.
  replace (Z.to_nat (len - Z.of_nat k)) with (length buffer - k)%nat by lia.
  replace (Z.to_nat (Z.max (len - (len - Z.of_nat k)) 0)) with k by lia.
  split; [done|].
  apply take_ge. rewrite length_drop. lia.
Qed.

(** ** UTF-8 *)

Ltac decide_cmp :=
  repeat match goal with
  | |- context [N.leb ?a ?b] =>
      first [ rewrite (proj2 (N.leb_le a b)) by nlia
            | rewrite (proj2 (N.leb_gt a b)) by nlia ]
  | |- context [N.ltb ?a ?b] =>
      first [ rewrite (proj2 (N.ltb_lt a b)) by nlia
            | rewrite (proj2 (N.ltb_ge a b)) by nlia ]
  | |- context [N.eqb ?a ?b] =>
      first [ rewrite (proj2 (N.eqb_eq a b)) by nlia
            | rewrite (proj2 (N.eqb_neq a b)) by nlia ]
  end.

Lemma utf8_encode_code_point_bound c :
  scalar c -> Forall (fun n => n < 256) (utf8_encode_code_point c).
Proof.
  intros H. unfold scalar in H. unfold utf8_encode_code_point.
  destruct (N.ltb_spec c 0x80); [|destruct (N.ltb_spec c 0x800);
    [|destruct (N.ltb_spec c 0x10000)]];
    repeat (constructor; [nlia|]); constructor.
Qed.

Lemma utf8_continue st b rest :
  bytes_needed st <> 0 ->
  lower_boundary st <= b <= upper_boundary st ->
  utf8_decode st (b :: rest) =
    if bytes_seen st + 1 =? bytes_needed st then
      code_point st * 64 + (b - 0x80) :: utf8_decode utf8_initial rest
    else
      utf8_decode
        (mkUtf8State (code_point st * 64 + (b - 0x80)) (bytes_needed st)
                     (bytes_seen st + 1) 0x80 0xBF) rest.
Proof.
  intros N [L U]. cbn [utf8_decode].
  destruct (N.eqb_spec (bytes_needed st) 0); [done|].
  destruct (N.ltb_spec b (lower_boundary st)); [lia|].
  destruct (N.ltb_spec (upper_boundary st) b); [lia|]. done.
Qed.

Lemma utf8_first b rest :
  utf8_decode utf8_initial (b :: rest)
    = (utf8_lead b).1 ++ utf8_decode (utf8_lead b).2 rest.
Proof. cbn [utf8_decode utf8_initial bytes_needed]. simpl N.eqb. by destruct (utf8_lead b). Qed.

(** The decoder reads back the bytes of one code point. *)
Lemma utf8_decode_code_point c rest :
  scalar c ->
  utf8_decode utf8_initial (utf8_encode_code_point c ++ rest)
    = c :: utf8_decode utf8_initial rest.
Proof.
  intros H. unfold scalar in H. unfold utf8_encode_code_point.
  destruct (N.ltb_spec c 0x80); [|destruct (N.ltb_spec c 0x800);
    [|destruct (N.ltb_spec c 0x10000)]];
    cbn [app]; rewrite utf8_first; unfold utf8_lead.
  - decide_cmp. done.
  - decide_cmp. cbn [andb fst snd app].
    rewrite utf8_continue; cbn [bytes_needed bytes_seen code_point
      lower_boundary upper_boundary]; [|done|nlia].
    simpl N.eqb. f_equal. nlia.
  - decide_cmp. cbn [andb fst snd app].
    rewrite utf8_continue; cbn [bytes_needed bytes_seen code_point
      lower_boundary upper_boundary]; [|done|].
    2:{ destruct (N.eqb_spec (0xE0 + c / 4096) 0xE0),
                 (N.eqb_spec (0xE0 + c / 4096) 0xED); nlia. }
    simpl N.eqb. cbn iota.
    rewrite utf8_continue; cbn [bytes_needed bytes_seen code_point
      lower_boundary upper_boundary]; [|done|nlia].
    simpl N.eqb. f_equal. nlia.
  - decide_cmp. cbn [andb fst snd app].
    rewrite utf8_continue; cbn [bytes_needed bytes_seen code_point
      lower_boundary upper_boundary]; [|done|].
    2:{ destruct (N.eqb_spec (0xF0 + c / 262144) 0xF0),
                 (N.eqb_spec (0xF0 + c / 262144) 0xF4); nlia. }
    simpl N.eqb. cbn iota.
    rewrite utf8_continue; cbn [bytes_needed bytes_seen code_point
      lower_boundary upper_boundary]; [|done|nlia].
    simpl N.eqb. cbn iota.
    rewrite utf8_continue; cbn [bytes_needed bytes_seen code_point
      lower_boundary upper_boundary]; [|done|nlia].
    simpl N.eqb. f_equal. nlia.
Qed.

Lemma utf8_round_trip cps :
  Forall scalar cps -> utf8_decode utf8_initial (utf8_encode cps) = cps.
Proof.
  induction 1 as [|c cps H _ IH]; [done|].
  unfold utf8_encode in *. simpl.
  by rewrite utf8_decode_code_point, IH.
Qed.

Lemma utf8_encode_bound cps :
  Forall scalar cps -> Forall (fun n => n < 256) (utf8_encode cps).
Proof.
  induction 1 as [|c cps H _ IH]; [constructor|].
  unfold utf8_encode in *. simpl. apply Forall_app. split; [|done].
  by apply utf8_encode_code_point_bound.
Qed.

Lemma scalar_values_bounded n : forall s,
  (length s <= n)%nat ->
  well_formed s = true ->
  Forall scalar (to_scalar_values s) /\
  concat (map utf16_units (to_scalar_values s)) = s.
Proof.
  induction n as [|n IH]; intros [|u rest] L W; try done; simpl in L; [lia|].
  cbn [well_formed to_scalar_values] in *.
  destruct (is_high_surrogate u) eqn:Hu.
  - destruct rest as [|v rest']; [done|].
    apply andb_true_iff in W as [Hv W]. rewrite Hv.
    destruct (IH rest') as [F C]; [simpl in L; lia | done |].
    unfold is_high_surrogate, is_low_surrogate in Hu, Hv.
    apply andb_true_iff in Hu as [Hu1 Hu2]. apply andb_true_iff in Hv as [Hv1 Hv2].
    apply N.leb_le in Hu1, Hu2, Hv1, Hv2.
    split.
    + constructor; [|done]. unfold scalar. nlia.
    + cbn [map concat]. rewrite C. unfold utf16_units.
      destruct (N.ltb_spec (0x10000 + (u - 0xD800) * 0x400 + (v - 0xDC00)) 0x10000);
        [nlia|].
      cbn [app]. f_equal; [nlia|]. f_equal. nlia.
  - apply andb_true_iff in W as [W1 W]. apply andb_true_iff in W1 as [Lo Hi].
    apply negb_true_iff in Lo. rewrite Lo. apply N.ltb_lt in Hi.
    destruct (IH rest) as [F C]; [lia | done |].
    unfold is_high_surrogate, is_low_surrogate in Hu, Lo.
    split.
    + constructor; [|done]. unfold scalar.
      destruct (N.leb_spec 0xD800 u), (N.leb_spec u 0xDBFF),
               (N.leb_spec 0xDC00 u), (N.leb_spec u 0xDFFF);
        simpl in Hu, Lo; try discriminate; lia.
    + cbn [map concat]. rewrite C. unfold utf16_units.
      destruct (N.ltb_spec u 0x10000); [done | lia].
Qed.

Lemma scalar_values_well_formed s :
  well_formed s = true ->
  Forall scalar (to_scalar_values s) /\
  concat (map utf16_units (to_scalar_values s)) = s.
Proof. by apply (scalar_values_bounded (length s)). Qed.

Lemma strip_bom_first b rest : b <> 0xEF -> strip_bom (b :: rest) = b :: rest.
Proof.
  intros H. destruct rest as [|b2 [|b3 r]]; try done. simpl strip_bom.
  by destruct (N.eqb_spec b 0xEF).
Qed.

Lemma strip_bom_code_point c rest :
  scalar c -> c <> 0xFEFF ->
  strip_bom (utf8_encode_code_point c ++ rest) = utf8_encode_code_point c ++ rest.
Proof.
  intros S H. unfold scalar in S. unfold utf8_encode_code_point.
  destruct (N.ltb_spec c 0x80); [|destruct (N.ltb_spec c 0x800);
    [|destruct (N.ltb_spec c 0x10000)]]; cbn [app].
  - apply strip_bom_first. lia.
  - apply strip_bom_first. nlia.
  - cbn [strip_bom].
    destruct (N.eqb_spec (0xE0 + c / 4096) 0xEF); [|done].
    destruct (N.eqb_spec (0x80 + (c / 64) mod 64) 0xBB); [|done].
    destruct (N.eqb_spec (0x80 + c mod 64) 0xBF); [|done].
    exfalso. apply H. nlia.
  - apply strip_bom_first. nlia.
Qed.

Lemma strip_bom_text s :
  well_formed s = true -> starts_with_bom s = false ->
  strip_bom (utf8_encode (to_scalar_values s)) = utf8_encode (to_scalar_values s).
Proof.
  intros W B. destruct (scalar_values_well_formed s W) as [F _].
  destruct s as [|u rest]; [done|].
  cbn [starts_with_bom] in B. apply N.eqb_neq in B.
  cbn [well_formed to_scalar_values] in *.
  destruct (is_high_surrogate u) eqn:Hu.
  - destruct rest as [|v rest']; [done|].
    apply andb_true_iff in W as [Hv W]. rewrite Hv in *.
    apply Forall_cons_1 in F as [Sc _].
    unfold utf8_encode. cbn [map concat].
    apply strip_bom_code_point; [done|].
    unfold is_high_surrogate in Hu. apply andb_true_iff in Hu as [Hu1 Hu2].
    apply N.leb_le in Hu1, Hu2. nlia.
  - apply andb_true_iff in W as [W1 W]. apply andb_true_iff in W1 as [Lo Hi].
    apply negb_true_iff in Lo. rewrite Lo in *.
    apply Forall_cons_1 in F as [Sc _].
    unfold utf8_encode. cbn [map concat].
    by apply strip_bom_code_point.
Qed.

(** Text that is well formed and does not begin with U+FEFF goes through
    the encoder and the decoder unchanged. *)
Lemma text_round_trip (s : DOMString) :
  well_formed s = true -> starts_with_bom s = false ->
  TextDecoder_decode (TextEncoder_encode s) = s.
Proof.
  intros W B. destruct (scalar_values_well_formed s W) as [F C].
  unfold TextDecoder_decode, TextEncoder_encode.
  rewrite map_to_N_byte_of_N by by apply utf8_encode_bound.
  by rewrite strip_bom_text, utf8_round_trip.
Qed.

(** ** The engine *)

Lemma plain_crypto_law : gcm_law plain_crypto.
Proof.
  intros key nonce data _. exists (data ++ repeat Byte.x00 16).
  split; [done|]. split.
  - by rewrite length_app, repeat_length.
  - cbv [decrypt_AES_GCM plain_crypto].
    rewrite length_app, repeat_length.
    replace (length data + 16 - 16)%nat with (length data) by lia.
    by rewrite drop_app_length, take_app_length.
Qed.

Section Laws.
Context {SC : SubtleCrypto}.

Lemma computeSharedSecret_true peer e e' :
  computeSharedSecret peer e = (true, e') ->
  exists key, encryptionKey e' = Some key.
Proof.
  unfold computeSharedSecret. intros H.
  repeat match type of H with
  | match ?x with _ => _ end = _ => destruct x; try discriminate
  end.
  injection H as <-. by eexists.
Qed.

Lemma computeSharedSecret_false peer e e' :
  computeSharedSecret peer e = (false, e') ->
  encryptionKey e' = encryptionKey e.
Proof.
  unfold computeSharedSecret. intros H.
  repeat match type of H with
  | match ?x with _ => _ end = _ => destruct x; try discriminate
  end; by injection H as <-.
Qed.

(** The envelope of encrypt, opened by decrypt, gives the plaintext as the
    text codecs carry it. *)
Lemma envelope_round_trip e key nonce message :
  gcm_law SC ->
  encryptionKey e = Some key ->
  length nonce = 12%nat ->
  exists env,
    encrypt nonce message e = Ok env /\
    decrypt (encryptedData env) (iv env) (tag env) e
      = Ok (TextDecoder_decode (TextEncoder_encode message)).
Proof.
  intros G K L. unfold encrypt, decrypt. rewrite K.
  destruct (G key nonce (stringToArrayBuffer message) L) as (c & E & Lc & D).
  rewrite E. eexists. split; [reflexivity|]. cbn [encryptedData iv tag].
  rewrite !base64_round_trip.
  destruct (slice_split c 16) as [S1 S2]; [lia|].
  replace (Z.of_nat (length c) - 16)%Z
    with (Z.of_nat (length c) - Z.of_nat 16)%Z by lia.
  rewrite S1, S2, take_drop, D. done.
Qed.

(** C1, as the code has it.  Once computeSharedSecret has returned true,
    for every plaintext that is well-formed text (each surrogate in a
    pair) and does not begin with U+FEFF, encrypt gives an envelope, and
    decrypt of its three fields gives the plaintext. *)
Theorem round_trip_of_text (e0 e : E2EE) (peer : string) (nonce : list byte)
    (message : DOMString) :
  gcm_law SC ->
  computeSharedSecret peer e0 = (true, e) ->
  length nonce = 12%nat ->
  well_formed message = true ->
  starts_with_bom message = false ->
  exists env,
    encrypt nonce message e = Ok env /\
    decrypt (encryptedData env) (iv env) (tag env) e = Ok message.
Proof.
  intros G C L W B.
  destruct (computeSharedSecret_true peer e0 e C) as [key K].
  destruct (envelope_round_trip e key nonce message G K L) as (env & E & D).
  exists env. split; [done|]. by rewrite D, text_round_trip.
Qed.

Lemma calls_not_ready (cs : list Call) : forall e,
  (calls cs e).1 = false ->
  encryptionKey e = None ->
  encryptionKey (calls cs e).2 = None.
Proof.
  induction cs as [|c cs IH]; intros e H K; [done|].
  cbn [calls] in *.
  destruct (call c e) as [ok e1] eqn:C.
  destruct (calls cs e1) as [ok' e2] eqn:R. cbn [fst snd] in *.
  apply orb_false_iff in H as [-> ->].
  specialize (IH e1). rewrite R in IH. apply IH; [done|].
  destruct c; cbn [call] in C.
  - injection C as <-. unfold initializeKeyExchange.
    destruct (generateKey_ECDH seed) as [kp|]; [|done].
    by destruct (exportKey_raw kp.2).
  - apply computeSharedSecret_false in C. by rewrite C.
  - by injection C as <-.
  - by injection C as <-.
  - by injection C as <-.
  - by injection C as <-.
Qed.

(** C8.  On an instance on which no computeSharedSecret has returned
    true, whatever else was called, encrypt and decrypt throw the error
    of the missing key, for every argument. *)
Theorem not_ready_throws (cs : list Call) (nonce : list byte)
    (message : DOMString) (encryptedData ivBase64 tagBase64 : string) :
  (calls cs new_E2EE).1 = false ->
  encrypt nonce message (calls cs new_E2EE).2 = Throw not_established /\
  decrypt encryptedData ivBase64 tagBase64 (calls cs new_E2EE).2
    = Throw not_established /\
  isReady (calls cs new_E2EE).2 = false.
Proof.
  intros H. pose proof (calls_not_ready cs new_E2EE H eq_refl) as K.
  unfold encrypt, decrypt, isReady. by rewrite K.
Qed.

(** C9.  A second computeSharedSecret with the same peer key returns what
    the first returned and leaves the instance as the first left it.  The
    key depends on the key pair and the peer key alone: on any instance
    with the same key pair the call returns the same and leaves the same
    shared secret and key.  When the call returns true the key is the
    PBKDF2 derivation of the shared secret with the salt
    "SecureChat-E2EE-Salt", 100000 iterations and SHA-256. *)
Theorem computeSharedSecret_idempotent (peer : string) (e : E2EE) :
  computeSharedSecret peer (computeSharedSecret peer e).2
    = computeSharedSecret peer e /\
  (forall e' : E2EE,
     keyPair e' = keyPair e ->
     (computeSharedSecret peer e').1 = (computeSharedSecret peer e).1 /\
     ((computeSharedSecret peer e).1 = true ->
      (computeSharedSecret peer e').2 = (computeSharedSecret peer e).2)) /\
  ((computeSharedSecret peer e).1 = true ->
   exists bits km key,
     sharedSecret (computeSharedSecret peer e).2 = Some bits /\
     importKey_PBKDF2 bits = Some km /\
     deriveKey_PBKDF2 (stringToArrayBuffer (units_of "SecureChat-E2EE-Salt"))
       100000 "SHA-256" km 256 = Some key /\
     encryptionKey (computeSharedSecret peer e).2 = Some key).
Proof.
  split; [|split].
  - unfold computeSharedSecret.
    destruct (base64ToArrayBuffer peer) as [buf|]; [|done].
    destruct (importKey_ECDH buf) as [pk|]; [|done].
    destruct (keyPair e) as [kp|] eqn:KP; [|cbn [snd]; by rewrite KP].
    destruct (deriveBits_ECDH pk kp.1 256) as [bits|] eqn:DB;
      [|cbn [snd]; by rewrite KP, DB].
    destruct (importKey_PBKDF2 bits) as [km|] eqn:IK;
      [|cbn [snd keyPair]; by rewrite DB, IK].
    destruct (deriveKey_PBKDF2 _ _ _ km _) as [key|] eqn:DK;
      cbn [snd keyPair]; by rewrite DB, IK, DK.
  - intros e' KP. unfold computeSharedSecret. rewrite KP.
    destruct (base64ToArrayBuffer peer) as [buf|]; [|done].
    destruct (importKey_ECDH buf) as [pk|]; [|done].
    destruct (keyPair e) as [kp|]; [|done].
    destruct (deriveBits_ECDH pk kp.1 256) as [bits|]; [|done].
    destruct (importKey_PBKDF2 bits) as [km|]; [|done].
    destruct (deriveKey_PBKDF2 _ _ _ km _) as [key|]; [|done].
    by cbn [keyPair sharedSecret fst snd].
  - unfold computeSharedSecret.
    destruct (base64ToArrayBuffer peer) as [buf|]; [|done].
    destruct (importKey_ECDH buf) as [pk|]; [|done].
    destruct (keyPair e) as [kp|]; [|done].
    destruct (deriveBits_ECDH pk kp.1 256) as [bits|]; [|done].
    destruct (importKey_PBKDF2 bits) as [km|] eqn:IK; [|done].
    destruct (deriveKey_PBKDF2 _ _ _ km _) as [key|] eqn:DK; [|done].
    intros _. by exists bits, km, key.
Qed.

End Laws.

Lemma a_ready_engine_ready :
  @computeSharedSecret plain_crypto a_peer_key a_started_engine
    = (true, a_ready_engine).
Proof. vm_compute. reflexivity. Qed.

Lemma round_trip_of_text_witness :
  exists env,
    @encrypt plain_crypto a_nonce a_message a_ready_engine = Ok env /\
    @decrypt plain_crypto (encryptedData env) (iv env) (tag env) a_ready_engine
      = Ok a_message.
Proof.
  apply (@round_trip_of_text plain_crypto a_started_engine a_ready_engine
           a_peer_key a_nonce a_message plain_crypto_law).
  - exact a_ready_engine_ready.
  - reflexivity.
  - reflexivity.
  - reflexivity.
Defined.

(** On every platform that keeps [gcm_law], the plaintext U+FEFF "hi"
    comes back as "hi". *)
Lemma marked_message_comes_back_short {SC : SubtleCrypto} (e : E2EE)
    (key : AesKey) (nonce : list byte) :
  gcm_law SC -> encryptionKey e = Some key -> length nonce = 12%nat ->
  exists env,
    encrypt nonce a_marked_message e = Ok env /\
    decrypt (encryptedData env) (iv env) (tag env) e = Ok [104; 105].
Proof.
  intros G K L.
  destruct (envelope_round_trip e key nonce a_marked_message G K L)
    as (env & E & D).
  exists env. split; [done|]. rewrite D. f_equal.
Qed.

(** C1 fails on the code: the decoder takes the first code unit of the
    plaintext U+FEFF "hi" for a byte order mark and leaves it out. *)
Lemma byte_order_mark_is_lost : ~ round_trip_for_every_plaintext.
Proof.
  intros H.
  destruct (H plain_crypto plain_crypto_law a_started_engine a_ready_engine
              a_peer_key a_nonce a_marked_message a_ready_engine_ready eq_refl)
    as (env & E & D).
  destruct (computeSharedSecret_true _ _ _ a_ready_engine_ready) as [key K].
  destruct (marked_message_comes_back_short a_ready_engine key a_nonce
              plain_crypto_law K eq_refl) as (env' & E' & D').
  rewrite E in E'. injection E' as <-. rewrite D in D'. discriminate.
Qed.

Lemma not_ready_throws_witness :
  @encrypt plain_crypto a_nonce a_message
    (@calls plain_crypto some_calls new_E2EE).2 = Throw not_established /\
  @decrypt plain_crypto "aGk=" "AAAA" "AAAA"
    (@calls plain_crypto some_calls new_E2EE).2 = Throw not_established /\
  @isReady plain_crypto (@calls plain_crypto some_calls new_E2EE).2 = false.
Proof.
  apply (@not_ready_throws plain_crypto some_calls).
  vm_compute. reflexivity.
Defined.

(** A surrogate that is not part of a pair comes back as U+FFFD, on every
    platform that keeps [gcm_law]. *)
Lemma lone_surrogate_is_replaced {SC : SubtleCrypto} (e : E2EE)
    (key : AesKey) (nonce : list byte) :
  gcm_law SC -> encryptionKey e = Some key -> length nonce = 12%nat ->
  exists env,
    encrypt nonce [0xD83D] e = Ok env /\
    decrypt (encryptedData env) (iv env) (tag env) e = Ok [0xFFFD].
Proof.
  intros G K L.
  destruct (envelope_round_trip e key nonce [0xD83D] G K L) as (env & E & D).
  exists env. split; [done|]. rewrite D. f_equal.
Qed.

End EngineFacts.

(* ===================================================================== *)
(** * Part V.  Further properties of the relay                            *)
(* ===================================================================== *)

Module RelayMore.
Import Relay Engine Tokens RelayFacts EngineFacts.

#[local] Set Warnings "-clear-no-such-hyp".

Local Open Scope N_scope.
Local Open Scope list_scope.

(** ** Session ids *)

Lemma b64_sextets_count (l : list N) :
  length (b64_sextets l) = ((4 * length l + 2) / 3)%nat.
Proof.
  induction l as [|a|a b|a b c l IH] using list_ind3; try done.
  change (b64_sextets (a :: b :: c :: l)) with
    (a / 4 :: (a mod 4) * 16 + b / 16 :: (b mod 16) * 4 + c / 64 :: c mod 64
       :: b64_sextets l).
  simpl length. rewrite IH. nlia.
Qed.

Lemma N_of_b64url_char n :
  n < 64 ->
  N_of_ascii (b64url_char n) =
    if n <? 26 then 65 + n
    else if n <? 52 then 71 + n
    else if n <? 62 then n - 4
    else if n =? 62 then 45 else 95.
Proof.
  intros H. unfold b64url_char.
  destruct (N.ltb_spec n 26); [by rewrite N_ascii_embedding by lia|].
  destruct (N.ltb_spec n 52);
    [rewrite N_ascii_embedding by lia; lia|].
  destruct (N.ltb_spec n 62);
    [rewrite N_ascii_embedding by lia; lia|].
  by destruct (N.eqb_spec n 62).
Qed.

Lemma b64url_char_class n : n < 64 -> is_base64url_char (b64url_char n) = true.
Proof.
  intros H. unfold is_base64url_char.
  assert (E : nat_of_ascii (b64url_char n)
              = N.to_nat (N_of_ascii (b64url_char n))) by done.
  rewrite E, N_of_b64url_char by done. clear E.
  destruct (N.ltb_spec n 26); [|destruct (N.ltb_spec n 52);
    [|destruct (N.ltb_spec n 62); [|destruct (N.eqb_spec n 62)]]].
  - replace (65 <=? N.to_nat (65 + n))%nat with true
      by (symmetry; apply Nat.leb_le; lia).
    replace (N.to_nat (65 + n) <=? 90)%nat with true
      by (symmetry; apply Nat.leb_le; lia). done.
  - replace (97 <=? N.to_nat (71 + n))%nat with true
      by (symmetry; apply Nat.leb_le; lia).
    replace (N.to_nat (71 + n) <=? 122)%nat with true
      by (symmetry; apply Nat.leb_le; lia).
    simpl. by rewrite orb_true_r.
  - replace (48 <=? N.to_nat (n - 4))%nat with true
      by (symmetry; apply Nat.leb_le; lia).
    replace (N.to_nat (n - 4) <=? 57)%nat with true
      by (symmetry; apply Nat.leb_le; lia).
    simpl. by rewrite !orb_true_r.
  - subst. done.
  - assert (n = 63) as -> by lia. done.
Qed.

Lemma b64url_char_inj n m :
  n < 64 -> m < 64 -> b64url_char n = b64url_char m -> n = m.
Proof.
  intros Hn Hm E. apply (f_equal N_of_ascii) in E.
  rewrite !N_of_b64url_char in E by done.
  destruct (N.ltb_spec n 26), (N.ltb_spec m 26),
           (N.ltb_spec n 52), (N.ltb_spec m 52),
           (N.ltb_spec n 62), (N.ltb_spec m 62),
           (N.eqb_spec n 62), (N.eqb_spec m 62); lia.
Qed.

Lemma map_b64url_char_inj l1 : forall l2,
  Forall (fun n => n < 64) l1 -> Forall (fun n => n < 64) l2 ->
  map b64url_char l1 = map b64url_char l2 -> l1 = l2.
Proof.
  induction l1 as [|a l1 IH]; intros [|b l2] F1 F2 E; try done.
  apply Forall_cons_1 in F1 as [Ha F1]. apply Forall_cons_1 in F2 as [Hb F2].
  injection E as E1 E2. f_equal; [by apply b64url_char_inj | by apply IH].
Qed.

Lemma bytes_bounded (buffer : list byte) :
  Forall (fun n => n < 256) (map Byte.to_N buffer).
Proof.
  apply Forall_map, Forall_forall. intros b _.
  pose proof (Byte.to_N_bounded b). lia.
Qed.

(** X1.  Whatever 32 bytes crypto.randomBytes draws, the id that
    generateSessionId makes of them has 43 characters, all of the class
    that isValidSessionId accepts: every generated id passes
    isValidSessionId. *)
Theorem generateSessionId_valid (randomBytes : list byte) :
  length randomBytes = 32%nat ->
  String.length (generateSessionId randomBytes) = 43%nat /\
  isValidSessionId (generateSessionId randomBytes) = true.
Proof.
  intros L. unfold generateSessionId, toString_base64url, isValidSessionId.
  assert (Len : String.length
                  (string_of_list_ascii
                     (map b64url_char (b64_sextets (map Byte.to_N randomBytes))))
                = 43%nat).
  { rewrite <- (list_ascii_of_string_of_list_ascii
                  (map b64url_char (b64_sextets (map Byte.to_N randomBytes)))) at 1.
    rewrite string_of_list_ascii_of_string.
    assert (SL : forall l, String.length (string_of_list_ascii l) = length l).
    { induction l as [|a l IH]; simpl; [done | by rewrite IH]. }
    by rewrite SL, length_map, b64_sextets_count, length_map, L. }
  split; [exact Len|]. rewrite Len. simpl.
  rewrite list_ascii_of_string_of_list_ascii.
  apply forallb_forall. intros a Ha. apply in_map_iff in Ha as (n & <- & Hn).
  apply b64url_char_class.
  pose proof (b64_sextets_bound _ (bytes_bounded randomBytes)) as B.
  rewrite Forall_forall in B. apply B. by apply list_elem_of_In.
Qed.

Lemma generateSessionId_valid_witness :
  length (repeat Byte.x00 32) = 32%nat /\
  isValidSessionId (generateSessionId (repeat Byte.x00 32)) = true.
Proof.
  split; [reflexivity|].
  apply (generateSessionId_valid (repeat Byte.x00 32)). reflexivity.
Defined.

(** X2.  generateSessionId is one-to-one: two draws of bytes that differ
    give ids that differ, so two sessions share an id only when
    crypto.randomBytes repeats itself. *)
Theorem generateSessionId_inj (bytes1 bytes2 : list byte) :
  generateSessionId bytes1 = generateSessionId bytes2 <-> bytes1 = bytes2.
Proof.
  split; [|by intros ->].
  unfold generateSessionId, toString_base64url. intros E.
  apply (f_equal list_ascii_of_string) in E.
  rewrite !list_ascii_of_string_of_list_ascii in E.
  apply map_b64url_char_inj in E;
    [|by apply b64_sextets_bound, bytes_bounded
     |by apply b64_sextets_bound, bytes_bounded].
  apply (f_equal b64_bytes) in E.
  rewrite !b64_bytes_sextets in E by apply bytes_bounded.
  apply (f_equal (map byte_of_N)) in E.
  assert (R : forall l : list byte, map byte_of_N (map Byte.to_N l) = l).
  { induction l as [|b l IH]; simpl; [done|]. f_equal; [|done].
    unfold byte_of_N. pose proof (Byte.to_N_bounded b).
    rewrite N.mod_small by lia. by rewrite Byte.of_to_N. }
  by rewrite !R in E.
Qed.

(** ** Invariants of the registry *)

(** X3.  In every state that the server reaches, whatever the events, a
    session has capacity 2 and at most 2 participants. *)
Theorem sessions_within_capacity (env : Env) (evs : list Event)
    (sid : string) (s : Session) :
  sessions (server (run env evs initial)) !! sid = Some s ->
  maxUsers s = 2%nat /\ (size (users s) <= 2)%nat.
Proof.
  intros L.
  assert (K : capacity_kept (sessions (server (run env evs initial)))).
  { apply run_ck. intros i x Li. simpl in Li. by rewrite lookup_empty in Li. }
  exact (K sid s L).
Qed.

Lemma sessions_within_capacity_witness :
  exists s,
    sessions (server (run an_env two_parties initial)) !! an_id = Some s /\
    maxUsers s = 2%nat /\ (size (users s) <= 2)%nat.
Proof.
  destruct (sessions (server (run an_env two_parties initial)) !! an_id)
    as [s|] eqn:L; [|by vm_compute in L].
  exists s. split; [reflexivity|].
  exact (sessions_within_capacity an_env two_parties an_id s L).
Defined.

(** X4.  As long as every id that createSession receives is new (no
    session and no room has it), the sockets in the socket.io room of a
    session are among the users of the session: what socket.to(sessionId)
    sends reaches participants only. *)
Theorem room_members_are_users (env : Env) (evs : list Event)
    (sid : string) (s : Session) :
  fresh_ids env evs initial ->
  sessions (server (run env evs initial)) !! sid = Some s ->
  room_members (server (run env evs initial)) sid ⊆ users s.
Proof.
  intros F L.
  assert (K : rooms_within_users (server (run env evs initial))).
  { apply rooms_hold_participants; [done|].
    intros i x Li. simpl in Li. by rewrite lookup_empty in Li. }
  exact (K sid s L).
Qed.

Lemma room_members_are_users_witness :
  fresh_ids an_env a_conversation initial /\
  exists s,
    sessions (server (run an_env a_conversation initial)) !! an_id = Some s /\
    room_members (server (run an_env a_conversation initial)) an_id ⊆ users s.
Proof.
  assert (F : fresh_ids an_env a_conversation initial)
    by (vm_compute; repeat split).
  split; [exact F|].
  destruct (sessions (server (run an_env a_conversation initial)) !! an_id)
    as [s|] eqn:L; [|by vm_compute in L].
  exists s. split; [reflexivity|].
  exact (room_members_are_users an_env a_conversation an_id s F L).
Defined.

(** ** The two validity checks *)

(** X5.  canJoinSession and isSessionValidForMessaging leave the same
    registry (both delete the session when it has expired, and nothing
    else), and canJoinSession answers true exactly when
    isSessionValidForMessaging does and the session has fewer users than
    its capacity. *)
Theorem canJoinSession_vs_messaging (sessionId : string) (now : Z) (st : Server) :
  (canJoinSession sessionId now st).2
    = (isSessionValidForMessaging sessionId now st).2 /\
  (canJoinSession sessionId now st).1
    = (isSessionValidForMessaging sessionId now st).1 &&
      match sessions st !! sessionId with
      | Some s => (size (users s) <? maxUsers s)%nat
      | None => false
      end.
Proof.
  unfold canJoinSession, isSessionValidForMessaging, bind, sessions_get,
    sessions_delete, ret.
  destruct (sessions st !! sessionId) as [s|]; simpl; [|done].
  destruct (expired now s); simpl; [done|].
  destruct (Nat.leb_spec (maxUsers s) (size (users s))),
           (Nat.ltb_spec (size (users s)) (maxUsers s)); simpl;
    try done; lia.
Qed.

(** ** Expiry in the background *)

(** X6.  The two timers remove expired sessions and nothing else.  After
    the callback of setInterval the registry holds exactly the sessions
    that were there and are younger than the horizon, each unchanged; a
    second run at the same time changes nothing.  The callback of the
    setTimeout of createSession removes the session of its id when its age
    has reached the horizon, and leaves every other entry as it was.
    Neither touches the rooms or sends anything. *)
Theorem timers_remove_expired_only (now : Z) (st : Server) (timerId sid : string) :
  (sessions (cleanup_interval now st).2 !! sid =
     match sessions st !! sid with
     | Some s => if decide (now - createdAt s < expiryHorizon)%Z
                 then Some s else None
     | None => None
     end) /\
  (cleanup_interval now (cleanup_interval now st).2).2
     = (cleanup_interval now st).2 /\
  (sessions (session_timer timerId now st).2 !! sid =
     match sessions st !! sid with
     | Some s => if decide (timerId = sid /\ expiryHorizon <= now - createdAt s)%Z
                 then None else Some s
     | None => None
     end) /\
  rooms (cleanup_interval now st).2 = rooms st /\
  outbox (cleanup_interval now st).2 = outbox st /\
  rooms (session_timer timerId now st).2 = rooms st /\
  outbox (session_timer timerId now st).2 = outbox st.
Proof.
  split; [|split; [|split]].
  - rewrite cleanup_interval_lookup.
    destruct (sessions st !! sid) as [s|]; [|done].
    destruct (expired now s) eqn:E.
    + apply expired_true in E. by rewrite decide_False by lia.
    + apply expired_false in E. by rewrite decide_True.
  - assert (S : sessions (cleanup_interval now (cleanup_interval now st).2).2
                = sessions (cleanup_interval now st).2).
    { apply map_eq. intros i. rewrite !cleanup_interval_lookup.
      destruct (sessions st !! i) as [s|]; [|done].
      destruct (expired now s) eqn:E; [done | by rewrite E]. }
    unfold cleanup_interval in *. simpl in *. by rewrite S.
  - unfold session_timer, bind, sessions_has, sessions_get, sessions_delete, ret.
    simpl. case_bool_decide as P; simpl.
    + destruct (sessions st !! timerId) as [s0|] eqn:L0; simpl;
        [|by destruct P].
      destruct (expired now s0) eqn:E; simpl.
      * apply expired_true in E. rewrite lookup_delete.
        destruct (decide (timerId = sid)) as [<-|N].
        -- rewrite L0. by rewrite decide_True.
        -- destruct (sessions st !! sid) as [s|]; [|done].
           rewrite decide_False; [done | by intros [? _]].
      * apply expired_false in E.
        destruct (sessions st !! sid) as [s|] eqn:L; [|done].
        rewrite decide_False; [done|].
        intros [<- G]. rewrite L0 in L. injection L as <-. lia.
    + destruct (sessions st !! sid) as [s|] eqn:L; [|done].
      rewrite decide_False; [done|]. intros [<- _]. apply P. by exists s.
  - repeat split; try done;
      unfold session_timer, bind, sessions_has, sessions_get, sessions_delete, ret;
      simpl; case_bool_decide; simpl; try done;
      (destruct (sessions st !! timerId) as [s0|]; simpl; [|done]);
      by destruct (expired now s0).
Qed.

(** ** Creation time *)

Lemma d_refl sid m : descends sid m m.
Proof. intros s' L. by exists s'. Qed.

Lemma d_trans sid m1 m2 m3 :
  descends sid m1 m2 -> descends sid m2 m3 -> descends sid m1 m3.
Proof.
  intros A B s3 L3. destruct (B s3 L3) as (s2 & L2 & C2 & M2).
  destruct (A s2 L2) as (s1 & L1 & C1 & M1). exists s1. by rewrite C2, M2.
Qed.

Lemma d_delete sid m i : descends sid m (delete i m).
Proof. intros s' L. apply lookup_delete_Some in L as [_ L]. by exists s'. Qed.

Lemma d_filter sid (P : string * Session -> Prop)
    `{!forall x, Decision (P x)} m :
  descends sid m (filter P m).
Proof. intros s' L. apply map_lookup_filter_Some in L as [L _]. by exists s'. Qed.

Lemma d_insert sid m i s0 s1 :
  (i = sid -> m !! i = Some s0 /\ createdAt s1 = createdAt s0 /\
              maxUsers s1 = maxUsers s0) ->
  descends sid m (<[i := s1]> m).
Proof.
  intros H s' L. apply lookup_insert_Some in L as [[-> <-]|[_ L]].
  - destruct (H eq_refl) as (L0 & C & M). by exists s0.
  - by exists s'.
Qed.

Lemma d_alter sid m i f :
  (forall s, createdAt (f s) = createdAt s /\ maxUsers (f s) = maxUsers s) ->
  descends sid m (alter f i m).
Proof.
  intros F s' L. rewrite lookup_alter in L.
  destruct (decide (i = sid)) as [->|]; [|by exists s'].
  destruct (m !! sid) as [s|] eqn:Ls; simpl in L; [|done].
  injection L as <-. exists s. by destruct (F s).
Qed.

Lemma step_descends env ev w sid :
  creates ev <> Some sid ->
  descends sid (sessions (server w)) (sessions (server (step env ev w))).
Proof.
  intros N. destruct ev; simpl in *.
  - apply (d_insert sid _ _ (mkSession ∅ now now 2)). intros ->. by destruct N.
  - unfold session_timer, bind, sessions_has, sessions_get, sessions_delete, ret.
    simpl. case_bool_decide; simpl; [|apply d_refl].
    destruct (sessions (server w) !! sessionId) as [s0|]; simpl; [|apply d_refl].
    destruct (expired now s0); simpl; [apply d_delete | apply d_refl].
  - by apply d_filter.
  - destruct (conns w !! socketId); apply d_refl.
  - unfold with_conn. destruct (conns w !! socketId) as [[req c]|]; [|apply d_refl].
    pose proof (on_create_session_sessions env req socketId newSessionId
                  newUserId t_create t_touch c (server w)) as S.
    destruct (on_create_session _ _ _ _ _ _ _ _ _) as [[c' a] st']. simpl in *.
    rewrite S. apply (d_insert sid _ _ (mkSession ∅ 0 0 2)).
    intros ->. by destruct N.
  - unfold with_conn. destruct (conns w !! socketId) as [[req c]|]; [|apply d_refl].
    pose proof (on_join_session_sessions env req socketId sessionId
                  newUserId t_check t_touch c (server w)) as S.
    destruct (on_join_session _ _ _ _ _ _ _ _ _) as [[c' a] st']. simpl in *.
    rewrite S. destruct (isValidSessionId sessionId); [|apply d_refl].
    destruct (sessions (server w) !! sessionId) as [s0|] eqn:L0; [|apply d_refl].
    destruct (expired t_check s0); [apply d_delete|].
    destruct (maxUsers s0 <=? size (users s0))%nat; [apply d_refl|].
    by apply (d_insert sid _ _ s0).
  - unfold with_conn. destruct (conns w !! socketId) as [[req c]|]; [|apply d_refl].
    unfold keep, bind, ret, on_key_exchange.
    destruct (truthy_id (currentSessionId c)); apply d_refl.
  - unfold with_conn. destruct (conns w !! socketId) as [[req c]|]; [|apply d_refl].
    unfold keep. rewrite bind_run. unfold ret. cbn [fst snd].
    unfold on_encrypted_message.
    destruct (truthy_id (currentSessionId c)) as [sid0|]; [|apply d_refl].
    unfold isSessionValidForMessaging, updateSessionActivity, bind,
      sessions_get, sessions_delete, session_mutate, socket_emit,
      socket_to_emit, ret.
    destruct (sessions (server w) !! sid0) as [s0|] eqn:L0; simpl; [|apply d_refl].
    destruct (expired t_check s0); simpl; [apply d_delete|]. rewrite L0.
    case_bool_decide; simpl; [|apply d_refl]. rewrite L0. simpl.
    by apply d_alter.
  - unfold with_conn. destruct (conns w !! socketId) as [[req c]|]; [|apply d_refl].
    unfold keep, bind, ret, on_typing.
    destruct (truthy_id (currentSessionId c)); apply d_refl.
  - destruct (conns w !! socketId) as [[req c]|]; [|apply d_refl]. simpl.
    rewrite bind_run. cbn [fst snd]. rewrite on_disconnect_sessions.
    unfold leave_all. simpl.
    destruct (truthy_id (currentSessionId c)) as [sid0|]; [|apply d_refl].
    destruct (sessions (server w) !! sid0) as [s0|] eqn:L0; [|apply d_refl].
    case_decide; [apply d_delete|]. by apply (d_insert sid _ _ s0).
Qed.

(** X7.  No event but a creation makes a session or gives one a new
    creation time.  After any run of events none of which calls
    createSession with the id, a session found under the id was there
    before the run, with the same creation time and the same capacity;
    so nothing that clients send moves the time at which it expires. *)
Theorem createdAt_never_moves (env : Env) (evs : list Event) (w : World)
    (sid : string) (s' : Session) :
  Forall (fun ev => creates ev <> Some sid) evs ->
  sessions (server (run env evs w)) !! sid = Some s' ->
  exists s,
    sessions (server w) !! sid = Some s /\
    createdAt s' = createdAt s /\ maxUsers s' = maxUsers s /\
    (forall now, expired now s' = expired now s).
Proof.
  intros F. revert w s'.
  induction F as [|ev evs N _ IH]; intros w s' L; simpl in L.
  - exists s'. by repeat split.
  - destruct (IH _ _ L) as (s1 & L1 & C1 & M1 & E1).
    destruct (step_descends env ev w sid N s1 L1) as (s & L0 & C0 & M0).
    exists s. split; [done|]. split; [by rewrite C1|]. split; [by rewrite M1|].
    intros now. rewrite E1. unfold expired, hoursSinceCreation. by rewrite C0.
Qed.

Lemma createdAt_never_moves_witness :
  let w := run an_env [HttpChatNew an_id 0] initial in
  Forall (fun ev => creates ev <> Some an_id) (tail two_parties) /\
  exists s' s,
    sessions (server (run an_env (tail two_parties) w)) !! an_id = Some s' /\
    sessions (server w) !! an_id = Some s /\
    createdAt s' = createdAt s.
Proof.
  intros w.
  assert (F : Forall (fun ev => creates ev <> Some an_id) (tail two_parties))
    by (repeat constructor; discriminate).
  split; [exact F|].
  destruct (sessions (server (run an_env (tail two_parties) w)) !! an_id)
    as [s'|] eqn:L; [|by vm_compute in L].
  destruct (createdAt_never_moves an_env (tail two_parties) w an_id s' F L)
    as (s & Ls & C & _).
  exists s', s. by repeat split.
Defined.

(** ** Who is the initiator *)

(** X8.  A socket that makes a session with 'create-session' is alone in
    it; a different socket that then joins, before the session expires,
    is told it is not the initiator and gets no link, the session then
    has the two of them as users, and the creator is among those sent
    'user-joined'. *)
Theorem create_then_join (env : Env) (reqA reqB : Request)
    (a b sid uidA uidB : string) (t0 t0' t1 t2 : Z) (cA cB : Closure)
    (st : Server) :
  isValidSessionId sid = true ->
  a <> b ->
  (t1 - t0 < expiryHorizon)%Z ->
  let st1 := (on_create_session env reqA a sid uidA t0 t0' cA st).2 in
  let r := on_join_session env reqB b sid uidB t1 t2 cB st1 in
  (users <$> sessions st1 !! sid) = Some ({[a]} ∪ ∅) /\
  r.1.2 = JoinSuccess uidB false None /\
  (users <$> sessions r.2 !! sid) = Some ({[b]} ∪ ({[a]} ∪ ∅)) /\
  exists to, last (outbox r.2) = Some (mkDelivery to (UserJoined (Some uidB)))
             /\ a ∈ to /\ b ∉ to.
Proof.
  intros V N T st1 r.
  pose proof (on_create_session_sessions env reqA a sid uidA t0 t0' cA st) as S.
  pose proof (on_create_session_rooms env reqA a sid uidA t0 t0' cA st) as R.
  fold st1 in S, R.
  assert (L : sessions st1 !! sid = Some (mkSession ({[a]} ∪ ∅) t0 t0' 2))
    by (rewrite S; apply lookup_insert_eq).
  pose proof (on_join_session_cases env reqB b sid uidB t1 t2 cB st1 V) as C.
  cbv zeta in C. fold r in C. rewrite L in C. cbn [createdAt users maxUsers] in C.
  specialize (C ltac:(by intros s [= <-])).
  rewrite decide_False in C by lia.
  assert (Sz : size ({[a]} ∪ (∅ : gset string)) = 1%nat)
    by (rewrite (right_id_L ∅ (∪)); apply size_singleton).
  assert (Sz2 : size ({[b]} ∪ ({[a]} ∪ (∅ : gset string))) = 2%nat).
  { rewrite size_union, size_singleton, Sz; [done|]. set_solver. }
  rewrite decide_False in C by lia.
  destruct C as (_ & C2 & C3 & _ & C5).
  rewrite bool_decide_eq_false_2 in C2 by lia.
  split; [by rewrite L|]. split; [exact C2|]. split.
  - rewrite C3. by rewrite lookup_insert_eq.
  - eexists. split; [rewrite C5; apply last_snoc|].
    unfold room_members. rewrite R, lookup_insert_eq. simpl. set_solver.
Qed.

Lemma create_then_join_witness :
  let st1 := (on_create_session an_env a_request "a" an_id "ua" 0 0
                (mkClosure None None) (server initial)).2 in
  (on_join_session an_env a_request "b" an_id "ub" 1000 1000
     (mkClosure None None) st1).1.2 = JoinSuccess "ub" false None.
Proof.
  intros st1.
  destruct (create_then_join an_env a_request a_request "a" "b" an_id
              "ua" "ub" 0 0 1000 1000 (mkClosure None None)
              (mkClosure None None) (server initial))
    as (_ & H & _).
  - reflexivity.
  - discriminate.
  - unfold expiryHorizon, SESSION_EXPIRY_HOURS. lia.
  - exact H.
Defined.

(** X9.  The users of a session are a Set: a socket that is alone in a
    session and joins it again is admitted again, is told again that it
    is the initiator and gets the link again, and the session still has
    that one user. *)
Theorem join_again_is_initiator_again (env : Env) (req : Request)
    (socketId sid uid : string) (t_check t_touch : Z) (c : Closure)
    (st : Server) (s : Session) :
  isValidSessionId sid = true ->
  sessions st !! sid = Some s ->
  users s = {[socketId]} ->
  maxUsers s = 2%nat ->
  (t_check - createdAt s < expiryHorizon)%Z ->
  let r := on_join_session env req socketId sid uid t_check t_touch c st in
  r.1.2 = JoinSuccess uid true (Some (shareLink env req sid)) /\
  (users <$> sessions r.2 !! sid) = Some {[socketId]}.
Proof.
  intros V L U M T r.
  pose proof (on_join_session_cases env req socketId sid uid t_check t_touch
                c st V) as C.
  cbv zeta in C. fold r in C. rewrite L in C.
  specialize (C ltac:(by intros s0 [= <-])).
  rewrite decide_False in C by lia.
  rewrite U, size_singleton in C. rewrite decide_False in C by lia.
  cbn [users] in C.
  assert (E : ({[socketId]} ∪ {[socketId]} : gset string) = {[socketId]})
    by set_solver.
  rewrite E, size_singleton in C.
  destruct C as (_ & C2 & C3 & _).
  rewrite bool_decide_eq_true_2 in C2 by done.
  split; [exact C2|]. rewrite C3. by rewrite lookup_insert_eq.
Qed.

Lemma join_again_is_initiator_again_witness :
  let st := server (run an_env [HttpChatNew an_id 0; Connection "a" a_request;
                                JoinSession "a" an_id "ua" 1 1] initial) in
  (on_join_session an_env a_request "a" an_id "ua2" 5 5
     (mkClosure (Some an_id) (Some "ua")) st).1.2
  = JoinSuccess "ua2" true (Some (shareLink an_env a_request an_id)).
Proof.
  intros st.
  assert (L : sessions st !! an_id = Some (mkSession {["a"]} 0 1 2)).
  { vm_compute. reflexivity. }
  destruct (join_again_is_initiator_again an_env a_request "a" an_id "ua2"
              5 5 (mkClosure (Some an_id) (Some "ua")) st _ eq_refl L eq_refl
              eq_refl) as [H _].
  - unfold expiryHorizon, SESSION_EXPIRY_HOURS. simpl. lia.
  - exact H.
Defined.

(** ** Connections and rooms *)

Lemma room_members_insert st st' sid X :
  rooms st' = <[sid := X]> (rooms st) ->
  forall i, room_members st' i = if decide (sid = i) then X else room_members st i.
Proof.
  intros R i. unfold room_members. rewrite R, lookup_insert.
  by destruct (decide (sid = i)).
Qed.

Lemma cc_same_rooms w st' :
  rooms st' = rooms (server w) ->
  closures_consistent w -> closures_consistent (mkWorld st' (conns w)).
Proof.
  intros R [A B]. split.
  - intros socketId req c L. specialize (A socketId req c L). simpl in *.
    destruct (currentSessionId c); [|done].
    by rewrite (room_members_eq (server w) st' _ R).
  - intros sid socketId. simpl.
    rewrite (room_members_eq (server w) st' _ R). apply B.
Qed.

Lemma cc_keep w socketId req c st' :
  conns w !! socketId = Some (req, c) ->
  rooms st' = rooms (server w) ->
  closures_consistent w ->
  closures_consistent (mkWorld st' (<[socketId := (req, c)]> (conns w))).
Proof.
  intros L R H. rewrite insert_id by done. by apply cc_same_rooms.
Qed.

Lemma cc_enter w socketId req c st' sid uid :
  conns w !! socketId = Some (req, c) ->
  rooms st' = <[sid := {[socketId]} ∪ room_members (server w) sid]>
                (rooms (server w)) ->
  closures_consistent w ->
  closures_consistent
    (mkWorld st' (<[socketId := (req, mkClosure (Some sid) (Some uid))]> (conns w))).
Proof.
  intros L R [A B]. pose proof (room_members_insert (server w) st' sid _ R) as RM.
  split.
  - intros x req' c' Lx. simpl in *.
    apply lookup_insert_Some in Lx as [[<- [= <- <-]]|[N Lx]]; simpl.
    + rewrite RM, decide_True by done. split; [set_solver | by eexists].
    + specialize (A x req' c' Lx).
      destruct (currentSessionId c') as [sid'|]; [|done].
      destruct A as [A1 A2]. split; [|done]. rewrite RM.
      destruct (decide (sid = sid')) as [<-|]; [set_solver | done].
  - intros i x. simpl. rewrite RM. intros M.
    apply lookup_insert_is_Some.
    destruct (decide (socketId = x)) as [|Nx]; [by left | right].
    split; [done|]. apply (B i).
    destruct (decide (sid = i)) as [<-|]; [set_solver | done].
Qed.

Lemma on_encrypted_message_rooms socketId ed iv tag pk t1 t2 t3 c st :
  rooms (on_encrypted_message socketId ed iv tag pk t1 t2 t3 c st).2 = rooms st.
Proof.
  unfold on_encrypted_message.
  destruct (truthy_id (currentSessionId c)) as [sid|]; [|done].
  unfold_M. destruct (sessions st !! sid) as [s|] eqn:L; simpl; [|done].
  destruct (expired t1 s); simpl; [done|]. rewrite L.
  case_bool_decide; simpl; [|done]. by rewrite L.
Qed.

Lemma on_disconnect_rooms socketId c st :
  rooms (on_disconnect socketId c st).2 = rooms st.
Proof.
  unfold on_disconnect.
  destruct (truthy_id (currentSessionId c)) as [sid|]; [|done].
  unfold_M. destruct (sessions st !! sid) as [s|]; simpl; [|done].
  by destruct (size (users s ∖ {[socketId]}) =? 0)%nat.
Qed.

Lemma step_cc env ev w :
  closures_consistent w -> closures_consistent (step env ev w).
Proof.
  intros H. destruct ev; simpl.
  - by apply cc_same_rooms.
  - apply cc_same_rooms; [|done].
    unfold session_timer, bind, sessions_has, sessions_get, sessions_delete, ret.
    simpl. case_bool_decide; simpl; [|done].
    destruct (sessions (server w) !! sessionId) as [s0|]; simpl; [|done].
    by destruct (expired now s0).
  - by apply cc_same_rooms.
  - destruct (conns w !! socketId) eqn:L; [done|].
    destruct H as [A B]. split.
    + intros x req' c' Lx. simpl in *.
      apply lookup_insert_Some in Lx as [[<- [= <- <-]]|[N Lx]]; [done|].
      by apply (A x req' c').
    + intros sid x M. simpl in *. apply lookup_insert_is_Some.
      destruct (decide (socketId = x)); [by left | right]. split; [done|].
      by apply (B sid).
  - unfold with_conn. destruct (conns w !! socketId) as [[req c]|] eqn:L; [|done].
    pose proof (on_create_session_rooms env req socketId newSessionId
                  newUserId t_create t_touch c (server w)) as R.
    assert (C : (on_create_session env req socketId newSessionId newUserId
                   t_create t_touch c (server w)).1.1
                = mkClosure (Some newSessionId) (Some newUserId)).
    { unfold on_create_session. rewrite !bind_run. by unfold createSession, ret. }
    destruct (on_create_session _ _ _ _ _ _ _ _ _) as [[c' a] st'].
    simpl in *. subst c'. by apply (cc_enter w socketId req c).
  - unfold with_conn. destruct (conns w !! socketId) as [[req c]|] eqn:L; [|done].
    pose proof (on_join_session_rooms env req socketId sessionId
                  newUserId t_check t_touch c (server w)) as R.
    pose proof (on_join_session_closure env req socketId sessionId
                  newUserId t_check t_touch c (server w)) as C.
    destruct (on_join_session _ _ _ _ _ _ _ _ _) as [[c' a] st'].
    simpl in *. subst c'.
    destruct (isValidSessionId sessionId && (canJoinSession sessionId t_check (server w)).1);
      [by apply (cc_enter w socketId req c) | by apply cc_keep].
  - unfold with_conn. destruct (conns w !! socketId) as [[req c]|] eqn:L; [|done].
    unfold keep, bind, ret, on_key_exchange.
    destruct (truthy_id (currentSessionId c)); simpl; by apply cc_keep.
  - unfold with_conn. destruct (conns w !! socketId) as [[req c]|] eqn:L; [|done].
    unfold keep. rewrite bind_run. unfold ret. cbn [fst snd].
    apply cc_keep; [done| |done]. apply on_encrypted_message_rooms.
  - unfold with_conn. destruct (conns w !! socketId) as [[req c]|] eqn:L; [|done].
    unfold keep, bind, ret, on_typing.
    destruct (truthy_id (currentSessionId c)); simpl; by apply cc_keep.
  - destruct (conns w !! socketId) as [[req c]|] eqn:L; [|done]. simpl.
    rewrite bind_run. cbn [fst snd].
    assert (RM : forall i, room_members
                   (on_disconnect socketId c (leave_all socketId (server w)).2).2 i
                 = room_members (server w) i ∖ {[socketId]}).
    { intros i. unfold room_members. rewrite on_disconnect_rooms.
      unfold leave_all. simpl. rewrite lookup_fmap.
      destruct (rooms (server w) !! i); simpl; [done | set_solver]. }
    destruct H as [A B]. split.
    + intros x req' c' Lx. simpl in *.
      apply lookup_delete_Some in Lx as [N Lx].
      specialize (A x req' c' Lx).
      destruct (currentSessionId c') as [sid'|]; [|done].
      destruct A as [A1 A2]. split; [|done]. rewrite RM. set_solver.
    + intros sid x. simpl. rewrite RM. intros M.
      apply elem_of_difference in M as [M Nx].
      rewrite lookup_delete_ne by set_solver. by apply (B sid).
Qed.

(** X10.  In every state that the server reaches, a connection whose
    closure holds a session id is in the socket.io room of that id and has
    a user id, a connection whose closure holds none has no user id, and
    every socket in a room is an open connection: 'disconnect' leaves no
    socket behind in a room. *)
Theorem connections_and_rooms (env : Env) (evs : list Event) :
  let w := run env evs initial in
  (forall socketId req c,
     conns w !! socketId = Some (req, c) ->
     match currentSessionId c with
     | Some sid =>
         socketId ∈ room_members (server w) sid /\ is_Some (userId c)
     | None => userId c = None
     end) /\
  (forall sid socketId,
     socketId ∈ room_members (server w) sid -> is_Some (conns w !! socketId)).
Proof.
  assert (K : forall w, closures_consistent w ->
                closures_consistent (run env evs w)).
  { induction evs as [|ev evs IH]; intros w H; simpl; [done|].
    by apply IH, step_cc. }
  apply (K initial). split.
  - intros socketId req c L. simpl in L. by rewrite lookup_empty in L.
  - intros sid socketId M. unfold room_members in M. simpl in M.
    rewrite lookup_empty in M. simpl in M. set_solver.
Qed.

End RelayMore.

(* ===================================================================== *)
(** * Part VI.  Further properties of the engine                          *)
(* ===================================================================== *)

Module EngineMore.
Import Engine Exchange EngineFacts.

Local Open Scope N_scope.
Local Open Scope list_scope.

(** ** base64 of buffers *)

Lemma b64_length l :
  (length (b64_sextets l) + length (b64_padding (length l))
   = 4 * ((length l + 2) / 3))%nat.
Proof.
  induction l as [|a|a b|a b c l IH] using list_ind3; try done.
  change (b64_sextets (a :: b :: c :: l)) with
    (a / 4 :: (a mod 4) * 16 + b / 16 :: (b mod 16) * 4 + c / 64 :: c mod 64
       :: b64_sextets l).
  assert (E : b64_padding (length (a :: b :: c :: l)) = b64_padding (length l)).
  { unfold b64_padding. simpl length.
    replace (S (S (S (length l))) mod 3)%nat with (length l mod 3)%nat; [done|].
    nlia. }
  rewrite E. simpl length. nlia.
Qed.

Lemma string_length_of_list l : String.length (string_of_list_ascii l) = length l.
Proof. induction l as [|a l IH]; simpl; [done | by rewrite IH]. Qed.

Lemma arrayBufferToBase64_length (buffer : list byte) :
  String.length (arrayBufferToBase64 buffer)
    = (4 * ((length buffer + 2) / 3))%nat.
Proof.
  unfold arrayBufferToBase64, btoa, string_of_list_byte.
  rewrite string_length_of_list, length_app, length_map.
  rewrite list_ascii_of_string_of_list_ascii, b64_length.
  by rewrite !length_map.
Qed.

(** X11.  arrayBufferToBase64 and base64ToArrayBuffer: for every buffer,
    decoding the encoding gives the buffer back; the encoding has four
    characters for every three bytes, the last group completed, and
    consists of characters of the base64 alphabet and of [=]. *)
Theorem buffer_base64 (buffer : list byte) :
  base64ToArrayBuffer (arrayBufferToBase64 buffer) = Some buffer /\
  String.length (arrayBufferToBase64 buffer)
    = (4 * ((length buffer + 2) / 3))%nat /\
  Forall (fun a => is_Some (b64_index a) \/ a = "="%char)
         (list_ascii_of_string (arrayBufferToBase64 buffer)).
Proof.
  split; [|split].
  - unfold base64ToArrayBuffer, arrayBufferToBase64.
    rewrite atob_btoa. simpl. by rewrite list_byte_of_string_of_list_byte.
  - apply arrayBufferToBase64_length.
  - unfold arrayBufferToBase64, btoa.
    rewrite list_ascii_of_string_of_list_ascii.
    set (bytes := map N_of_ascii (list_ascii_of_string (string_of_list_byte buffer))).
    assert (B : Forall (fun n => n < 256) bytes).
    { apply Forall_map, Forall_forall. intros a _. apply N_ascii_bounded. }
    apply Forall_app. split.
    + apply Forall_map. eapply Forall_impl; [exact (b64_sextets_bound bytes B)|].
      intros n Hn. left. rewrite b64_index_char by done. by eexists.
    + unfold b64_padding.
      destruct (length bytes mod 3)%nat as [|[|[|k]]]; repeat constructor;
        by right.
Qed.

(** ** The text codecs *)

Lemma scalar_values_of_units n : forall s,
  (length s <= n)%nat -> code_units s ->
  Forall scalar (to_scalar_values s) /\
  length (concat (map utf16_units (to_scalar_values s))) = length s.
Proof.
  induction n as [|n IH]; intros [|u rest] L U; try done; simpl in L; [lia|].
  apply Forall_cons_1 in U as [Hu U].
  cbn [to_scalar_values].
  assert (FFFD : scalar 0xFFFD) by (unfold scalar; lia).
  assert (U1 : utf16_units 0xFFFD = [0xFFFD]) by done.
  destruct (is_high_surrogate u) eqn:Hh.
  - destruct rest as [|v rest'].
    + split; [by repeat constructor | done].
    + destruct (is_low_surrogate v) eqn:Hl.
      * apply Forall_cons_1 in U as [Hv U'].
        destruct (IH rest') as [F C]; [simpl in L; lia | done |].
        unfold is_high_surrogate, is_low_surrogate in Hh, Hl.
        apply andb_true_iff in Hh as [H1 H2]. apply andb_true_iff in Hl as [H3 H4].
        apply N.leb_le in H1, H2, H3, H4.
        split; [constructor; [unfold scalar; nlia | done]|].
        cbn [map concat]. rewrite length_app, C. unfold utf16_units.
        destruct (N.ltb_spec (0x10000 + (u - 0xD800) * 0x400 + (v - 0xDC00)) 0x10000);
          [nlia | done].
      * destruct (IH (v :: rest')) as [F C]; [simpl in *; lia | done |].
        split; [by constructor|].
        cbn [map concat]. by rewrite length_app, C, U1.
  - destruct (IH rest) as [F C]; [lia | done |].
    destruct (is_low_surrogate u) eqn:Hl.
    + split; [by constructor|]. cbn [map concat]. by rewrite length_app, C, U1.
    + split.
      * constructor; [|done]. unfold scalar.
        unfold is_high_surrogate, is_low_surrogate in Hh, Hl.
        destruct (N.leb_spec 0xD800 u), (N.leb_spec u 0xDBFF),
                 (N.leb_spec 0xDC00 u), (N.leb_spec u 0xDFFF);
          simpl in Hh, Hl; try discriminate; lia.
      * cbn [map concat]. rewrite length_app, C. unfold utf16_units.
        by destruct (N.ltb_spec u 0x10000); [|lia].
Qed.

Lemma fixed_by_codecs_well_formed n : forall s,
  (length s <= n)%nat -> code_units s ->
  concat (map utf16_units (to_scalar_values s)) = s ->
  well_formed s = true.
Proof.
  induction n as [|n IH]; intros [|u rest] L U E; try done; simpl in L; [lia|].
  apply Forall_cons_1 in U as [Hu U].
  cbn [to_scalar_values well_formed] in *.
  assert (U1 : utf16_units 0xFFFD = [0xFFFD]) by done.
  destruct (is_high_surrogate u) eqn:Hh.
  - assert (u <> 0xFFFD).
    { unfold is_high_surrogate in Hh. apply andb_true_iff in Hh as [_ H2].
      apply N.leb_le in H2. lia. }
    destruct rest as [|v rest'].
    + cbn [map concat] in E. rewrite U1 in E. simpl in E. congruence.
    + destruct (is_low_surrogate v) eqn:Hl.
      * apply Forall_cons_1 in U as [Hv U']. simpl.
        apply (IH rest'); [simpl in L; lia | done |].
        cbn [map concat] in E. unfold utf16_units at 1 in E.
        unfold is_high_surrogate, is_low_surrogate in Hh, Hl.
        apply andb_true_iff in Hh as [H1 H2]. apply andb_true_iff in Hl as [H3 H4].
        apply N.leb_le in H1, H2, H3, H4.
        destruct (N.ltb_spec (0x10000 + (u - 0xD800) * 0x400 + (v - 0xDC00)) 0x10000);
          [nlia|].
        cbn [app] in E. by injection E.
      * cbn [map concat] in E. rewrite U1 in E. simpl in E. congruence.
  - destruct (is_low_surrogate u) eqn:Hl.
    + cbn [map concat] in E. rewrite U1 in E. simpl in E.
      unfold is_low_surrogate in Hl. apply andb_true_iff in Hl as [_ H2].
      apply N.leb_le in H2. injection E as E1 _. lia.
    + simpl. apply N.ltb_lt in Hu. rewrite Hu. simpl.
      apply (IH rest); [lia | done |].
      cbn [map concat] in E. unfold utf16_units at 1 in E.
      rewrite Hu in E. cbn [app] in E. by injection E.
Qed.

Lemma first_scalar_value s :
  code_units s ->
  match to_scalar_values s with
  | c :: _ => (c =? 0xFEFF) = starts_with_bom s
  | [] => starts_with_bom s = false
  end.
Proof.
  intros U. destruct s as [|u rest]; [done|].
  cbn [to_scalar_values starts_with_bom].
  destruct (is_high_surrogate u) eqn:Hh.
  - unfold is_high_surrogate in Hh. apply andb_true_iff in Hh as [H1 H2].
    apply N.leb_le in H1, H2.
    assert (Nu : (u =? 0xFEFF) = false) by (apply N.eqb_neq; lia).
    destruct rest as [|v rest']; [by rewrite Nu|].
    destruct (is_low_surrogate v) eqn:Hl; [|by rewrite Nu].
    rewrite Nu. apply N.eqb_neq.
    unfold is_low_surrogate in Hl. apply andb_true_iff in Hl as [H3 H4].
    apply N.leb_le in H3, H4. nlia.
  - destruct (is_low_surrogate u) eqn:Hl; [|done].
    unfold is_low_surrogate in Hl. apply andb_true_iff in Hl as [H3 H4].
    apply N.leb_le in H3, H4. symmetry. apply N.eqb_neq. lia.
Qed.

Lemma strip_bom_scalars cps :
  Forall scalar cps ->
  strip_bom (utf8_encode cps) = utf8_encode (without_mark cps).
Proof.
  intros F. destruct F as [|c cps Hc F]; [done|].
  unfold without_mark. destruct (N.eqb_spec c 0xFEFF) as [->|N].
  - done.
  - unfold utf8_encode. cbn [map concat]. by apply strip_bom_code_point.
Qed.

(** The decoder applied to the encoder, on any string. *)
Lemma codecs_compose (s : DOMString) :
  code_units s ->
  TextDecoder_decode (TextEncoder_encode s)
    = concat (map utf16_units (without_mark (to_scalar_values s))).
Proof.
  intros U.
  destruct (scalar_values_of_units (length s) s (le_n _) U) as [F _].
  unfold TextDecoder_decode, TextEncoder_encode.
  rewrite map_to_N_byte_of_N by by apply utf8_encode_bound.
  rewrite strip_bom_scalars by done.
  rewrite utf8_round_trip; [done|].
  destruct F as [|c cps Hc F]; [constructor|].
  unfold without_mark. destruct (c =? 0xFEFF); [done | by constructor].
Qed.

(** X12.  stringToArrayBuffer followed by arrayBufferToString gives a
    string back unchanged exactly when it is well-formed text (every
    surrogate in a pair) that does not begin with U+FEFF; in every case
    the result is at most one code unit shorter and never longer. *)
Theorem text_codecs_round_trip_iff (s : DOMString) :
  code_units s ->
  (arrayBufferToString (stringToArrayBuffer s) = s <->
     well_formed s = true /\ starts_with_bom s = false) /\
  length (arrayBufferToString (stringToArrayBuffer s))
    = (length s - if starts_with_bom s then 1 else 0)%nat.
Proof.
  intros U. unfold arrayBufferToString, stringToArrayBuffer.
  rewrite codecs_compose by done.
  destruct (scalar_values_of_units (length s) s (le_n _) U) as [F Len].
  pose proof (first_scalar_value s U) as Hd.
  assert (Len' : length (concat (map utf16_units (without_mark (to_scalar_values s))))
                 = (length s - if starts_with_bom s then 1 else 0)%nat).
  { destruct (to_scalar_values s) as [|c cps]; simpl in *.
    - rewrite Hd. lia.
    - rewrite <- Hd. destruct (N.eqb_spec c 0xFEFF) as [->|N].
      + rewrite length_app in Len. simpl in Len. lia.
      + cbn [map concat]. lia. }
  split; [|exact Len'].
  split.
  - intros E. destruct (starts_with_bom s) eqn:B.
    + exfalso. rewrite E in Len'. destruct s; [done|]. simpl in Len'. lia.
    + split; [|done].
      apply (fixed_by_codecs_well_formed (length s)); [done|done|].
      rewrite <- E at 2. f_equal. f_equal.
      destruct (to_scalar_values s) as [|c cps]; [done|].
      simpl. by rewrite Hd.
  - intros [W B]. rewrite <- codecs_compose by done. by apply text_round_trip.
Qed.

Lemma text_codecs_round_trip_iff_witness :
  code_units a_marked_message /\
  length (arrayBufferToString (stringToArrayBuffer a_marked_message)) = 2%nat.
Proof.
  assert (U : code_units a_marked_message)
    by (repeat constructor; reflexivity).
  split; [exact U|].
  destruct (text_codecs_round_trip_iff a_marked_message U) as [_ L].
  exact L.
Defined.

(** ** Key exchange *)

Lemma product_crypto_ecdh : ecdh_law product_crypto.
Proof.
  split.
  - intros seed priv pub G. injection G as <- <-.
    eexists. split; [reflexivity|].
    cbn [importKey_ECDH product_crypto]. f_equal.
    apply to_N_byte_of_N. apply N.mod_lt. lia.
  - intros seedA seedB privA pubA privB pubB len GA GB.
    injection GA as <- <-. injection GB as <- <-.
    cbn [deriveBits_ECDH product_crypto]. by rewrite N.mul_comm.
Qed.

Lemma product_crypto_gcm : gcm_law product_crypto.
Proof. exact plain_crypto_law. Qed.

Section Agreement.
Context {SC : SubtleCrypto}.

Lemma initializeKeyExchange_ok seed (e e' : E2EE) p :
  initializeKeyExchange seed e = (Ok p, e') ->
  exists priv pub raw,
    generateKey_ECDH seed = Some (priv, pub) /\
    exportKey_raw pub = Some raw /\
    p = arrayBufferToBase64 raw /\
    e' = mkE2EE (Some (priv, pub)) (sharedSecret e) (encryptionKey e).
Proof.
  unfold initializeKeyExchange. intros H.
  destruct (generateKey_ECDH seed) as [[priv pub]|]; [|discriminate].
  cbn [snd] in H. destruct (exportKey_raw pub) as [raw|] eqn:X; [|discriminate].
  injection H as <- <-. by exists priv, pub, raw.
Qed.

Lemma encrypt_by_key (a b : E2EE) nonce message :
  encryptionKey a = encryptionKey b ->
  encrypt nonce message a = encrypt nonce message b.
Proof. unfold encrypt. by intros ->. Qed.

Lemma decrypt_by_key (a b : E2EE) data ivBase64 tagBase64 :
  encryptionKey a = encryptionKey b ->
  decrypt data ivBase64 tagBase64 a = decrypt data ivBase64 tagBase64 b.
Proof. unfold decrypt. by intros ->. Qed.

(** X13.  initializeKeyExchange replaces the key pair and nothing else:
    the encryption key and the shared secret of an earlier exchange stay,
    so encrypt and decrypt go on as before.  The string it returns is the
    base64 of the raw export of the new public key; when it throws, the
    error is that of the platform. *)
Theorem initializeKeyExchange_spec (seed : list byte) (e : E2EE) :
  encryptionKey (initializeKeyExchange seed e).2 = encryptionKey e /\
  sharedSecret (initializeKeyExchange seed e).2 = sharedSecret e /\
  (forall nonce message,
     encrypt nonce message (initializeKeyExchange seed e).2
       = encrypt nonce message e) /\
  (forall data ivBase64 tagBase64,
     decrypt data ivBase64 tagBase64 (initializeKeyExchange seed e).2
       = decrypt data ivBase64 tagBase64 e) /\
  match (initializeKeyExchange seed e).1 with
  | Ok p =>
      exists priv pub raw,
        generateKey_ECDH seed = Some (priv, pub) /\
        keyPair (initializeKeyExchange seed e).2 = Some (priv, pub) /\
        exportKey_raw pub = Some raw /\
        base64ToArrayBuffer p = Some raw
  | Throw ex =>
      ex = Rejected /\
      (generateKey_ECDH seed = None -> (initializeKeyExchange seed e).2 = e)
  end.
Proof.
  assert (K : encryptionKey (initializeKeyExchange seed e).2 = encryptionKey e).
  { unfold initializeKeyExchange.
    destruct (generateKey_ECDH seed) as [kp|]; [|done].
    by destruct (exportKey_raw kp.2). }
  split; [exact K|]. split; [|split; [|split]].
  - unfold initializeKeyExchange.
    destruct (generateKey_ECDH seed) as [kp|]; [|done].
    by destruct (exportKey_raw kp.2).
  - intros. by apply encrypt_by_key.
  - intros. by apply decrypt_by_key.
  - unfold initializeKeyExchange.
    destruct (generateKey_ECDH seed) as [[priv pub]|] eqn:G; [|done].
    cbn [snd]. destruct (exportKey_raw pub) as [raw|] eqn:X.
    + cbn [fst snd keyPair]. exists priv, pub, raw.
      by rewrite base64_round_trip.
    + cbn [fst]. split; [done | discriminate].
Qed.

(** What each party computes from the key of the other. *)
Lemma agreement seedA seedB (a0 b0 a b : E2EE) pa pb :
  ecdh_law SC ->
  initializeKeyExchange seedA a0 = (Ok pa, a) ->
  initializeKeyExchange seedB b0 = (Ok pb, b) ->
  (computeSharedSecret pb a).1 = (computeSharedSecret pa b).1 /\
  ((computeSharedSecret pb a).1 = true ->
   exists bits key,
     sharedSecret (computeSharedSecret pb a).2 = Some bits /\
     sharedSecret (computeSharedSecret pa b).2 = Some bits /\
     encryptionKey (computeSharedSecret pb a).2 = Some key /\
     encryptionKey (computeSharedSecret pa b).2 = Some key).
Proof.
  intros [L1 L2] IA IB.
  apply initializeKeyExchange_ok in IA as (privA & pubA & rawA & GA & XA & -> & ->).
  apply initializeKeyExchange_ok in IB as (privB & pubB & rawB & GB & XB & -> & ->).
  destruct (L1 _ _ _ GA) as (rA & XA' & MA). rewrite XA in XA'. injection XA' as <-.
  destruct (L1 _ _ _ GB) as (rB & XB' & MB). rewrite XB in XB'. injection XB' as <-.
  pose proof (L2 _ _ _ _ _ _ 256 GA GB) as D.
  unfold computeSharedSecret. rewrite !base64_round_trip, MA, MB.
  cbn [keyPair fst snd]. rewrite D.
  destruct (deriveBits_ECDH pubA privB 256) as [bits|]; [|done].
  destruct (importKey_PBKDF2 bits) as [km|]; [|done].
  destruct (deriveKey_PBKDF2 _ _ _ km _) as [key|]; [|done].
  cbn [fst snd sharedSecret encryptionKey].
  split; [done|]. intros _. by exists bits, key.
Qed.

(** X14.  Key agreement.  Two instances that have each run
    initializeKeyExchange and are given the string that the other got
    return the same from computeSharedSecret; when that is true they are
    both ready and hold the same shared secret and the same encryption
    key. *)
Theorem key_agreement (seedA seedB : list byte) (a0 b0 a b : E2EE)
    (pa pb : string) :
  ecdh_law SC ->
  initializeKeyExchange seedA a0 = (Ok pa, a) ->
  initializeKeyExchange seedB b0 = (Ok pb, b) ->
  (computeSharedSecret pb a).1 = (computeSharedSecret pa b).1 /\
  ((computeSharedSecret pb a).1 = true ->
   isReady (computeSharedSecret pb a).2 = true /\
   isReady (computeSharedSecret pa b).2 = true /\
   sharedSecret (computeSharedSecret pb a).2
     = sharedSecret (computeSharedSecret pa b).2 /\
   encryptionKey (computeSharedSecret pb a).2
     = encryptionKey (computeSharedSecret pa b).2).
Proof.
  intros L IA IB.
  destruct (agreement seedA seedB a0 b0 a b pa pb L IA IB) as [E T].
  split; [exact E|]. intros Ok.
  destruct (T Ok) as (bits & key & SA & SB & KA & KB).
  unfold isReady. rewrite SA, SB, KA, KB. done.
Qed.

(** X15.  After the exchange, what one party encrypts the other
    decrypts: for text that is well formed and does not begin with
    U+FEFF, decrypt on the second instance gives the message that encrypt
    on the first was given. *)
Theorem exchanged_keys_round_trip (seedA seedB : list byte)
    (a0 b0 a b : E2EE) (pa pb : string) (nonce : list byte)
    (message : DOMString) :
  ecdh_law SC -> gcm_law SC ->
  initializeKeyExchange seedA a0 = (Ok pa, a) ->
  initializeKeyExchange seedB b0 = (Ok pb, b) ->
  (computeSharedSecret pb a).1 = true ->
  length nonce = 12%nat ->
  well_formed message = true ->
  starts_with_bom message = false ->
  exists env,
    encrypt nonce message (computeSharedSecret pb a).2 = Ok env /\
    decrypt (encryptedData env) (iv env) (tag env) (computeSharedSecret pa b).2
      = Ok message.
Proof.
  intros L G IA IB T Ln W B.
  destruct (agreement seedA seedB a0 b0 a b pa pb L IA IB) as [_ A].
  destruct (A T) as (bits & key & _ & _ & KA & KB).
  destruct (envelope_round_trip _ key nonce message G KA Ln) as (env & E & D).
  exists env. split; [exact E|].
  rewrite (decrypt_by_key _ (computeSharedSecret pb a).2) by by rewrite KA, KB.
  by rewrite D, text_round_trip.
Qed.


(** X17.  A computeSharedSecret that returns false leaves the key pair
    and the encryption key as they were: an instance that was ready stays
    ready with its key, and encrypt and decrypt answer as before. *)
Theorem failed_exchange_keeps_key (peer : string) (e : E2EE) :
  (computeSharedSecret peer e).1 = false ->
  keyPair (computeSharedSecret peer e).2 = keyPair e /\
  encryptionKey (computeSharedSecret peer e).2 = encryptionKey e /\
  isReady (computeSharedSecret peer e).2 = isReady e /\
  (forall nonce message,
     encrypt nonce message (computeSharedSecret peer e).2
       = encrypt nonce message e) /\
  (forall data ivBase64 tagBase64,
     decrypt data ivBase64 tagBase64 (computeSharedSecret peer e).2
       = decrypt data ivBase64 tagBase64 e).
Proof.
  intros F.
  assert (K : encryptionKey (computeSharedSecret peer e).2 = encryptionKey e).
  { apply (computeSharedSecret_false peer e).
    rewrite <- F. by destruct (computeSharedSecret peer e). }
  split; [|split; [exact K|split; [|split]]].
  - clear. unfold computeSharedSecret.
    destruct (base64ToArrayBuffer peer) as [buf|]; [|done].
    destruct (importKey_ECDH buf) as [pk|]; [|done].
    destruct (keyPair e) as [kp|] eqn:KP; [|done].
    destruct (deriveBits_ECDH pk kp.1 256) as [bits|]; [|done].
    destruct (importKey_PBKDF2 bits) as [km|]; [|done].
    by destruct (deriveKey_PBKDF2 _ _ _ km _).
  - unfold isReady. by rewrite K.
  - intros. by apply encrypt_by_key.
  - intros. by apply decrypt_by_key.
Qed.

Lemma call_without_key_pair (c : Call) (e : E2EE) :
  keyPair e = None ->
  match c with InitializeKeyExchange _ => False | _ => True end ->
  (call c e).1 = false /\ keyPair (call c e).2 = None /\
  (encryptionKey e = None -> encryptionKey (call c e).2 = None).
Proof.
  intros KP NI. destruct c; try done.
  cbn [call]. unfold computeSharedSecret. rewrite KP.
  destruct (base64ToArrayBuffer peerPublicKeyBase64) as [buf|]; [|done].
  by destruct (importKey_ECDH buf).
Qed.

(** X18.  No exchange without a key pair.  On an instance on which
    initializeKeyExchange was never called, no computeSharedSecret
    returns true, whatever the peer key and whatever else is called; the
    instance never becomes ready. *)
Theorem no_exchange_without_key_pair (cs : list Call) :
  Forall (fun c => match c with InitializeKeyExchange _ => False | _ => True end)
         cs ->
  (calls cs new_E2EE).1 = false /\
  isReady (calls cs new_E2EE).2 = false.
Proof.
  intros F.
  assert (G : forall e, keyPair e = None -> encryptionKey e = None ->
            (calls cs e).1 = false /\ encryptionKey (calls cs e).2 = None).
  { induction F as [|c cs Hc F IH]; intros e KP K; [done|].
    cbn [calls].
    destruct (call_without_key_pair c e KP Hc) as (R & KP' & K').
    destruct (call c e) as [ok e1]. cbn [fst snd] in *.
    destruct (IH e1 KP' (K' K)) as [R' K''].
    destruct (calls cs e1) as [ok' e2]. cbn [fst snd] in *.
    by rewrite R, R'. }
  destruct (G new_E2EE eq_refl eq_refl) as [R K].
  split; [exact R|]. unfold isReady. by rewrite K.
Qed.

End Agreement.

Lemma key_agreement_witness :
  let a := (@initializeKeyExchange product_crypto [Byte.x07] new_E2EE).2 in
  let b := (@initializeKeyExchange product_crypto [Byte.x01; Byte.x02] new_E2EE).2 in
  (@computeSharedSecret product_crypto "Ag==" a).1
    = (@computeSharedSecret product_crypto "AQ==" b).1 /\
  ((@computeSharedSecret product_crypto "Ag==" a).1 = true ->
   isReady (@computeSharedSecret product_crypto "Ag==" a).2 = true /\
   isReady (@computeSharedSecret product_crypto "AQ==" b).2 = true /\
   sharedSecret (@computeSharedSecret product_crypto "Ag==" a).2
     = sharedSecret (@computeSharedSecret product_crypto "AQ==" b).2 /\
   encryptionKey (@computeSharedSecret product_crypto "Ag==" a).2
     = encryptionKey (@computeSharedSecret product_crypto "AQ==" b).2).
Proof.
  apply (@key_agreement product_crypto [Byte.x07] [Byte.x01; Byte.x02]
           new_E2EE new_E2EE _ _ "AQ==" "Ag==" product_crypto_ecdh).
  - vm_compute. reflexivity.
  - vm_compute. reflexivity.
Defined.

Lemma exchanged_keys_round_trip_witness :
  let a := (@initializeKeyExchange product_crypto [Byte.x07] new_E2EE).2 in
  let b := (@initializeKeyExchange product_crypto [Byte.x01; Byte.x02] new_E2EE).2 in
  exists env,
    encrypt a_nonce a_message (@computeSharedSecret product_crypto "Ag==" a).2
      = Ok env /\
    decrypt (encryptedData env) (iv env) (tag env)
            (@computeSharedSecret product_crypto "AQ==" b).2
      = Ok a_message.
Proof.
  apply (@exchanged_keys_round_trip product_crypto [Byte.x07]
           [Byte.x01; Byte.x02] new_E2EE new_E2EE _ _ "AQ==" "Ag==" a_nonce
           a_message product_crypto_ecdh product_crypto_gcm).
  - vm_compute. reflexivity.
  - vm_compute. reflexivity.
  - vm_compute. reflexivity.
  - reflexivity.
  - reflexivity.
  - reflexivity.
Defined.


Lemma failed_exchange_keeps_key_witness :
  (@computeSharedSecret plain_crypto "!" a_ready_engine).1 = false /\
  isReady (@computeSharedSecret plain_crypto "!" a_ready_engine).2
    = isReady a_ready_engine.
Proof.
  assert (F : (@computeSharedSecret plain_crypto "!" a_ready_engine).1 = false)
    by (vm_compute; reflexivity).
  split; [exact F|].
  destruct (@failed_exchange_keeps_key plain_crypto "!" a_ready_engine F)
    as (_ & _ & R & _).
  exact R.
Defined.

Lemma no_exchange_without_key_pair_witness :
  (@calls plain_crypto [ComputeSharedSecret a_peer_key; IsReady; Reset;
                        ComputeSharedSecret "!"] new_E2EE).1 = false /\
  isReady (@calls plain_crypto [ComputeSharedSecret a_peer_key; IsReady; Reset;
                                ComputeSharedSecret "!"] new_E2EE).2 = false.
Proof.
  apply (@no_exchange_without_key_pair plain_crypto).
  repeat constructor.
Defined.


End EngineMore.

(* ===================================================================== *)
(** * Part VII.  Properties of the page                                   *)
(* ===================================================================== *)

Module ClientFacts.
Import Relay Engine Exchange Client RelayFacts EngineFacts EngineMore.

#[local] Set Warnings "-clear-no-such-hyp".

Local Open Scope N_scope.
Local Open Scope list_scope.

(** ** trim *)

Lemma trimStart_snoc l u :
  is_white_space u = false ->
  exists l', trimStart (l ++ [u]) = l' ++ [u].
Proof.
  intros Hu. induction l as [|v l IH]; simpl.
  - rewrite Hu. by exists [].
  - destruct (is_white_space v); [exact IH | by exists (v :: l)].
Qed.

Lemma trimStart_head s :
  match trimStart s with
  | u :: _ => is_white_space u = false
  | [] => True
  end.
Proof.
  induction s as [|u s IH]; simpl; [done|].
  destruct (is_white_space u) eqn:Hu; [exact IH | exact Hu].
Qed.

Lemma trim_head s :
  match trim s with
  | u :: _ => is_white_space u = false
  | [] => True
  end.
Proof.
  unfold trim. pose proof (trimStart_head s) as H.
  destruct (trimStart s) as [|u r]; [done|].
  cbn [rev]. destruct (trimStart_snoc (rev r) u H) as [l' ->].
  by rewrite rev_app_distr.
Qed.

Lemma trim_no_mark s : starts_with_bom (trim s) = false.
Proof.
  pose proof (trim_head s) as H. destruct (trim s) as [|u r]; [done|].
  simpl. destruct (N.eqb_spec u 0xFEFF) as [->|]; [discriminate | done].
Qed.

(** ** Typing notices *)

Lemma alternates_snoc l : forall expected b,
  alternates expected (l ++ [b])
  = alternates expected l &&
    Bool.eqb b (if Nat.even (length l) then expected else negb expected).
Proof.
  induction l as [|x l IH]; intros expected b.
  - simpl. by rewrite andb_true_r.
  - cbn [app alternates length]. rewrite IH, <- andb_assoc. f_equal. f_equal.
    rewrite Nat.even_succ, <- Nat.negb_even.
    by destruct (Nat.even (length l)), expected.
Qed.

Section Page.
Context {SC : SubtleCrypto}.

Lemma typing_notices_snoc (l : list Emit) x :
  typing_notices (l ++ [x])
  = typing_notices l ++ match x with EmitTyping b => [b] | _ => [] end.
Proof. unfold typing_notices. rewrite flat_map_app. simpl. by rewrite app_nil_r. Qed.

Lemma stopTyping_consistent (app : Chat) :
  typing_consistent app -> typing_consistent (stopTyping app).
Proof.
  intros H. unfold stopTyping.
  destruct (isTyping app) eqn:I; [|exact H].
  destruct H as (A & P & La & T). rewrite I in P.
  unfold typing_consistent, emit. cbn [emitted isTyping typingTimeout].
  rewrite typing_notices_snoc, alternates_snoc, A, length_app, last_snoc.
  rewrite <- Nat.negb_odd, <- P. simpl.
  rewrite Nat.add_1_r, Nat.odd_succ, <- Nat.negb_odd, <- P.
  by repeat split.
Qed.

Lemma handleTyping_consistent (app : Chat) :
  typing_consistent app -> typing_consistent (handleTyping app).
Proof.
  intros (A & P & La & T). unfold handleTyping.
  destruct (isTyping app) eqn:I.
  - unfold typing_consistent. cbn [emitted isTyping typingTimeout].
    by rewrite I.
  - unfold typing_consistent, emit. cbn [emitted isTyping typingTimeout].
    rewrite typing_notices_snoc, alternates_snoc, A, length_app, last_snoc.
    rewrite <- Nat.negb_odd, <- P. simpl.
    rewrite Nat.add_1_r, Nat.odd_succ, <- Nat.negb_odd, <- P.
    by repeat split.
Qed.

(** sendMessage either leaves what the page has emitted, whether it is
    typing and its timeout as they are, or emits one envelope and stops
    typing. *)
Lemma sendMessage_cases nonce now (app : Chat) :
  (emitted (sendMessage nonce now app) = emitted app /\
   messages (sendMessage nonce now app) = messages app /\
   isTyping (sendMessage nonce now app) = isTyping app /\
   typingTimeout (sendMessage nonce now app) = typingTimeout app /\
   e2ee (sendMessage nonce now app) = e2ee app /\
   connected (sendMessage nonce now app) = connected app /\
   (trim (input_value app) = [] \/ isReady (e2ee app) = false \/
    connected app = false \/
    exists ex, encrypt nonce (trim (input_value app)) (e2ee app) = Throw ex)) \/
  (exists env,
     trim (input_value app) <> [] /\
     isReady (e2ee app) = true /\ connected app = true /\
     encrypt nonce (trim (input_value app)) (e2ee app) = Ok env /\
     sendMessage nonce now app
     = stopTyping
         (mkChat (e2ee app) (connected app) [] (isTyping app)
                 (typingTimeout app) (emitted app ++ [EmitEncryptedMessage env])
                 (messages app
                    ++ [mkShown (trim (input_value app)) now true])
                 (notices app))).
Proof.
  unfold sendMessage.
  destruct (trim (input_value app)) as [|u r] eqn:Tr; [left; by auto 10|].
  destruct (isReady (e2ee app)) eqn:R; simpl; [|left; by auto 10].
  destruct (connected app) eqn:C; simpl; [|left; by auto 10].
  destruct (encrypt nonce (u :: r) (e2ee app)) as [env|ex] eqn:E.
  - right. by exists env.
  - left. repeat split; try done. right. right. right. by exists ex.
Qed.

Lemma act_consistent (a : Action) (app : Chat) :
  typing_consistent app -> typing_consistent (act a app).
Proof.
  intros H. destruct a as [| |text nonce now]; cbn [act].
  - by apply handleTyping_consistent.
  - unfold typing_timeout_fires. destruct (typingTimeout app) eqn:TO; [|done].
    pose proof (stopTyping_consistent app H) as (A & P & La & T).
    unfold stopTyping in *. destruct (isTyping app) eqn:I.
    + unfold typing_consistent, emit in *.
      cbn [emitted isTyping typingTimeout] in *. by repeat split.
    + unfold typing_consistent in *.
      cbn [emitted isTyping typingTimeout] in *. rewrite I in *.
      by repeat split.
  - set (app0 := mkChat _ _ text _ _ _ _ _).
    assert (H0 : typing_consistent app0) by exact H.
    destruct (sendMessage_cases nonce now app0)
      as [(E & _ & I & T & _)|(env & _ & _ & _ & _ & ->)].
    + destruct H0 as (A & P & La & T0). unfold typing_consistent.
      by rewrite E, I, T.
    + apply stopTyping_consistent.
      destruct H0 as (A & P & La & T0). unfold typing_consistent.
      cbn [emitted isTyping typingTimeout app0] in *.
      by rewrite typing_notices_snoc, app_nil_r.
Qed.

(** X19.  Typing notices.  Whatever the user types and sends and
    whenever the timeout fires, the typing notices that the page emits
    alternate, the first being true; the page holds itself to be typing
    exactly when the last notice was true, and then a timeout is pending
    that will send the notice false. *)
Theorem typing_notices_alternate (l : list Action) (e : E2EE) (c : bool) :
  alternates true (typing_notices (emitted (acts l (quiet e c)))) = true /\
  default false (last (typing_notices (emitted (acts l (quiet e c)))))
    = isTyping (acts l (quiet e c)) /\
  (isTyping (acts l (quiet e c)) = true ->
   typingTimeout (acts l (quiet e c)) = true /\
   isTyping (typing_timeout_fires (acts l (quiet e c))) = false /\
   typing_notices (emitted (typing_timeout_fires (acts l (quiet e c))))
   = typing_notices (emitted (acts l (quiet e c))) ++ [false]).
Proof.
  assert (H : typing_consistent (acts l (quiet e c))).
  { unfold acts. induction l as [|a l IH] using rev_ind.
    - by repeat split.
    - rewrite fold_left_app. cbn [fold_left]. by apply act_consistent. }
  destruct H as (A & _ & La & T).
  split; [exact A|]. split; [exact La|].
  intros I. specialize (T I). split; [exact T|].
  unfold typing_timeout_fires, stopTyping. rewrite T.
  cbn [isTyping]. rewrite I. unfold emit. cbn [isTyping emitted].
  by rewrite typing_notices_snoc.
Qed.

Lemma act_silent (a : Action) (app : Chat) :
  isReady (e2ee app) = false \/ connected app = false ->
  e2ee (act a app) = e2ee app /\ connected (act a app) = connected app /\
  messages (act a app) = messages app /\
  (forallb is_typing_notice (emitted app) = true ->
   forallb is_typing_notice (emitted (act a app)) = true).
Proof.
  intros N. destruct a as [| |text nonce now]; cbn [act].
  - unfold handleTyping, emit. destruct (isTyping app); cbn; repeat split; try done.
    intros F. by rewrite forallb_app, F.
  - unfold typing_timeout_fires, stopTyping, emit.
    destruct (typingTimeout app); [|done]. cbn.
    destruct (isTyping app); cbn; repeat split; try done.
    intros F. by rewrite forallb_app, F.
  - set (app0 := mkChat _ _ text _ _ _ _ _).
    destruct (sendMessage_cases nonce now app0)
      as [(E & M & _ & _ & K & C & _)|(env & _ & R & C & _)].
    + rewrite E, M, K, C. by repeat split.
    + exfalso. cbn [app0 e2ee connected] in R, C.
      destruct N as [N|N]; congruence.
Qed.

(** X20.  Nothing is sent in the clear and nothing before the key is
    there.  On a page whose engine is not ready, or that is not
    connected, whatever the user types and sends, no envelope is emitted
    and no message displayed; what is emitted are typing notices. *)
Theorem no_envelope_unless_ready (l : list Action) (e : E2EE) (c : bool) :
  isReady e = false \/ c = false ->
  forallb is_typing_notice (emitted (acts l (quiet e c))) = true /\
  messages (acts l (quiet e c)) = [].
Proof.
  intros N.
  assert (H : e2ee (acts l (quiet e c)) = e /\
              connected (acts l (quiet e c)) = c /\
              messages (acts l (quiet e c)) = [] /\
              forallb is_typing_notice (emitted (acts l (quiet e c))) = true).
  { unfold acts. induction l as [|a l IH] using rev_ind; [done|].
    rewrite fold_left_app. cbn [fold_left].
    destruct IH as (K & C & M & F).
    destruct (act_silent a (fold_left (fun app a => act a app) l (quiet e c)))
      as (K' & C' & M' & F'); [by rewrite K, C|].
    rewrite K', C', M'. auto. }
  by destruct H as (_ & _ & M & F).
Qed.

(** The relay, when the sender is a user of a session that has not
    expired. *)
Lemma relay_forwards (a sid : string) (ed n t pk : Value)
    (t_check t_touch t_stamp : Z) (c : Closure) (st : Server) (s : Session) :
  truthy_id (currentSessionId c) = Some sid ->
  sessions st !! sid = Some s ->
  (t_check - createdAt s < expiryHorizon)%Z ->
  a ∈ users s ->
  outbox (Relay.on_encrypted_message a ed n t pk t_check t_touch t_stamp c st).2
  = outbox st ++ [mkDelivery (room_members st sid ∖ {[a]})
                             (EncryptedMessage ed n t t_stamp)].
Proof.
  intros Tc L X U. apply expired_false in X.
  unfold Relay.on_encrypted_message. rewrite Tc.
  unfold_M. rewrite L. simpl. rewrite X. simpl. rewrite L.
  rewrite bool_decide_eq_true_2 by done. simpl. by rewrite L.
Qed.

(** X21.  From one page to the other.  The first page is ready and
    connected and its input, trimmed, is not empty and is well-formed
    text; its socket is a user of a session that has not expired, and the
    socket of the second page, which holds the same key, is in the room.
    Then sendMessage emits one envelope, the relay sends its three fields
    on in one packet that goes to the second socket and not back to the
    first, and the handler of the second page displays the trimmed
    text. *)
Theorem message_reaches_the_peer (appA appB : Chat) (key : AesKey)
    (nonce : list byte) (now : Z) (a b sid : string) (c : Closure)
    (st : Server) (s : Session) (t_check t_touch t_stamp : Z) :
  gcm_law SC ->
  encryptionKey (e2ee appA) = Some key ->
  encryptionKey (e2ee appB) = Some key ->
  connected appA = true ->
  length nonce = 12%nat ->
  trim (input_value appA) <> [] ->
  well_formed (trim (input_value appA)) = true ->
  truthy_id (currentSessionId c) = Some sid ->
  sessions st !! sid = Some s ->
  (t_check - createdAt s < expiryHorizon)%Z ->
  a ∈ users s ->
  b ∈ room_members st sid ->
  a <> b ->
  exists env to,
    Client.emitted (sendMessage nonce now appA)
    = Client.emitted appA
        ++ (EmitEncryptedMessage env
              :: (if isTyping appA then [EmitTyping false] else [])) /\
    input_value (sendMessage nonce now appA) = [] /\
    outbox (Relay.on_encrypted_message a (VStr (encryptedData env))
              (VStr (iv env)) (VStr (tag env)) VUndefined
              t_check t_touch t_stamp c st).2
    = outbox st
        ++ [mkDelivery to
              (EncryptedMessage (VStr (encryptedData env)) (VStr (iv env))
                 (VStr (tag env)) t_stamp)] /\
    b ∈ to /\ (a ∉ to) /\
    Client.on_encrypted_message (encryptedData env) (iv env) (tag env)
      t_stamp appB
    = displayMessage (trim (input_value appA)) t_stamp false appB.
Proof.
  intros G KA KB C Ln NE W Tc L X U Rb AB.
  destruct (envelope_round_trip (e2ee appA) key nonce (trim (input_value appA))
              G KA Ln) as (env & E & D).
  exists env, (room_members st sid ∖ {[a]}).
  destruct (sendMessage_cases nonce now appA)
    as [(_ & _ & _ & _ & _ & _ & [F|[F|[F|[ex F]]]])|(env' & _ & _ & _ & E' & ->)].
  - done.
  - unfold isReady in F. by rewrite KA in F.
  - congruence.
  - congruence.
  - rewrite E in E'. injection E' as <-.
    split; [|split; [|split; [|split; [|split]]]].
    + unfold stopTyping, emit. destruct (isTyping appA); cbn [Client.emitted];
        [by rewrite <- app_assoc | done].
    + unfold stopTyping, emit. by destruct (isTyping appA).
    + by apply (relay_forwards a sid _ _ _ _ t_check t_touch t_stamp c st s).
    + set_solver.
    + set_solver.
    + unfold Client.on_encrypted_message.
      rewrite (decrypt_by_key _ (e2ee appA)) by by rewrite KA, KB.
      by rewrite D, text_round_trip by (done || apply trim_no_mark).
Qed.

End Page.

Lemma no_envelope_unless_ready_witness :
  forallb is_typing_notice
    (emitted (@acts plain_crypto some_actions
                (@quiet plain_crypto a_ready_engine false))) = true /\
  messages (@acts plain_crypto some_actions
              (@quiet plain_crypto a_ready_engine false)) = [].
Proof.
  apply (@no_envelope_unless_ready plain_crypto some_actions a_ready_engine
           false).
  right. reflexivity.
Defined.

Lemma message_reaches_the_peer_witness :
  exists env,
    Client.on_encrypted_message (encryptedData env) (iv env) (tag env) 3000
      a_receiver
    = displayMessage a_message 3000 false a_receiver.
Proof.
  destruct (@message_reaches_the_peer plain_crypto a_sender a_receiver
              (stringToArrayBuffer (units_of "SecureChat-E2EE-Salt")
                 ++ [Byte.x04; Byte.x01; Byte.x02; Byte.x03; Byte.x07])
              a_nonce 0 "a" "b" an_id (mkClosure (Some an_id) (Some "ua"))
              (server (run an_env two_parties initial))
              (mkSession ({["b"]} ∪ ({["a"]} ∪ ∅)) 0 2000 2) 3000 3000 3000
              plain_crypto_law)
    as (env & to & _ & _ & _ & _ & _ & H).
  - reflexivity.
  - reflexivity.
  - reflexivity.
  - reflexivity.
  - vm_compute. discriminate.
  - vm_compute. reflexivity.
  - reflexivity.
  - vm_compute. reflexivity.
  - unfold expiryHorizon, SESSION_EXPIRY_HOURS. cbn [createdAt]. lia.
  - cbn [users]. set_solver.
  - apply (bool_decide_unpack _). vm_compute. exact I.
  - discriminate.
  - exists env. exact H.
Defined.

End ClientFacts.
